(** * A shallow embedding of tinyexpr.c (recursive-descent expression
    compiler, constant folder and evaluator) and proofs about it. *)

From Stdlib Require Import Arith ZArith Ascii String Bool Lia FunctionalExtensionality.
From Stdlib Require Import QArith Qround Factorial.
From stdpp Require Import base list gmap sets.

Open Scope Z_scope.

(* ------------------------------------------------------------------ *)
(** ** Type codes

    [tinyexpr.h] is not under [src/].  Modelled from the spec: the kind
    codes of the public header.  Their values are the ones the macros of
    tinyexpr.c presuppose: [ARITY] keeps the low three bits of a callable
    kind, [IS_FUNCTION] and [IS_CLOSURE] test the single bits
    [TE_FUNCTION0] and [TE_CLOSURE0], [TYPE_MASK] keeps five bits, and the
    purity flag lies above them; [TE_VARIABLE] is 0 (tinyexpr.c places
    [TE_CONSTANT = 1] next to it). *)
Definition TE_VARIABLE : Z := 0.
Definition TE_FUNCTION0 : Z := 8.
Definition TE_FUNCTION1 : Z := 9.
Definition TE_FUNCTION2 : Z := 10.
Definition TE_FUNCTION7 : Z := 15.
Definition TE_CLOSURE0 : Z := 16.
Definition TE_CLOSURE1 : Z := 17.
Definition TE_CLOSURE2 : Z := 18.
Definition TE_CLOSURE7 : Z := 23.
Definition TE_FLAG_PURE : Z := 32.

(** The token enum of tinyexpr.c, starting right after [TE_CLOSURE7]. *)
Definition TOK_NULL : Z := TE_CLOSURE7 + 1.
Definition TOK_ERROR : Z := TOK_NULL + 1.
Definition TOK_END : Z := TOK_NULL + 2.
Definition TOK_SEP : Z := TOK_NULL + 3.
Definition TOK_OPEN : Z := TOK_NULL + 4.
Definition TOK_CLOSE : Z := TOK_NULL + 5.
Definition TOK_NUMBER : Z := TOK_NULL + 6.
Definition TOK_VARIABLE : Z := TOK_NULL + 7.
Definition TOK_INFIX : Z := TOK_NULL + 8.

Definition TE_CONSTANT : Z := 1.

Definition TYPE_MASK (t : Z) : Z := Z.land t 31.
Definition IS_PURE (t : Z) : bool := negb (Z.land t TE_FLAG_PURE =? 0).
Definition IS_FUNCTION (t : Z) : bool := negb (Z.land t TE_FUNCTION0 =? 0).
Definition IS_CLOSURE (t : Z) : bool := negb (Z.land t TE_CLOSURE0 =? 0).
Definition ARITY (t : Z) : Z :=
  if negb (Z.land t (Z.lor TE_FUNCTION0 TE_CLOSURE0) =? 0)
  then Z.land t 7 else 0.

(* ------------------------------------------------------------------ *)
(** ** Addresses

    A [const void *]: the address of a C function of the program or of
    the math library (by its C name), a data address of the caller, or
    the null pointer. *)
Inductive addr :=
  | Code (name : string)
  | Data (n : nat)
  | NullPtr.

Global Instance addr_eq_dec : EqDecision addr.
Proof. solve_decision. Defined.

(** [te_variable]: a caller binding or a built-in table entry. *)
Record te_variable := mk_var {
  var_name : string;
  address : addr;
  var_type : Z;
  var_context : addr
}.

Section Nodes.
Context {D : Type}.

(** The anonymous union of [te_expr] and of [state]: [value], [bound]
    and [function] share their storage; [UZero] is the all-zero pattern
    left by [memset]. *)
Inductive uval :=
  | UValue (d : D)
  | UBound (p : addr)
  | UFunction (f : addr)
  | UZero.

(** [te_expr]: the heap address of the node (its identity), [type], the
    union, and the trailing [void *parameters[]] array, whose slots hold
    child nodes, the null pointer, or (for closures) the context. *)
Inductive te_expr :=
  | Expr (id : nat) (type : Z) (u : uval) (parameters : list param)
with param :=
  | PNull
  | PExpr (e : te_expr)
  | PPtr (p : addr).

End Nodes.

Arguments uval : clear implicits.
Arguments te_expr : clear implicits.
Arguments param : clear implicits.

(* ------------------------------------------------------------------ *)
(** ** C strings and characters

    A C string is a [string] read through [char_at], which yields the
    terminating NUL past its end. *)
Definition NUL : ascii := "000"%char.

Definition char_at (s : string) (i : nat) : ascii :=
  match String.get i s with Some c => c | None => NUL end.

Definition code (c : ascii) : Z := Z.of_nat (nat_of_ascii c).

(** [isdigit], [isalpha] and [isxdigit] in the C locale. *)
Definition is_digit (c : ascii) : bool := (48 <=? code c) && (code c <=? 57).
Definition is_alpha (c : ascii) : bool :=
  ((65 <=? code c) && (code c <=? 90)) || ((97 <=? code c) && (code c <=? 122)).
Definition is_xdigit (c : ascii) : bool :=
  is_digit c || ((65 <=? code c) && (code c <=? 70))
             || ((97 <=? code c) && (code c <=? 102)).

(** [strncmp(a + i, b + j, n)]: the difference of the first differing
    characters (as unsigned char), 0 if the first [n] agree or both end. *)
Fixpoint strncmp_at (a : string) (i : nat) (b : string) (j : nat) (n : nat) : Z :=
  match n with
  | O => 0
  | S n' =>
      let ca := char_at a i in
      let cb := char_at b j in
      if Ascii.eqb ca cb then
        if Ascii.eqb ca NUL then 0 else strncmp_at a (S i) b (S j) n'
      else code ca - code cb
  end.

(** The text of a C string from offset [i] on. *)
Definition suffix (s : string) (i : nat) : string :=
  String.substring i (String.length s - i) s.

Fixpoint count_while (p : ascii -> bool) (s : string) : nat :=
  match s with
  | EmptyString => O
  | String c t => if p c then S (count_while p t) else O
  end.

(** ** [strtod]: how many characters it consumes

    [next_token] calls [strtod] only at a digit or a '.', so the forms
    with leading space, sign, "inf" or "nan" are not reachable; what
    remains is a decimal literal or a hexadecimal one after "0x". *)
Definition exp_len (marker : ascii -> bool) (t : string) : nat :=
  match t with
  | String c t1 =>
      if marker c then
        let '(sg, t2) :=
          match t1 with
          | String c' t2 =>
              if Ascii.eqb c' "+" || Ascii.eqb c' "-" then (1%nat, t2) else (O, t1)
          | EmptyString => (O, t1)
          end in
        let d := count_while is_digit t2 in
        if (d =? 0)%nat then O else (1 + sg + d)%nat
      else O
  | EmptyString => O
  end.

(** Length of a mantissa [digits ["." digits]] and the number of its
    digits. *)
Definition mantissa_len (isd : ascii -> bool) (t : string) : nat * nat :=
  let d1 := count_while isd t in
  match suffix t d1 with
  | String c t2 =>
      if Ascii.eqb c "." then
        let d2 := count_while isd t2 in ((d1 + 1 + d2)%nat, (d1 + d2)%nat)
      else (d1, d1)
  | EmptyString => (d1, d1)
  end.

Definition is_e (c : ascii) : bool := Ascii.eqb c "e" || Ascii.eqb c "E".
Definition is_p (c : ascii) : bool := Ascii.eqb c "p" || Ascii.eqb c "P".

Definition decimal_len (t : string) : nat :=
  let '(m, nd) := mantissa_len is_digit t in
  if (nd =? 0)%nat then O else (m + exp_len is_e (suffix t m))%nat.

Definition strtod_len (t : string) : nat :=
  match t with
  | String "0" (String x t2) =>
      if Ascii.eqb x "x" || Ascii.eqb x "X" then
        let '(m, nd) := mantissa_len is_xdigit t2 in
        if (nd =? 0)%nat then 1%nat else (2 + m + exp_len is_p (suffix t2 m))%nat
      else decimal_len t
  | _ => decimal_len t
  end.

(* ------------------------------------------------------------------ *)
(** ** The built-in table [functions] and [find_builtin] *)

Definition builtin (name fn : string) (arity : Z) : te_variable :=
  mk_var name (Code fn) (Z.lor (TE_FUNCTION0 + arity) TE_FLAG_PURE) NullPtr.

(** The all-zero entry [{0, 0, 0, 0}] closing the table. *)
Definition sentinel : te_variable := mk_var "" NullPtr 0 NullPtr.

(** In alphabetical order, with the all-zero sentinel at the end; "log"
    is the base-10 logarithm ([TE_NAT_LOG] is not defined). *)
Definition functions : list te_variable := [
  builtin "abs" "fabs" 1; builtin "acos" "acos" 1; builtin "asin" "asin" 1;
  builtin "atan" "atan" 1; builtin "atan2" "atan2" 2; builtin "ceil" "ceil" 1;
  builtin "cos" "cos" 1; builtin "cosh" "cosh" 1; builtin "e" "e" 0;
  builtin "exp" "exp" 1; builtin "fac" "fac" 1; builtin "floor" "floor" 1;
  builtin "ln" "log" 1; builtin "log" "log10" 1; builtin "log10" "log10" 1;
  builtin "ncr" "ncr" 2; builtin "npr" "npr" 2; builtin "pi" "pi" 0;
  builtin "pow" "pow" 2; builtin "sin" "sin" 1; builtin "sinh" "sinh" 1;
  builtin "sqrt" "sqrt" 1; builtin "tan" "tan" 1; builtin "tanh" "tanh" 1;
  sentinel ]%string.

(** The comparison of the loop body: [strncmp] on [len] characters, then
    ['\0' - functions[i].name[len]]. *)
Definition builtin_cmp (input : string) (name len : nat) (e : te_variable) : Z :=
  let c := strncmp_at input name (var_name e) 0 len in
  if c =? 0 then 0 - code (char_at (var_name e) len) else c.

(** The [while (imax >= imin)] loop; [fuel] bounds the iterations (the
    range shrinks on each one). *)
Fixpoint find_builtin_loop (fuel : nat) (input : string) (name len : nat)
    (imin imax : Z) : option te_variable :=
  match fuel with
  | O => None
  | S f =>
      if imax >=? imin then
        let i := imin + (imax - imin) / 2 in
        let e := nth (Z.to_nat i) functions sentinel in
        let c := builtin_cmp input name len e in
        if c =? 0 then Some e
        else if c >? 0 then find_builtin_loop f input name len (i + 1) imax
        else find_builtin_loop f input name len imin (i - 1)
      else None
  end.

Definition find_builtin (input : string) (name len : nat) : option te_variable :=
  find_builtin_loop (length functions) input name len 0 (Z.of_nat (length functions) - 2).

(** [find_lookup]: a linear scan of the caller's [lookup_len] bindings
    (a NULL [lookup] is the empty list). *)
Fixpoint find_lookup (lookup : list te_variable) (input : string) (name len : nat)
    : option te_variable :=
  match lookup with
  | [] => None
  | var :: rest =>
      if (strncmp_at input name (var_name var) 0 len =? 0)
         && Ascii.eqb (char_at (var_name var) len) NUL
      then Some var
      else find_lookup rest input name len
  end.

(* ------------------------------------------------------------------ *)
(** ** The host

    What the program takes from its environment: the doubles, the value
    [strtod] gives to the text it consumed (0.0 for none), the memory
    read through a [bound] pointer at evaluation time, the behaviour of
    each C function called through a pointer ([add], [negate], [pow],
    [sin], the caller's functions and closures, ...), and [malloc],
    whose [n]-th call returns NULL when [malloc_fails n] holds. *)
Class Host (D : Type) := {
  NAN : D;
  strtod_value : string -> D;
  deref : addr -> D;
  call : addr -> list D -> D;
  call_closure : addr -> param D -> list D -> D;
  malloc_fails : nat -> bool
}.

Section Lexer.
Context {D : Type} `{Host D}.

(** [struct state]. *)
Record state := mk_state {
  start : string;
  next : nat;
  type : Z;
  su : uval D;
  context : addr;
  lookup : list te_variable
}.

Definition set_type (s : state) (t : Z) : state :=
  mk_state (start s) (next s) t (su s) (context s) (lookup s).
Definition set_next (s : state) (n : nat) : state :=
  mk_state (start s) n (type s) (su s) (context s) (lookup s).
Definition set_su (s : state) (u : uval D) : state :=
  mk_state (start s) (next s) (type s) u (context s) (lookup s).
Definition set_context (s : state) (c : addr) : state :=
  mk_state (start s) (next s) (type s) (su s) c (lookup s).

(** [*s->next]. *)
Definition cur (s : state) : ascii := char_at (start s) (next s).

(** [s->function == f]. *)
Definition function_is (s : state) (f : addr) : bool :=
  match su s with UFunction g => bool_decide (g = f) | _ => false end.

Definition is_ident_char (c : ascii) : bool :=
  is_alpha c || is_digit c || Ascii.eqb c "_".

(** The token of a resolved identifier: the [switch] on
    [TYPE_MASK(var->type)]; a kind outside it leaves [TOK_NULL]. *)
Definition resolved_token (s : state) (var : te_variable) : state :=
  let m := TYPE_MASK (var_type var) in
  if m =? TE_VARIABLE then set_su (set_type s TOK_VARIABLE) (UBound (address var))
  else if (TE_CLOSURE0 <=? m) && (m <=? TE_CLOSURE7) then
    set_su (set_type (set_context s (var_context var)) (var_type var))
           (UFunction (address var))
  else if (TE_FUNCTION0 <=? m) && (m <=? TE_FUNCTION7) then
    set_su (set_type s (var_type var)) (UFunction (address var))
  else s.

(** One pass of the [do ... while (s->type == TOK_NULL)] body, entered
    with [s->type == TOK_NULL]. *)
Definition next_token_step (s : state) : state :=
  let c := cur s in
  if Ascii.eqb c NUL then set_type s TOK_END
  else if is_digit c || Ascii.eqb c "." then
    let n := strtod_len (suffix (start s) (next s)) in
    set_type (set_su (set_next s (next s + n)%nat)
                     (UValue (strtod_value (String.substring (next s) n (start s)))))
             TOK_NUMBER
  else if is_alpha c then
    let name := next s in
    let len := count_while is_ident_char (suffix (start s) name) in
    let s1 := set_next s (name + len)%nat in
    let var :=
      match find_lookup (lookup s) (start s) name len with
      | Some v => Some v
      | None => find_builtin (start s) name len
      end in
    match var with
    | None => set_type s1 TOK_ERROR
    | Some v => resolved_token s1 v
    end
  else
    let s1 := set_next s (S (next s)) in
    let infix f := set_su (set_type s1 TOK_INFIX) (UFunction (Code f)) in
    if Ascii.eqb c "+" then infix "add"%string
    else if Ascii.eqb c "-" then infix "sub"%string
    else if Ascii.eqb c "*" then infix "mul"%string
    else if Ascii.eqb c "/" then infix "divide"%string
    else if Ascii.eqb c "^" then infix "pow"%string
    else if Ascii.eqb c "%" then infix "fmod"%string
    else if Ascii.eqb c "(" then set_type s1 TOK_OPEN
    else if Ascii.eqb c ")" then set_type s1 TOK_CLOSE
    else if Ascii.eqb c "," then set_type s1 TOK_SEP
    else if Ascii.eqb c " " || Ascii.eqb c "009" || Ascii.eqb c "010"
            || Ascii.eqb c "013" then s1
    else set_type s1 TOK_ERROR.

(** The loop; every pass that yields [TOK_NULL] consumed at least one
    character, so one pass per remaining character and one more
    suffice. *)
Fixpoint next_token_loop (fuel : nat) (s : state) : state :=
  match fuel with
  | O => s
  | S f =>
      let s' := next_token_step s in
      if type s' =? TOK_NULL then next_token_loop f s' else s'
  end.

Definition next_token (s : state) : state :=
  next_token_loop (S (String.length (start s) - next s)) (set_type s TOK_NULL).

End Lexer.

(* ------------------------------------------------------------------ *)
(** ** Nodes: allocation, freeing, evaluation, folding *)

(** The heap as the program sees it: the number of [malloc] calls made
    so far (the next node's address) and the addresses of live nodes. *)
Record heap := mk_heap { hnext : nat; live : gset nat }.

Section Nodes_ops.
Context {D : Type} `{Host D}.

Definition node_type (n : te_expr D) : Z := match n with Expr _ t _ _ => t end.
Definition node_id (n : te_expr D) : nat := match n with Expr i _ _ _ => i end.
Definition node_u (n : te_expr D) : uval D := match n with Expr _ _ u _ => u end.
Definition parameters (n : te_expr D) : list (param D) :=
  match n with Expr _ _ _ ps => ps end.

Definition set_u (n : te_expr D) (u : uval D) : te_expr D :=
  match n with Expr i t _ ps => Expr i t u ps end.
(** [n->parameters[i] = p], inside the allocated slots. *)
Definition set_param (n : te_expr D) (i : nat) (p : param D) : te_expr D :=
  match n with Expr j t u ps => Expr j t u (<[i := p]> ps) end.

(** Reading a member of the union (the other members are never read
    in the program's reachable paths). *)
Definition union_value (u : uval D) : D := match u with UValue d => d | _ => NAN end.
Definition union_bound (u : uval D) : addr := match u with UBound p => p | _ => NullPtr end.
Definition union_function (u : uval D) : addr :=
  match u with UFunction f => f | _ => NullPtr end.

(** [new_expr(type, parameters)]: [malloc], [memset] to zero, copy
    [arity] parameters when given; [arity] child slots and, for a
    closure, one more slot. *)
Definition new_expr_h (t : Z) (parameters : option (list (param D))) (h : heap)
    : option (te_expr D) * heap :=
  let k := hnext h in
  if malloc_fails k then (None, mk_heap (S k) (live h))
  else
    let arity := Z.to_nat (ARITY t) in
    let slots := repeat PNull (arity + (if IS_CLOSURE t then 1 else 0)) in
    let slots :=
      match parameters with
      | Some ps => if (arity =? 0)%nat then slots else firstn arity ps ++ drop arity slots
      | None => slots
      end in
    (Some (Expr k t UZero slots), mk_heap (S k) ({[k]} ∪ live h)).

(** How many child slots [te_free_parameters] frees: the fall-through
    [switch] on [TYPE_MASK(n->type)]. *)
Definition freed_children (t : Z) : nat :=
  let m := TYPE_MASK t in
  if ((TE_FUNCTION1 <=? m) && (m <=? TE_FUNCTION7))
     || ((TE_CLOSURE1 <=? m) && (m <=? TE_CLOSURE7))
  then Z.to_nat (Z.land m 7) else O.

Definition free_cell (id : nat) (h : heap) : heap := mk_heap (hnext h) (live h ∖ {[id]}).

(** [te_free]: the children (highest slot first, as the fall-through
    runs), then the node.  [te_free(NULL)] does nothing. *)
Fixpoint te_free (n : te_expr D) (h : heap) : heap :=
  match n with
  | Expr id t _ ps =>
      let k := freed_children t in
      let fix free_params (i : nat) (ps : list (param D)) (h : heap) : heap :=
        match ps with
        | [] => h
        | p :: ps' =>
            let h1 := free_params (S i) ps' h in
            if (i <? k)%nat then
              match p with PExpr c => te_free c h1 | _ => h1 end
            else h1
        end in
      free_cell id (free_params O ps h)
  end.

Fixpoint free_params_from (k i : nat) (ps : list (param D)) (h : heap) : heap :=
  match ps with
  | [] => h
  | p :: ps' =>
      let h1 := free_params_from k (S i) ps' h in
      if (i <? k)%nat then match p with PExpr c => te_free c h1 | _ => h1 end else h1
  end.

(** [te_free_parameters]. *)
Definition te_free_parameters (n : te_expr D) (h : heap) : heap :=
  free_params_from (freed_children (node_type n)) O (parameters n) h.

(** [te_eval]; [M(e)] is [te_eval(n->parameters[e])], and an empty slot
    ([te_eval(NULL)]) is NaN. *)
Fixpoint te_eval (n : te_expr D) : D :=
  match n with
  | Expr _ t u ps =>
      let fix evals (ps : list (param D)) : list D :=
        match ps with
        | [] => []
        | p :: ps' => match p with PExpr c => te_eval c | _ => NAN end :: evals ps'
        end in
      let args := map (fun i => nth i (evals ps) NAN) (seq 0 (Z.to_nat (ARITY t))) in
      let m := TYPE_MASK t in
      if m =? TE_CONSTANT then union_value u
      else if m =? TE_VARIABLE then deref (union_bound u)
      else if (TE_FUNCTION0 <=? m) && (m <=? TE_FUNCTION7) then
        call (union_function u) args
      else if (TE_CLOSURE0 <=? m) && (m <=? TE_CLOSURE7) then
        call_closure (union_function u) (nth (Z.to_nat (ARITY t)) ps PNull) args
      else NAN
  end.

(** [optimize]: fold a pure node whose children all became constants.
    [optimize(NULL)] would dereference NULL; no tree the parser returns
    on success has an empty child slot, and such a slot is left alone. *)
Fixpoint optimize (n : te_expr D) (h : heap) : te_expr D * heap :=
  match n with
  | Expr id t u ps =>
      if (t =? TE_CONSTANT) || (t =? TE_VARIABLE) then (n, h)
      else if IS_PURE t then
        let arity := Z.to_nat (ARITY t) in
        let fix opt_params (i : nat) (ps : list (param D)) (h : heap)
            : list (param D) * bool * heap :=
          match ps with
          | [] => ([], true, h)
          | p :: ps' =>
              if (i <? arity)%nat then
                match p with
                | PExpr c =>
                    let '(c', h1) := optimize c h in
                    let '(ps'', known, h2) := opt_params (S i) ps' h1 in
                    (PExpr c' :: ps'', (node_type c' =? TE_CONSTANT) && known, h2)
                | _ =>
                    let '(ps'', _, h2) := opt_params (S i) ps' h in
                    (p :: ps'', false, h2)
                end
              else
                let '(ps'', known, h2) := opt_params (S i) ps' h in
                (p :: ps'', known, h2)
          end in
        let '(ps', known, h') := opt_params O ps h in
        let n' := Expr id t u ps' in
        if known then
          let value := te_eval n' in
          (Expr id TE_CONSTANT (UValue value) ps', te_free_parameters n' h')
        else (n', h')
      else (n, h)
  end.

End Nodes_ops.

(* ------------------------------------------------------------------ *)
(** ** The parser

    A state-and-heap monad; [None] means the fuel ran out, which no C
    execution does: every parse routine and every loop pass takes one
    unit of fuel. *)
Section Parser.
Context {D : Type} `{Host D}.

Definition M (A : Type) := @state D -> heap -> option (A * @state D * heap).

Definition returnM {A} (a : A) : M A := fun s h => Some (a, s, h).
Definition bindM {A B} (m : M A) (k : A -> M B) : M B :=
  fun s h => match m s h with None => None | Some (a, s', h') => k a s' h' end.
Definition out_of_fuel {A} : M A := fun _ _ => None.

Local Notation "x <- m ;; k" := (bindM m (fun x => k))
  (at level 100, m at next level, right associativity).
Local Notation "m ;;; k" := (bindM m (fun _ => k)) (at level 100, right associativity).

Definition get_state : M (@state D) := fun s h => Some (s, s, h).
Definition next_token_m : M unit := fun s h => Some (tt, next_token s, h).
Definition set_type_m (t : Z) : M unit := fun s h => Some (tt, set_type s t, h).
Definition new_expr (t : Z) (ps : option (list (param D))) : M (option (te_expr D)) :=
  fun s h => let '(r, h') := new_expr_h t ps h in Some (r, s, h').
Definition free_m (n : te_expr D) : M unit := fun s h => Some (tt, s, te_free n h).

Definition BINARY : Z := Z.lor TE_FUNCTION2 TE_FLAG_PURE.
Definition UNARY : Z := Z.lor TE_FUNCTION1 TE_FLAG_PURE.

(** The sign loop of [power]. *)
Fixpoint power_signs (fuel : nat) (sign : Z) : M Z :=
  match fuel with
  | O => out_of_fuel
  | S f =>
      s <- get_state ;;
      if (type s =? TOK_INFIX)
         && (function_is s (Code "add") || function_is s (Code "sub")) then
        let sign' := if function_is s (Code "sub") then - sign else sign in
        next_token_m ;;; power_signs f sign'
      else returnM sign
  end.

(** A left fold [ret OP operand]: the loops of [factor], [term], [expr]
    and [list] share this step once the operand is parsed: on a NULL
    operand free [ret]; then [NEW_EXPR(TE_FUNCTION2 | TE_FLAG_PURE, ret,
    operand)], freeing both on a NULL. *)
Definition fold_step (ret : te_expr D) (t : uval D) (operand : option (te_expr D))
    : M (option (te_expr D)) :=
  match operand with
  | None => free_m ret ;;; returnM None
  | Some p =>
      r <- new_expr BINARY (Some [PExpr ret; PExpr p]) ;;
      match r with
      | None => free_m p ;;; free_m ret ;;; returnM None
      | Some n => returnM (Some (set_u n t))
      end
  end.

Fixpoint parse_list (fuel : nat) : M (option (te_expr D)) :=
  match fuel with
  | O => out_of_fuel
  | S f =>
      r <- expr f ;;
      match r with None => returnM None | Some ret => list_loop f ret end
  end
with list_loop (fuel : nat) (ret : te_expr D) : M (option (te_expr D)) :=
  match fuel with
  | O => out_of_fuel
  | S f =>
      s <- get_state ;;
      if type s =? TOK_SEP then
        next_token_m ;;;
        e <- expr f ;;
        r <- fold_step ret (UFunction (Code "comma")) e ;;
        match r with None => returnM None | Some ret' => list_loop f ret' end
      else returnM (Some ret)
  end
with expr (fuel : nat) : M (option (te_expr D)) :=
  match fuel with
  | O => out_of_fuel
  | S f =>
      r <- term f ;;
      match r with None => returnM None | Some ret => expr_loop f ret end
  end
with expr_loop (fuel : nat) (ret : te_expr D) : M (option (te_expr D)) :=
  match fuel with
  | O => out_of_fuel
  | S f =>
      s <- get_state ;;
      if (type s =? TOK_INFIX)
         && (function_is s (Code "add") || function_is s (Code "sub")) then
        let t := su s in
        next_token_m ;;;
        te <- term f ;;
        r <- fold_step ret t te ;;
        match r with None => returnM None | Some ret' => expr_loop f ret' end
      else returnM (Some ret)
  end
with term (fuel : nat) : M (option (te_expr D)) :=
  match fuel with
  | O => out_of_fuel
  | S f =>
      r <- factor f ;;
      match r with None => returnM None | Some ret => term_loop f ret end
  end
with term_loop (fuel : nat) (ret : te_expr D) : M (option (te_expr D)) :=
  match fuel with
  | O => out_of_fuel
  | S f =>
      s <- get_state ;;
      if (type s =? TOK_INFIX)
         && (function_is s (Code "mul") || function_is s (Code "divide")
             || function_is s (Code "fmod")) then
        let t := su s in
        next_token_m ;;;
        fa <- factor f ;;
        r <- fold_step ret t fa ;;
        match r with None => returnM None | Some ret' => term_loop f ret' end
      else returnM (Some ret)
  end
with factor (fuel : nat) : M (option (te_expr D)) :=
  match fuel with
  | O => out_of_fuel
  | S f =>
      r <- power f ;;
      match r with None => returnM None | Some ret => factor_loop f ret end
  end
with factor_loop (fuel : nat) (ret : te_expr D) : M (option (te_expr D)) :=
  match fuel with
  | O => out_of_fuel
  | S f =>
      s <- get_state ;;
      if (type s =? TOK_INFIX) && function_is s (Code "pow") then
        let t := su s in
        next_token_m ;;;
        p <- power f ;;
        r <- fold_step ret t p ;;
        match r with None => returnM None | Some ret' => factor_loop f ret' end
      else returnM (Some ret)
  end
with power (fuel : nat) : M (option (te_expr D)) :=
  match fuel with
  | O => out_of_fuel
  | S f =>
      sign <- power_signs f 1 ;;
      if sign =? 1 then base f
      else
        b <- base f ;;
        match b with
        | None => returnM None
        | Some b =>
            r <- new_expr UNARY (Some [PExpr b]) ;;
            match r with
            | None => free_m b ;;; returnM None
            | Some ret => returnM (Some (set_u ret (UFunction (Code "negate"))))
            end
        end
  end
with base (fuel : nat) : M (option (te_expr D)) :=
  match fuel with
  | O => out_of_fuel
  | S f =>
      s <- get_state ;;
      let m := TYPE_MASK (type s) in
      if m =? TOK_NUMBER then
        r <- new_expr TE_CONSTANT None ;;
        match r with
        | None => returnM None
        | Some ret => next_token_m ;;; returnM (Some (set_u ret (su s)))
        end
      else if m =? TOK_VARIABLE then
        r <- new_expr TE_VARIABLE None ;;
        match r with
        | None => returnM None
        | Some ret => next_token_m ;;; returnM (Some (set_u ret (su s)))
        end
      else if (m =? TE_FUNCTION0) || (m =? TE_CLOSURE0) then
        r <- new_expr (type s) None ;;
        match r with
        | None => returnM None
        | Some ret =>
            let ret := set_u ret (su s) in
            let ret := if IS_CLOSURE (type s) then set_param ret 0 (PPtr (context s))
                       else ret in
            next_token_m ;;;
            s1 <- get_state ;;
            if type s1 =? TOK_OPEN then
              next_token_m ;;;
              s2 <- get_state ;;
              if negb (type s2 =? TOK_CLOSE) then set_type_m TOK_ERROR ;;; returnM (Some ret)
              else next_token_m ;;; returnM (Some ret)
            else returnM (Some ret)
        end
      else if (m =? TE_FUNCTION1) || (m =? TE_CLOSURE1) then
        r <- new_expr (type s) None ;;
        match r with
        | None => returnM None
        | Some ret =>
            let ret := set_u ret (su s) in
            let ret := if IS_CLOSURE (type s) then set_param ret 1 (PPtr (context s))
                       else ret in
            next_token_m ;;;
            p <- power f ;;
            match p with
            | None => free_m ret ;;; returnM None
            | Some p => returnM (Some (set_param ret 0 (PExpr p)))
            end
        end
      else if ((TE_FUNCTION2 <=? m) && (m <=? TE_FUNCTION7))
              || ((TE_CLOSURE2 <=? m) && (m <=? TE_CLOSURE7)) then
        let arity := Z.to_nat (ARITY (type s)) in
        r <- new_expr (type s) None ;;
        match r with
        | None => returnM None
        | Some ret =>
            let ret := set_u ret (su s) in
            let ret := if IS_CLOSURE (type s) then set_param ret arity (PPtr (context s))
                       else ret in
            next_token_m ;;;
            s1 <- get_state ;;
            if negb (type s1 =? TOK_OPEN) then set_type_m TOK_ERROR ;;; returnM (Some ret)
            else
              a <- base_args f arity O ret ;;
              match a with
              | None => returnM None
              | Some (ret, i) =>
                  s2 <- get_state ;;
                  if negb (type s2 =? TOK_CLOSE) || negb (i =? arity - 1)%nat then
                    set_type_m TOK_ERROR ;;; returnM (Some ret)
                  else next_token_m ;;; returnM (Some ret)
              end
        end
      else if m =? TOK_OPEN then
        next_token_m ;;;
        r <- parse_list f ;;
        match r with
        | None => returnM None
        | Some ret =>
            s1 <- get_state ;;
            if negb (type s1 =? TOK_CLOSE) then set_type_m TOK_ERROR ;;; returnM (Some ret)
            else next_token_m ;;; returnM (Some ret)
        end
      else
        r <- new_expr 0 None ;;
        match r with
        | None => returnM None
        | Some ret => set_type_m TOK_ERROR ;;; returnM (Some (set_u ret (UValue NAN)))
        end
  end
(** The argument loop [for (i = 0; i < arity; i++)] of a call with two
    or more arguments; it returns the node and the final [i]. *)
with base_args (fuel : nat) (arity i : nat) (ret : te_expr D)
    : M (option (te_expr D * nat)) :=
  match fuel with
  | O => out_of_fuel
  | S f =>
      if (i <? arity)%nat then
        next_token_m ;;;
        p <- expr f ;;
        match p with
        | None => free_m ret ;;; returnM None
        | Some p =>
            let ret := set_param ret i (PExpr p) in
            s <- get_state ;;
            if negb (type s =? TOK_SEP) then returnM (Some (ret, i))
            else base_args f arity (S i) ret
        end
      else returnM (Some (ret, i))
  end.

(** [te_compile]: the tree (or NULL), [*error], and the heap after. *)
Definition te_compile (fuel : nat) (expression : string) (variables : list te_variable)
    (h : heap) : option (option (te_expr D) * Z * heap) :=
  let s := mk_state expression O TOK_NULL UZero NullPtr variables in
  match parse_list fuel (next_token s) h with
  | None => None
  | Some (None, _, h') => Some (None, -1, h')
  | Some (Some root, s', h') =>
      if negb (type s' =? TOK_END) then
        let e := Z.of_nat (next s') in
        Some (None, (if e =? 0 then 1 else e), te_free root h')
      else
        let '(root', h'') := optimize root h' in
        Some (Some root', 0, h'')
  end.

End Parser.

(* ------------------------------------------------------------------ *)
(** ** Names, trees and runs used in the statements *)

(** A C string has no NUL inside it. *)
Fixpoint nul_free (s : string) : bool :=
  match s with
  | EmptyString => true
  | String c t => negb (Ascii.eqb c NUL) && nul_free t
  end.

(** The identifier [next_token] extracts at offset [i] of the input:
    its length and its text. *)
Definition ident_len (input : string) (i : nat) : nat :=
  count_while is_ident_char (suffix input i).
Definition ident (input : string) (i : nat) : string :=
  String.substring i (ident_len input i) input.

(** The first binding, in registration order, whose name is [name]. *)
Definition first_binding (vars : list te_variable) (name : string) : option te_variable :=
  List.find (fun v => String.eqb (var_name v) name) vars.

(** The table without its sentinel. *)
Definition builtin_entries : list te_variable := firstn 24 functions.

Section Trees.
Context {D : Type} `{Host D}.

Definition init_state (expression : string) (variables : list te_variable) : @state D :=
  mk_state expression O TOK_NULL UZero NullPtr variables.

(** The root [list] returns inside [te_compile], before [optimize]. *)
Definition parse_root (fuel : nat) (expression : string) (variables : list te_variable)
    (h : heap) : option (option (te_expr D) * @state D * heap) :=
  parse_list fuel (next_token (init_state expression variables)) h.

(** [p] holds at every node reached through the child slots
    [0 .. ARITY(type) - 1], the ones [te_eval] and [optimize] visit. *)
Fixpoint forall_nodes (p : te_expr D -> bool) (n : te_expr D) : bool :=
  match n with
  | Expr _ t _ ps =>
      let fix go (i : nat) (ps : list (param D)) : bool :=
        match ps with
        | [] => true
        | q :: ps' =>
            (if (i <? Z.to_nat (ARITY t))%nat then
               match q with PExpr c => forall_nodes p c | _ => true end
             else true) && go (S i) ps'
        end in
      p n && go O ps
  end.

(** Every child slot [0 .. ARITY(type) - 1] holds a node. *)
Definition slots_filled (n : te_expr D) : bool :=
  forallb (fun i => match nth i (parameters n) PNull with PExpr _ => true | _ => false end)
          (seq 0 (Z.to_nat (ARITY (node_type n)))).

Definition is_closure_node (n : te_expr D) : bool :=
  let m := TYPE_MASK (node_type n) in (TE_CLOSURE0 <=? m) && (m <=? TE_CLOSURE7).

(** The slot [ARITY(type)] of a closure node holds the context pointer of
    the caller binding the node calls: a binding of the node's kind whose
    function is the node's [function]. *)
Definition closure_slot_ok (vars : list te_variable) (n : te_expr D) : bool :=
  if is_closure_node n then
    match nth (Z.to_nat (ARITY (node_type n))) (parameters n) PNull with
    | PPtr c => existsb (fun v => (var_type v =? node_type n)
                                  && bool_decide (var_context v = c)
                                  && match node_u n with
                                     | UFunction f => bool_decide (f = address v)
                                     | _ => false
                                     end) vars
    | _ => false
    end
  else true.

(** The addresses [te_free] releases: the node and, recursively, the
    children in the slots its [switch] visits. *)
Fixpoint ids (n : te_expr D) : gset nat :=
  match n with
  | Expr id t _ ps =>
      let k := freed_children t in
      let fix go (i : nat) (ps : list (param D)) : gset nat :=
        match ps with
        | [] => ∅
        | q :: ps' =>
            (if (i <? k)%nat then match q with PExpr c => ids c | _ => ∅ end else ∅)
            ∪ go (S i) ps'
        end in
      {[id]} ∪ go O ps
  end.

(** The inner loops of [ids], [te_free], [forall_nodes], [te_eval] and
    [optimize], as functions of their own. *)
Definition ids_go (k : nat) : nat -> list (param D) -> gset nat :=
  fix go (i : nat) (ps : list (param D)) : gset nat :=
    match ps with
    | [] => ∅
    | q :: ps' =>
        (if (i <? k)%nat then match q with PExpr c => ids c | _ => ∅ end else ∅)
        ∪ go (S i) ps'
    end.

Definition free_go (k : nat) : nat -> list (param D) -> heap -> heap :=
  fix free_params (i : nat) (ps : list (param D)) (h : heap) : heap :=
    match ps with
    | [] => h
    | p :: ps' =>
        let h1 := free_params (S i) ps' h in
        if (i <? k)%nat then
          match p with PExpr c => te_free c h1 | _ => h1 end
        else h1
    end.

Definition forall_go (p : te_expr D -> bool) (ar : nat) : nat -> list (param D) -> bool :=
  fix go (i : nat) (ps : list (param D)) : bool :=
    match ps with
    | [] => true
    | q :: ps' =>
        (if (i <? ar)%nat then
           match q with PExpr c => forall_nodes p c | _ => true end
         else true) && go (S i) ps'
    end.

Definition evals_go : list (param D) -> list D :=
  fix evals (ps : list (param D)) : list D :=
    match ps with
    | [] => []
    | p :: ps' => match p with PExpr c => te_eval c | _ => NAN end :: evals ps'
    end.

Definition opt_go (arity : nat)
    : nat -> list (param D) -> heap -> list (param D) * bool * heap :=
  fix opt_params (i : nat) (ps : list (param D)) (h : heap)
      : list (param D) * bool * heap :=
    match ps with
    | [] => ([], true, h)
    | p :: ps' =>
        if (i <? arity)%nat then
          match p with
          | PExpr c =>
              let '(c', h1) := optimize c h in
              let '(ps'', known, h2) := opt_params (S i) ps' h1 in
              (PExpr c' :: ps'', (node_type c' =? TE_CONSTANT) && known, h2)
          | _ =>
              let '(ps'', _, h2) := opt_params (S i) ps' h in
              (p :: ps'', false, h2)
          end
        else
          let '(ps'', known, h2) := opt_params (S i) ps' h in
          (p :: ps'', known, h2)
    end.

(** A node [optimize] folds once its children are constants: a constant,
    or a node whose kind carries [TE_FLAG_PURE]. *)
Definition pure_or_const (n : te_expr D) : bool :=
  (node_type n =? TE_CONSTANT) || IS_PURE (node_type n).

(** A run of [+]/[-] tokens from [s] to [s'] holding [n] minus signs. *)
Inductive sign_run : @state D -> nat -> @state D -> Prop :=
  | sign_run_done s :
      ((type s =? TOK_INFIX)
       && (function_is s (Code "add") || function_is s (Code "sub"))) = false ->
      sign_run s O s
  | sign_run_plus s n s' :
      type s = TOK_INFIX -> function_is s (Code "add") = true ->
      sign_run (next_token s) n s' -> sign_run s n s'
  | sign_run_minus s n s' :
      type s = TOK_INFIX -> function_is s (Code "sub") = true ->
      sign_run (next_token s) n s' -> sign_run s (S n) s'.

End Trees.

(** What the parse routines keep: the heap accounting of [malloc] and
    [te_free], the tokens the lexer hands over, and the trees built. *)
Section Invariants.
Context {D : Type} `{Host D}.
Variable vars : list te_variable.

(** Every live node was allocated by an earlier [malloc] call. *)
Definition wf_heap (h : heap) : Prop := forall x, x ∈ live h -> (x < hnext h)%nat.

(** Some [malloc] call between [h] and [h'] returned NULL; none did. *)
Definition fails_in (h h' : heap) : Prop :=
  exists k, (hnext h <= k < hnext h')%nat /\ malloc_fails k = true.
Definition no_fail (h h' : heap) : Prop :=
  forall k, (hnext h <= k < hnext h')%nat -> malloc_fails k = false.

Definition callable_type (t : Z) : bool :=
  (TE_FUNCTION0 <=? TYPE_MASK t) && (TYPE_MASK t <=? TE_CLOSURE7).
Definition closure_type (t : Z) : bool :=
  (TE_CLOSURE0 <=? TYPE_MASK t) && (TYPE_MASK t <=? TE_CLOSURE7).

(** Every caller binding is a function or closure marked pure. *)
Definition bindings_pure : bool :=
  forallb (fun v => callable_type (var_type v) && IS_PURE (var_type v)) vars.

(** A token as [next_token] leaves it: a closure token carries the
    function and context of a caller binding of its kind; when every
    binding is a pure callable, no token is a variable and every callable
    token is pure. *)
Definition tok_ok (s : @state D) : Prop :=
  lookup s = vars /\
  (closure_type (type s) = true ->
   exists v, In v vars /\ var_type v = type s /\ var_context v = context s /\
             su s = UFunction (address v)) /\
  (bindings_pure = true ->
   TYPE_MASK (type s) <> TOK_VARIABLE /\
   (callable_type (type s) = true -> IS_PURE (type s) = true)).

Definition node_ok (n : te_expr D) : bool := forall_nodes (closure_slot_ok vars) n.

Definition tree_good (n : te_expr D) : bool :=
  forall_nodes (fun m => slots_filled m && (negb bindings_pure || pure_or_const m)) n.

(** The outcome of a parse routine entered with heap [h], owning the
    nodes [O] (the tree a loop extends): NULL after a failed [malloc],
    with everything owned freed; or a tree made of owned and fresh nodes,
    complete unless the token is [TOK_ERROR]. *)
Definition post (O : gset nat) (h : heap) (r : option (te_expr D)) (s' : @state D)
    (h' : heap) : Prop :=
  wf_heap h' /\ (hnext h <= hnext h')%nat /\ tok_ok s' /\
  match r with
  | None => live h' = live h ∖ O /\ fails_in h h'
  | Some n =>
      live h' = (live h ∖ O) ∪ ids n /\
      (forall x, x ∈ ids n -> x ∈ O \/ (hnext h <= x < hnext h')%nat) /\
      no_fail h h' /\ node_ok n = true /\
      (type s' = TOK_ERROR \/ tree_good n = true)
  end.

Definition Pfun (m : M (option (te_expr D))) : Prop :=
  forall s h r s' h', wf_heap h -> tok_ok s -> m s h = Some (r, s', h') ->
  post ∅ h r s' h'.

Definition Ploop (m : te_expr D -> M (option (te_expr D))) : Prop :=
  forall ret s h r s' h', wf_heap h -> tok_ok s -> ids ret ⊆ live h ->
  node_ok ret = true -> (type s = TOK_ERROR \/ tree_good ret = true) ->
  m ret s h = Some (r, s', h') -> post (ids ret) h r s' h'.

(** A slot of a call node: empty, or a tree whose closures are right. *)
Definition slot_ok (p : param D) : Prop :=
  match p with PExpr c => node_ok c = true | PNull => True | PPtr _ => False end.
Definition slot_good (p : param D) : Prop :=
  match p with PExpr c => node_ok c = true /\ tree_good c = true | _ => False end.

(** The argument loop of a call node [Expr k t u ps] of [arity >= 2]
    arguments, entered at argument [i]: the arguments before [i] are
    complete trees, the ones from [i] on are empty. *)
Definition args_pre (arity i : nat) (ret : te_expr D) : Prop :=
  match ret with
  | Expr k t u ps =>
      freed_children t = arity /\ Z.to_nat (ARITY t) = arity /\
      (arity <= length ps)%nat /\ (i <= arity)%nat /\
      (forall j, (j < i)%nat -> slot_good (nth j ps PNull)) /\
      (forall j, (i <= j < arity)%nat -> nth j ps PNull = PNull)
  end.

Definition args_post (arity : nat) (ret : te_expr D) (h : heap)
    (r : option (te_expr D * nat)) (s' : @state D) (h' : heap) : Prop :=
  wf_heap h' /\ (hnext h <= hnext h')%nat /\ tok_ok s' /\
  match r with
  | None => live h' = live h ∖ ids ret /\ fails_in h h'
  | Some (ret', i') =>
      match ret, ret' with
      | Expr k t u ps, Expr k' t' u' ps' =>
          k' = k /\ t' = t /\ u' = u /\ length ps' = length ps /\
          (forall j, (arity <= j)%nat -> nth j ps' PNull = nth j ps PNull) /\
          (forall j, (j < arity)%nat -> slot_ok (nth j ps' PNull)) /\
          (type s' = TOK_ERROR \/
           forall j, (j <= i')%nat -> (j < arity)%nat -> slot_good (nth j ps' PNull))
      end /\
      live h' = (live h ∖ ids ret) ∪ ids ret' /\
      (forall x, x ∈ ids ret' -> x ∈ ids ret \/ (hnext h <= x < hnext h')%nat) /\
      no_fail h h'
  end.

Definition Pargs (m : nat -> nat -> te_expr D -> M (option (te_expr D * nat))) : Prop :=
  forall arity i ret s h r s' h', wf_heap h -> tok_ok s -> ids ret ⊆ live h ->
  args_pre arity i ret ->
  m arity i ret s h = Some (r, s', h') -> args_post arity ret h r s' h'.

End Invariants.

(* ------------------------------------------------------------------ *)
(** ** A host over the integers, to run the compiler on examples

    A literal's value is the number its decimal digits spell; the
    arithmetic callees act on [Z]; [NAN] is an out-of-band -999; the
    caller's data address [Data n] holds [n]; [malloc] never fails. *)
Fixpoint digits_value (acc : Z) (s : string) : Z :=
  match s with
  | EmptyString => acc
  | String c t => digits_value (acc * 10 + (code c - 48)) t
  end.

Definition zcall (f : addr) (args : list Z) : Z :=
  match f, args with
  | Code "pow", [a; b] => Z.pow a b
  | Code "negate", [a] => - a
  | Code "add", [a; b] => a + b
  | Code "sub", [a; b] => a - b
  | Code "mul", [a; b] => a * b
  | Code "comma", [_; b] => b
  | _, _ => -777
  end%string.

Global Instance zhost : Host Z := {|
  NAN := -999;
  strtod_value := digits_value 0;
  deref := fun a => match a with Data n => Z.of_nat n | _ => 0 end;
  call := zcall;
  call_closure := fun _ _ _ => -555;
  malloc_fails := fun _ => false
|}.

(** The empty heap. *)
Definition h0 : heap := mk_heap 0 ∅.


(* ------------------------------------------------------------------ *)
(** ** The combinatoric built-ins [fac], [ncr], [npr]

    A [double] is a rational, one of the two infinities or NaN (the
    sign of a zero is not kept).  The conversion of an [unsigned long] to
    [double] and the product of two doubles are rounded to the nearest
    double, ties to even, as IEEE binary64 does.  [unsigned int] and
    [unsigned long] are 32 and 64 bits wide (LP64). *)
Module Combinatorics.

Inductive dbl := Fin (q : Q) | PInf | NInf | NaN.

Definition UINT_MAX : Z := 2 ^ 32 - 1.
Definition ULONG_MAX : Z := 2 ^ 64 - 1.

(** [(double)z] for an [unsigned long] [z]: exact below 2^53; above, [z]
    has [log2 z + 1] bits and is rounded to a multiple of 2^e, e =
    [log2 z - 52], keeping 53 significant bits, a tie going to the even
    multiple. *)
Definition ulong_to_double (z : Z) : Z :=
  if z <? 2 ^ 53 then z
  else
    let e := Z.log2 z - 52 in
    let q := z / 2 ^ e in
    let r := z mod 2 ^ e in
    let half := 2 ^ (e - 1) in
    if (half <? r) || ((r =? half) && Z.odd q) then (q + 1) * 2 ^ e else q * 2 ^ e.

Definition dzero : dbl := Fin 0%Q.
Definition duint_max : dbl := Fin (inject_Z UINT_MAX).

Definition Qlt_bool (x y : Q) : bool := negb (Qle_bool y x).

(** IEEE [<]: false as soon as one side is NaN. *)
Definition dlt (a b : dbl) : bool :=
  match a, b with
  | Fin x, Fin y => Qlt_bool x y
  | NInf, Fin _ | NInf, PInf | Fin _, PInf => true
  | _, _ => false
  end.

Definition dgt (a b : dbl) : bool := dlt b a.

(** The conversion [(unsigned int)(a)] truncates a value of
    [0 <= a <= UINT_MAX]; every other value makes it undefined in C, and
    is taken to 0 here. *)
Definition to_uint (a : dbl) : Z :=
  match a with
  | Fin q => if Qle_bool 0 q then Qfloor q else 0
  | _ => 0
  end.

(** Rounding a rational to binary64, ties to even: [|x|] lies in
    [[2^l, 2^(l+1))]; the result is a multiple of 2^e, e = [max (l - 52)
    (-1074)] (53 significant bits, or a subnormal); a magnitude that
    rounds to 2^1024 or more overflows to an infinity. *)
Definition round_double (x : Q) : dbl :=
  let a := Z.abs (Qnum x) in
  let b := Zpos (Qden x) in
  if a =? 0 then Fin 0%Q
  else
    let m := (inject_Z a / inject_Z b)%Q in
    let l0 := Z.log2 a - Z.log2 b in
    let l := if Qle_bool (Qpower 2 l0) m then l0 else l0 - 1 in
    let e := Z.max (l - 52) (-1074) in
    let y := (m / Qpower 2 e)%Q in
    let fl := Qfloor y in
    let fr := (y - inject_Z fl)%Q in
    let n := if Qlt_bool (1 # 2) fr || (Qeq_bool fr (1 # 2) && Z.odd fl) then fl + 1 else fl in
    let v := (inject_Z n * Qpower 2 e)%Q in
    if Qle_bool (Qpower 2 1024) v then (if Qnum x <? 0 then NInf else PInf)
    else Fin (if Qnum x <? 0 then (- v)%Q else v).

(** IEEE multiplication. *)
Definition dneg (a : dbl) : dbl :=
  match a with PInf => NInf | NInf => PInf | o => o end.

Definition dmul (a b : dbl) : dbl :=
  match a, b with
  | NaN, _ | _, NaN => NaN
  | Fin x, Fin y => round_double (x * y)
  | Fin x, i | i, Fin x =>
      if Qeq_bool x 0 then NaN else if Qlt_bool 0 x then i else dneg i
  | PInf, PInf | NInf, NInf => PInf
  | _, _ => NInf
  end.

(** [for (i = 1; i <= ua; i++) { if (i > ULONG_MAX / result) return
    INFINITY; result *= i; }], [k] counting the iterations left. *)
Fixpoint fac_loop (k : nat) (i result : Z) : dbl :=
  match k with
  | O => Fin (inject_Z (ulong_to_double result))
  | S k' =>
      if i >? ULONG_MAX / result then PInf
      else fac_loop k' (i + 1) (result * i)
  end.

Definition fac (a : dbl) : dbl :=
  if dlt a dzero then NaN
  else if dgt a duint_max then PInf
  else fac_loop (Z.to_nat (to_uint a)) 1 1.

(** Arithmetic on [unsigned long] wraps modulo 2^64. *)
Definition ulong (z : Z) : Z := z mod 2 ^ 64.

(** [for (i = 1; i <= ur; i++) { if (result > ULONG_MAX / (un - ur + i))
    return INFINITY; result *= un - ur + i; result /= i; }] *)
Fixpoint ncr_loop (k : nat) (un ur i result : Z) : dbl :=
  match k with
  | O => Fin (inject_Z (ulong_to_double result))
  | S k' =>
      if result >? ULONG_MAX / ulong (un - ur + i) then PInf
      else ncr_loop k' un ur (i + 1) (result * ulong (un - ur + i) / i)
  end.

Definition ncr (n r : dbl) : dbl :=
  if dlt n dzero || dlt r dzero || dlt n r then NaN
  else if dgt n duint_max || dgt r duint_max then PInf
  else
    let un := to_uint n in
    let ur := to_uint r in
    let ur := if ur >? un / 2 then ulong (un - ur) else ur in
    ncr_loop (Z.to_nat ur) un ur 1 1.

Definition npr (n r : dbl) : dbl := dmul (ncr n r) (fac r).

(** The same loop of [ncr] over unbounded integers, with the products
    [result * (un - ur + i)] that exceed [ULONG_MAX] reported. *)
Fixpoint ncr_products_overflow (k : nat) (un ur i result : Z) : bool :=
  match k with
  | O => false
  | S k' =>
      (ULONG_MAX <? result * (un - ur + i))
      || ncr_products_overflow k' un ur (i + 1) (result * (un - ur + i) / i)
  end.

(** The product [i * (i + 1) * ... * (i + k - 1)]. *)
Fixpoint rising (i : Z) (k : nat) : Z :=
  match k with O => 1 | S k' => i * rising (i + 1) k' end.

(** The binomial coefficient, by Pascal's rule. *)
Fixpoint binom (n k : nat) : nat :=
  match n, k with
  | _, O => 1
  | O, S _ => 0
  | S n', S k' => binom n' k' + binom n' (S k')
  end.

End Combinatorics.

(* ------------------------------------------------------------------ *)
(** ** Auxiliary notions of the proofs *)
Section Proof_notions.
Context {D : Type} `{Host D}.

(** [P] holds of the node in a slot, if there is one. *)
Definition param_P (P : te_expr D -> Prop) (p : param D) : Prop :=
  match p with PExpr c => P c | _ => True end.

(** The body of [te_eval] at a node, given the values of its slots. *)
Definition eval_node (t : Z) (u : uval D) (vs : list D) (ps : list (param D)) : D :=
  let args := map (fun i => nth i vs NAN) (seq 0 (Z.to_nat (ARITY t))) in
  let m := TYPE_MASK t in
  if m =? TE_CONSTANT then union_value u
  else if m =? TE_VARIABLE then deref (union_bound u)
  else if (TE_FUNCTION0 <=? m) && (m <=? TE_FUNCTION7) then call (union_function u) args
  else if (TE_CLOSURE0 <=? m) && (m <=? TE_CLOSURE7) then
    call_closure (union_function u) (nth (Z.to_nat (ARITY t)) ps PNull) args
  else NAN.

(** Every node is a constant or pure, with its child slots filled: the
    trees [optimize] turns into one constant. *)
Definition foldable (n : te_expr D) : bool :=
  forall_nodes (fun m => slots_filled m && pure_or_const m) n.

(** No slot holds a node. *)
Definition no_child (ps : list (param D)) : Prop := forall j c, ps !! j <> Some (PExpr c).

(** The node a call token [t] gets in [base] before its arguments:
    [new_expr(t, 0)], its [function], and for a closure the context in
    slot [a]. *)
Definition prep (t : Z) (u : uval D) (c : addr) (k a : nat) : te_expr D :=
  if IS_CLOSURE t
  then set_param (set_u (Expr k t UZero
         (repeat PNull (Z.to_nat (ARITY t) + (if IS_CLOSURE t then 1 else 0)))) u) a (PPtr c)
  else set_u (Expr k t UZero
         (repeat PNull (Z.to_nat (ARITY t) + (if IS_CLOSURE t then 1 else 0)))) u.

(** The slots of such a node: the argument slots empty, and for a closure
    the context [c] in slot [ARITY(t)]. *)
Definition call_slots (t : Z) (c : addr) (ps : list (param D)) : Prop :=
  (Z.to_nat (ARITY t) <= length ps)%nat /\
  (forall j, (j < Z.to_nat (ARITY t))%nat -> ps !! j = Some PNull) /\ no_child ps /\
  (IS_CLOSURE t = true -> nth (Z.to_nat (ARITY t)) ps PNull = PPtr c).

End Proof_notions.

(** A caller binding to an impure function of no argument. *)
Definition fvars : list te_variable := [mk_var "f" (Code "rand") TE_FUNCTION0 NullPtr].

(** A caller binding to a closure of one argument with context [Data 9]. *)
Definition cvars : list te_variable := [mk_var "c" (Code "cf") TE_CLOSURE1 (Data 9)].


(* ================================================================== *)
(** * Further definitions: lexer classes, tree shapes, [te_interp] *)


Definition lexer_char (c : ascii) : bool :=
  Ascii.eqb c NUL || is_digit c || Ascii.eqb c "." || is_alpha c
  || existsb (Ascii.eqb c) ["+"; "-"; "*"; "/"; "^"; "%"; "("; ")"; ","; " "; "009"; "010"; "013"]%char.

Definition is_space (c : ascii) : bool :=
  Ascii.eqb c " " || Ascii.eqb c "009" || Ascii.eqb c "010" || Ascii.eqb c "013".


(** The kinds of node the parser builds: a constant, a variable, a
    function or a closure ([TYPE_MASK] below 24), at every node. *)
Definition kind_ok (t : Z) : bool := TYPE_MASK t <? 24.

Section Shape_defs.
Context {D : Type} `{Host D}.

Definition kinds_ok (n : te_expr D) : bool := forall_nodes (fun m => kind_ok (node_type m)) n.

(** From [s] to [s']: same input and bindings, the cursor not moved
    back, and kept within the input. *)
Definition cursor_le (s s' : @state D) : Prop :=
  start s' = start s /\ lookup s' = lookup s /\ (next s <= next s')%nat /\
  ((next s <= String.length (start s))%nat -> (next s' <= String.length (start s))%nat).

Definition Sres (r : option (te_expr D)) : Prop :=
  match r with Some n => kinds_ok n = true | None => True end.

Definition node_shape (n : te_expr D) : Prop :=
  kind_ok (node_type n) = true /\
  forall j c, parameters n !! j = Some (PExpr c) -> kinds_ok c = true.

Definition Sfun (m : M (option (te_expr D))) : Prop :=
  forall s h r s' h', m s h = Some (r, s', h') -> cursor_le s s' /\ Sres r.

Definition Sloop (m : te_expr D -> M (option (te_expr D))) : Prop :=
  forall ret s h r s' h', kinds_ok ret = true -> m ret s h = Some (r, s', h') ->
  cursor_le s s' /\ Sres r.

Definition Sargs (m : nat -> nat -> te_expr D -> M (option (te_expr D * nat))) : Prop :=
  forall arity i ret s h r s' h', node_shape ret -> m arity i ret s h = Some (r, s', h') ->
  cursor_le s s' /\ match r with Some (ret', _) => node_shape ret' | None => True end.

End Shape_defs.

Section Opt_defs.
Context {D : Type} `{Host D}.

(** What [optimize] does to the heap: it allocates nothing and frees
    only nodes of the tree it is given, all of those it drops. *)
Definition opt_acct (n : te_expr D) (h : heap) : Prop :=
  let n' := fst (optimize n h) in
  let h' := snd (optimize n h) in
  hnext h' = hnext h /\ live h' ⊆ live h /\ live h ∖ ids n ⊆ live h' /\
  ids n' ⊆ ids n /\ ids n ∖ ids n' ## live h' /\
  (forall_nodes slots_filled n = true -> forall_nodes slots_filled n' = true).

End Opt_defs.

Section Uniq_defs.
Context {D : Type} `{Host D}.

(** No address occurs twice among the nodes [te_free] releases from [n]:
    a node's address is none of its children's, and the children in two
    slots share no address. *)
Fixpoint uniq (n : te_expr D) : Prop :=
  match n with
  | Expr id t _ ps =>
      let k := freed_children t in
      let fix go (i : nat) (ps : list (param D)) : Prop :=
        match ps with
        | [] => True
        | q :: ps' =>
            (if (i <? k)%nat then
               match q with PExpr c => uniq c /\ ids c ## ids_go k (S i) ps' | _ => True end
             else True) /\ go (S i) ps'
        end in
      (id ∉ ids_go k O ps) /\ go O ps
  end.

Definition uniq_go (k : nat) : nat -> list (param D) -> Prop :=
  fix go (i : nat) (ps : list (param D)) : Prop :=
    match ps with
    | [] => True
    | q :: ps' =>
        (if (i <? k)%nat then
           match q with PExpr c => uniq c /\ ids c ## ids_go k (S i) ps' | _ => True end
         else True) /\ go (S i) ps'
    end.

Definition Ures (r : option (te_expr D)) : Prop :=
  match r with Some n => uniq n | None => True end.

Variable vars : list te_variable.

(** The parse routines return trees without a repeated address, from a
    well-formed heap (and, for a loop or the argument loop, from a tree
    without one whose nodes are live). *)
Definition Ufun (m : @M D (option (te_expr D))) : Prop :=
  forall s h r s' h', wf_heap h -> tok_ok vars s -> m s h = Some (r, s', h') -> Ures r.

Definition Uloop (m : te_expr D -> @M D (option (te_expr D))) : Prop :=
  forall ret s h r s' h', wf_heap h -> tok_ok vars s -> ids ret ⊆ live h ->
  node_ok vars ret = true -> (type s = TOK_ERROR \/ tree_good vars ret = true) -> uniq ret ->
  m ret s h = Some (r, s', h') -> Ures r.

Definition Uargs (m : nat -> nat -> te_expr D -> @M D (option (te_expr D * nat))) : Prop :=
  forall arity i ret s h r s' h', wf_heap h -> tok_ok vars s -> ids ret ⊆ live h ->
  args_pre vars arity i ret -> uniq ret ->
  m arity i ret s h = Some (r, s', h') ->
  match r with Some (ret', _) => uniq ret' | None => True end.

End Uniq_defs.

Section Interp.
Context {D : Type} `{Host D}.

(** [te_interp]: compile with no caller bindings, evaluate and free the
    tree; NaN when [te_compile] returns NULL. *)
Definition te_interp (fuel : nat) (expression : string) (h : heap) : option (D * Z * heap) :=
  match te_compile fuel expression [] h with
  | None => None
  | Some (None, err, h') => Some (NAN, err, h')
  | Some (Some n, err, h') => Some (te_eval n, err, te_free n h')
  end.

End Interp.


Definition opt_sample : te_expr Z :=
  Expr 0 BINARY (UFunction (Code "add"))
    [PExpr (Expr 1 TE_CONSTANT (UValue 1) []); PExpr (Expr 2 TE_CONSTANT (UValue 2) [])].


(* ================================================================== *)
(** * Proofs *)

(** ** Characters and C strings *)

Definition cmpZ (c : comparison) : Z := match c with Eq => 0 | Lt => -1 | Gt => 1 end.

Lemma code_nonneg c : 0 <= code c.
Proof. unfold code; lia. Qed.

Lemma code_inj a b : code a = code b -> a = b.
Proof.
  unfold code, nat_of_ascii. intros E.
  assert (N_of_ascii a = N_of_ascii b) as E' by lia.
  rewrite <- (ascii_N_embedding a), <- (ascii_N_embedding b), E'. reflexivity.
Qed.

Lemma code_NUL : code NUL = 0.
Proof. reflexivity. Qed.

Lemma code_pos c : c <> NUL -> 0 < code c.
Proof.
  intros Hc. pose proof (code_nonneg c).
  destruct (Z.eq_dec (code c) 0) as [E|E]; [|lia].
  exfalso. apply Hc, code_inj. rewrite E. reflexivity.
Qed.

Lemma ascii_compare_code a b : Ascii.compare a b = Z.compare (code a) (code b).
Proof.
  unfold Ascii.compare, code, nat_of_ascii. rewrite !N_nat_Z. symmetry. apply N2Z.inj_compare.
Qed.

Lemma string_compare_refl s : String.compare s s = Eq.
Proof.
  induction s as [|c s IH]; simpl; [reflexivity|].
  rewrite ascii_compare_code, Z.compare_refl. exact IH.
Qed.

Lemma char_at_cons_S c s i : char_at (String c s) (S i) = char_at s i.
Proof. reflexivity. Qed.

Lemma strncmp_cons_b a i c b j n :
  strncmp_at a i (String c b) (S j) n = strncmp_at a i b j n.
Proof.
  revert i j. induction n as [|n IH]; intros i j; simpl; [reflexivity|].
  rewrite IH. reflexivity.
Qed.

Lemma substring_0 s i : String.substring i 0 s = EmptyString.
Proof. revert i; induction s as [|c s IH]; intros [|i]; simpl; auto. Qed.

Lemma substring_S s i l :
  char_at s i <> NUL ->
  String.substring i (S l) s = String (char_at s i) (String.substring (S i) l s).
Proof.
  revert i. induction s as [|c s IH]; intros [|i] Hc; unfold char_at in *; simpl in *.
  - congruence.
  - congruence.
  - reflexivity.
  - rewrite IH by exact Hc. reflexivity.
Qed.

(** The sign of the [find_builtin] comparison is the order of the
    identifier and the entry's name. *)
Lemma builtin_cmp_sign input i len b :
  (forall m, (m < len)%nat -> char_at input (i + m) <> NUL) -> nul_free b = true ->
  Z.sgn (let c := strncmp_at input i b 0 len in
         if c =? 0 then 0 - code (char_at b len) else c)
  = cmpZ (String.compare (String.substring i len input) b).
Proof.
  revert i b. induction len as [|l IH]; intros i b Hin Hb.
  - rewrite substring_0. simpl. destruct b as [|cb b]; [reflexivity|].
    simpl in Hb. apply andb_true_iff in Hb as [Hc _].
    apply negb_true_iff, Ascii.eqb_neq in Hc.
    pose proof (code_pos cb Hc). unfold char_at; simpl.
    destruct (code cb) eqn:E; simpl; lia.
  - assert (Hi : char_at input i <> NUL).
    { replace i with (i + 0)%nat by lia. apply Hin. lia. }
    rewrite substring_S by exact Hi. cbn [strncmp_at].
    destruct b as [|cb b].
    + assert (Hne : Ascii.eqb (char_at input i) (char_at "" 0) = false).
      { apply Ascii.eqb_neq. exact Hi. }
      rewrite Hne. pose proof (code_pos _ Hi).
      change (code (char_at "" 0)) with 0. simpl.
      destruct (code (char_at input i) - 0) eqn:E; simpl; lia.
    + simpl in Hb. apply andb_true_iff in Hb as [Hc Hb].
      apply negb_true_iff, Ascii.eqb_neq in Hc.
      change (char_at (String cb b) 0) with cb.
      rewrite char_at_cons_S, strncmp_cons_b.
      cbn [String.compare]. rewrite ascii_compare_code.
      destruct (Ascii.eqb_spec (char_at input i) cb) as [E|E].
      * rewrite E, Z.compare_refl, (proj2 (Ascii.eqb_neq cb NUL) Hc).
        subst cb. apply IH; [|exact Hb].
        intros m Hm. replace (S i + m)%nat with (i + S m)%nat by lia. apply Hin. lia.
      * assert (code (char_at input i) <> code cb) as Ec
          by (intros Ec; apply E, code_inj, Ec).
        destruct (Z.compare_spec (code (char_at input i)) (code cb));
          [lia| |]; destruct (code (char_at input i) - code cb) eqn:F; simpl; lia.
Qed.

Lemma get_past s n : (String.length s <= n)%nat -> String.get n s = None.
Proof.
  revert n. induction s as [|c s IH]; intros [|n] Hn; simpl in *; auto; try lia.
  apply IH. lia.
Qed.

Lemma char_at_suffix s i m : char_at (suffix s i) m = char_at s (i + m).
Proof.
  unfold char_at, suffix.
  destruct (Nat.lt_ge_cases m (String.length s - i)).
  - rewrite String.substring_correct1 by lia. rewrite Nat.add_comm. reflexivity.
  - rewrite String.substring_correct2 by lia. rewrite get_past by lia. reflexivity.
Qed.

Lemma count_while_spec p s m : (m < count_while p s)%nat -> p (char_at s m) = true.
Proof.
  revert m. induction s as [|c s IH]; intros m Hm; simpl in Hm; [lia|].
  destruct (p c) eqn:Hc; [|lia].
  destruct m as [|m]; [exact Hc|]. apply IH. lia.
Qed.

(** The characters of an identifier are not NUL. *)
Lemma ident_chars input i m : (m < ident_len input i)%nat -> char_at input (i + m) <> NUL.
Proof.
  intros Hm Hc. pose proof (count_while_spec is_ident_char _ _ Hm) as Hp.
  rewrite char_at_suffix, Hc in Hp. discriminate.
Qed.

Lemma length_substring_chars input i len :
  (forall m, (m < len)%nat -> char_at input (i + m) <> NUL) ->
  String.length (String.substring i len input) = len.
Proof.
  revert i. induction len as [|l IH]; intros i Hin; [rewrite substring_0; reflexivity|].
  rewrite substring_S.
  - simpl. f_equal. apply IH. intros m Hm.
    replace (S i + m)%nat with (i + S m)%nat by lia. apply Hin. lia.
  - replace i with (i + 0)%nat at 1 by lia. apply Hin. lia.
Qed.

(** The test of [find_lookup] on one binding is exact name equality. *)
Lemma lookup_cond input i len v :
  (forall m, (m < len)%nat -> char_at input (i + m) <> NUL) ->
  nul_free (var_name v) = true ->
  (strncmp_at input i (var_name v) 0 len =? 0) && Ascii.eqb (char_at (var_name v) len) NUL
  = String.eqb (var_name v) (String.substring i len input).
Proof.
  intros Hin Hv. pose proof (builtin_cmp_sign input i len (var_name v) Hin Hv) as Sg.
  cbv zeta in Sg.
  destruct (String.eqb_spec (var_name v) (String.substring i len input)) as [E|E].
  - rewrite <- E, string_compare_refl in Sg. simpl in Sg.
    destruct (strncmp_at input i (var_name v) 0 len =? 0) eqn:Z0.
    + simpl. apply Ascii.eqb_eq. apply code_inj. rewrite code_NUL.
      apply (proj1 (Z.sgn_null_iff _)) in Sg. lia.
    + apply (proj1 (Z.sgn_null_iff _)) in Sg. apply Z.eqb_neq in Z0. contradiction.
  - destruct (strncmp_at input i (var_name v) 0 len =? 0) eqn:Z0; [|reflexivity].
    destruct (Ascii.eqb_spec (char_at (var_name v) len) NUL) as [C|C]; [|reflexivity].
    exfalso. rewrite C, code_NUL in Sg. simpl in Sg.
    destruct (String.compare (String.substring i len input) (var_name v)) eqn:Cmp;
      try discriminate.
    apply String.compare_eq_iff in Cmp. auto.
Qed.

Lemma find_lookup_first vars input i len :
  (forall m, (m < len)%nat -> char_at input (i + m) <> NUL) ->
  forallb (fun v => nul_free (var_name v)) vars = true ->
  find_lookup vars input i len = first_binding vars (String.substring i len input).
Proof.
  intros Hin. unfold first_binding. induction vars as [|v vars IH]; simpl; [reflexivity|].
  intros Hall. apply andb_true_iff in Hall as [Hv Hr].
  rewrite lookup_cond by assumption. destruct String.eqb; [reflexivity|]. apply IH, Hr.
Qed.

Lemma find_lookup_some vars input i len v :
  find_lookup vars input i len = Some v ->
  In v vars /\
  strncmp_at input i (var_name v) 0 len = 0 /\ char_at (var_name v) len = NUL.
Proof.
  induction vars as [|w vars IH]; simpl; [discriminate|].
  destruct ((strncmp_at input i (var_name w) 0 len =? 0)
            && Ascii.eqb (char_at (var_name w) len) NUL) eqn:C.
  - intros [= <-]. apply andb_true_iff in C as [C1 C2].
    apply Z.eqb_eq in C1. apply Ascii.eqb_eq in C2. auto.
  - intros Hf. destruct (IH Hf) as (? & ? & ?). auto.
Qed.

(** ** The built-in table is sorted: binary search finds exact names *)

Definition name_at (j : nat) : string := var_name (nth j functions sentinel).

Definition table_sorted_check : bool :=
  forallb (fun a => forallb (fun b =>
    if (a <? b)%nat then
      match String.compare (name_at a) (name_at b) with Lt => true | _ => false end
    else true) (seq 0 24)) (seq 0 24).

Lemma table_sorted a b : (a < b < 24)%nat -> String.compare (name_at a) (name_at b) = Lt.
Proof.
  intros Hab. assert (Hc : table_sorted_check = true) by (vm_compute; reflexivity).
  unfold table_sorted_check in Hc. rewrite forallb_forall in Hc.
  specialize (Hc a (proj2 (in_seq 24 0 a) ltac:(lia))).
  rewrite forallb_forall in Hc. specialize (Hc b (proj2 (in_seq 24 0 b) ltac:(lia))).
  rewrite (proj2 (Nat.ltb_lt a b)) in Hc by lia.
  destruct (String.compare (name_at a) (name_at b)); congruence.
Qed.

Lemma table_nul_free j : (j < 24)%nat -> nul_free (name_at j) = true.
Proof.
  intros Hj. assert (Hc : forallb (fun j => nul_free (name_at j)) (seq 0 24) = true)
    by (vm_compute; reflexivity).
  rewrite forallb_forall in Hc. apply Hc, in_seq. lia.
Qed.

Lemma string_compare_trans_lt a b c :
  String.compare a b = Lt -> String.compare b c = Lt -> String.compare a c = Lt.
Proof.
  revert b c. induction a as [|x a IH]; intros [|y b] [|z c]; simpl; try congruence.
  rewrite !ascii_compare_code.
  destruct (Z.compare_spec (code x) (code y)) as [E1|E1|E1];
  destruct (Z.compare_spec (code y) (code z)) as [E2|E2|E2]; try congruence;
  intros H1 H2.
  - rewrite E1, E2, Z.compare_refl. eauto.
  - rewrite E1. rewrite (proj2 (Z.compare_lt_iff _ _) E2). reflexivity.
  - rewrite <- E2. rewrite (proj2 (Z.compare_lt_iff _ _) E1). reflexivity.
  - rewrite (proj2 (Z.compare_lt_iff (code x) (code z))) by lia. reflexivity.
Qed.

Lemma string_compare_gt_lt a b : String.compare a b = Gt -> String.compare b a = Lt.
Proof. intros E. rewrite String.compare_antisym, E. reflexivity. Qed.

Lemma string_compare_lt_gt a b : String.compare a b = Lt -> String.compare b a = Gt.
Proof. intros E. rewrite String.compare_antisym, E. reflexivity. Qed.

Lemma nth_functions_entries j : (j < 24)%nat ->
  nth j functions sentinel = nth j builtin_entries sentinel.
Proof.
  intros Hj. unfold builtin_entries. rewrite nth_firstn.
  rewrite (proj2 (Nat.ltb_lt j 24)) by exact Hj. reflexivity.
Qed.

Lemma first_binding_entry j : (j < 24)%nat ->
  first_binding builtin_entries (name_at j) = Some (nth j functions sentinel).
Proof.
  intros Hj. do 24 (destruct j as [|j]; [reflexivity|]). lia.
Qed.

Lemma first_binding_none vars k :
  (forall v, In v vars -> var_name v <> k) -> first_binding vars k = None.
Proof.
  unfold first_binding. induction vars as [|v vars IH]; intros Hn; simpl; [reflexivity|].
  destruct (String.eqb_spec (var_name v) k) as [E|E].
  - exfalso. apply (Hn v); [left; reflexivity | exact E].
  - apply IH. intros w Hw. apply Hn. right. exact Hw.
Qed.

Lemma first_binding_entries_none k :
  (forall j, (j < 24)%nat -> name_at j <> k) -> first_binding builtin_entries k = None.
Proof.
  intros Hn. apply first_binding_none. intros v Hv.
  destruct (In_nth builtin_entries v sentinel Hv) as (j & Hj & <-).
  assert (length builtin_entries = 24%nat) as L by reflexivity.
  rewrite L in Hj. rewrite <- nth_functions_entries by exact Hj. apply Hn, Hj.
Qed.

(** The [while (imax >= imin)] loop finds the entry named [k] when the
    entries below [imin] are smaller than [k], those above [imax] larger,
    and the fuel exceeds the size of the range. *)
Lemma find_builtin_loop_correct input i len fuel imin imax :
  (forall m, (m < len)%nat -> char_at input (i + m) <> NUL) ->
  let k := String.substring i len input in
  0 <= imin -> imax <= 23 -> Z.max 0 (imax - imin + 1) < Z.of_nat fuel ->
  (forall j, (Z.of_nat j < imin) -> String.compare k (name_at j) = Gt) ->
  (forall j, imax < Z.of_nat j -> (j < 24)%nat -> String.compare k (name_at j) = Lt) ->
  find_builtin_loop fuel input i len imin imax = first_binding builtin_entries k.
Proof.
  intros Hin k. revert imin imax.
  induction fuel as [|f IH]; intros imin imax H0 H23 Hf Hlo Hhi; [lia|].
  cbn [find_builtin_loop]. destruct (imax >=? imin) eqn:Hge.
  - apply Z.geb_le in Hge.
    set (mid := imin + (imax - imin) / 2).
    assert (imin <= mid <= imax) as Hmid.
    { unfold mid. split; [pose proof (Z.div_pos (imax - imin) 2); lia|].
      pose proof (Z.div_le_upper_bound (imax - imin) 2 (imax - imin)). lia. }
    assert (Hm24 : (Z.to_nat mid < 24)%nat) by lia.
    pose proof (builtin_cmp_sign input i len (name_at (Z.to_nat mid)) Hin
                  (table_nul_free _ Hm24)) as Sg.
    assert (Sg' : Z.sgn (builtin_cmp input i len (nth (Z.to_nat mid) functions sentinel))
                  = cmpZ (String.compare k (name_at (Z.to_nat mid)))) by exact Sg.
    clear Sg. rename Sg' into Sg.
    destruct (String.compare k (name_at (Z.to_nat mid))) eqn:Cmp; cbn [cmpZ] in Sg.
    + apply (proj1 (Z.sgn_null_iff _)) in Sg. rewrite Sg. simpl.
      apply String.compare_eq_iff in Cmp. rewrite Cmp.
      symmetry. apply first_binding_entry, Hm24.
    + assert (builtin_cmp input i len (nth (Z.to_nat mid) functions sentinel) < 0)
        as Hneg by (apply Z.sgn_neg_iff; exact Sg).
      rewrite (proj2 (Z.eqb_neq _ 0)) by lia.
      rewrite Z.gtb_ltb, (proj2 (Z.ltb_ge 0 _)) by lia.
      apply IH; try lia.
      * exact Hlo.
      * intros j Hj Hj24.
        destruct (Nat.eq_dec j (Z.to_nat mid)) as [->|Hne]; [exact Cmp|].
        apply (string_compare_trans_lt _ (name_at (Z.to_nat mid))); [exact Cmp|].
        apply table_sorted. lia.
    + assert (0 < builtin_cmp input i len (nth (Z.to_nat mid) functions sentinel))
        as Hpos by (apply Z.sgn_pos_iff; exact Sg).
      rewrite (proj2 (Z.eqb_neq _ 0)) by lia.
      rewrite Z.gtb_ltb, (proj2 (Z.ltb_lt 0 _)) by lia.
      apply IH; try lia.
      * intros j Hj.
        destruct (Nat.eq_dec j (Z.to_nat mid)) as [->|Hne]; [exact Cmp|].
        destruct (Z.lt_ge_cases (Z.of_nat j) imin) as [Hl|Hl]; [apply Hlo, Hl|].
        apply string_compare_lt_gt.
        apply string_compare_gt_lt in Cmp.
        apply (string_compare_trans_lt _ (name_at (Z.to_nat mid))); [|exact Cmp].
        apply table_sorted. lia.
      * exact Hhi.
  - rewrite Z.geb_leb, Z.leb_gt in Hge. symmetry. apply first_binding_entries_none.
    intros j Hj E.
    destruct (Z.lt_ge_cases (Z.of_nat j) imin) as [Hl|Hl].
    + specialize (Hlo j Hl). rewrite <- E, string_compare_refl in Hlo. discriminate.
    + specialize (Hhi j ltac:(lia) Hj). rewrite <- E, string_compare_refl in Hhi.
      discriminate.
Qed.

Lemma find_builtin_first input i len :
  (forall m, (m < len)%nat -> char_at input (i + m) <> NUL) ->
  find_builtin input i len = first_binding builtin_entries (String.substring i len input).
Proof.
  intros Hin. unfold find_builtin.
  apply find_builtin_loop_correct; [exact Hin| cbn; lia .. | |].
  - intros j Hj. lia.
  - intros j Hj Hj24. cbn in Hj. lia.
Qed.

Lemma first_binding_some vars k v :
  first_binding vars k = Some v -> var_name v = k /\ In v vars.
Proof.
  unfold first_binding. intros Hf. apply find_some in Hf as [Hin He].
  apply String.eqb_eq in He. auto.
Qed.

Lemma substring_chars input i len m :
  (m < len)%nat -> (forall m, (m < len)%nat -> char_at input (i + m) <> NUL) ->
  char_at (String.substring i len input) m = char_at input (i + m).
Proof.
  intros Hm Hin. unfold char_at.
  rewrite String.substring_correct1 by exact Hm. rewrite Nat.add_comm. reflexivity.
Qed.

Lemma alpha_branch c :
  is_alpha c = true ->
  Ascii.eqb c NUL = false /\ (is_digit c || Ascii.eqb c ".") = false.
Proof.
  intros Ha. split.
  - apply Ascii.eqb_neq. intros ->. discriminate.
  - apply orb_false_iff. split.
    + unfold is_alpha in Ha. unfold is_digit.
      apply orb_true_iff in Ha as [Ha|Ha]; apply andb_true_iff in Ha as [A1 A2];
        apply Z.leb_le in A1; apply Z.leb_le in A2;
        apply andb_false_iff; right; apply Z.leb_gt; lia.
    + apply Ascii.eqb_neq. intros ->. discriminate.
Qed.

(** C10. [find_lookup] accepts a caller binding only when the binding's
    name agrees with the identifier on its [len] characters and has
    exactly [len] characters.  Hence an identifier "sin" never selects a
    binding named "sinh", and an identifier "sinh" never selects a binding
    named "sin". *)
Theorem find_lookup_exact_name :
  (forall vars input i len v,
     (forall m, (m < len)%nat -> char_at input (i + m) <> NUL) ->
     nul_free (var_name v) = true ->
     find_lookup vars input i len = Some v ->
     (forall m, (m < len)%nat -> char_at (var_name v) m = char_at input (i + m)) /\
     String.length (var_name v) = len) /\
  (forall input i a t c, ident input i = "sin"%string ->
     find_lookup [mk_var "sinh" a t c] input i (ident_len input i) = None) /\
  (forall input i a t c, ident input i = "sinh"%string ->
     find_lookup [mk_var "sin" a t c] input i (ident_len input i) = None).
Proof.
  assert (Gen : forall vars input i len v,
     (forall m, (m < len)%nat -> char_at input (i + m) <> NUL) ->
     nul_free (var_name v) = true ->
     find_lookup vars input i len = Some v ->
     var_name v = String.substring i len input).
  { intros vars input i len v Hin Hv Hf.
    destruct (find_lookup_some _ _ _ _ _ Hf) as (_ & C1 & C2).
    apply String.eqb_eq. rewrite <- lookup_cond by assumption.
    rewrite C1, C2. reflexivity. }
  split; [|split].
  - intros vars input i len v Hin Hv Hf. pose proof (Gen _ _ _ _ _ Hin Hv Hf) as E.
    rewrite E. split.
    + intros m Hm. apply substring_chars; assumption.
    + apply length_substring_chars, Hin.
  - intros input i a t c Hid. destruct (find_lookup _ _ _ _) as [v|] eqn:Hf; [|reflexivity].
    pose proof Hf as Hf'. apply find_lookup_some in Hf' as ([<-|[]] & _).
    apply Gen in Hf; [|apply ident_chars|reflexivity].
    unfold ident in Hid. rewrite <- Hf in Hid. discriminate.
  - intros input i a t c Hid. destruct (find_lookup _ _ _ _) as [v|] eqn:Hf; [|reflexivity].
    pose proof Hf as Hf'. apply find_lookup_some in Hf' as ([<-|[]] & _).
    apply Gen in Hf; [|apply ident_chars|reflexivity].
    unfold ident in Hid. rewrite <- Hf in Hid. discriminate.
Qed.

Lemma find_lookup_exact_name_witness :
  ((forall m, (m < 4)%nat -> char_at "sinh(x)"%string (0 + m) <> NUL) /\
   nul_free "sinh"%string = true /\
   find_lookup [mk_var "sin"%string (Data 1) 0 NullPtr; mk_var "sinh"%string (Data 2) 0 NullPtr]
               "sinh(x)"%string 0 4 = Some (mk_var "sinh"%string (Data 2) 0 NullPtr)) /\
  String.length "sinh"%string = 4%nat.
Proof.
  assert (Hin : forall m, (m < 4)%nat -> char_at "sinh(x)"%string (0 + m) <> NUL).
  { intros m Hm. do 4 (destruct m as [|m]; [discriminate|]). lia. }
  split; [split; [exact Hin | split; reflexivity]|].
  exact (proj2 (proj1 find_lookup_exact_name
           [mk_var "sin"%string (Data 1) 0 NullPtr; mk_var "sinh"%string (Data 2) 0 NullPtr]
           "sinh(x)"%string 0%nat 4%nat (mk_var "sinh"%string (Data 2) 0 NullPtr) Hin eq_refl eq_refl)).
Defined.

(** C6. Over the sorted table, [find_builtin] on an identifier of [len]
    characters returns the entry whose name is the identifier exactly (the
    binary search compares [len] characters and then requires the entry's
    name to end there), and nothing when no name is the identifier; so
    "sin"%string finds the entry "sin"%string, never "sinh"%string. *)
Theorem find_builtin_exact_name :
  (forall input i len,
     (forall m, (m < len)%nat -> char_at input (i + m) <> NUL) ->
     find_builtin input i len
     = first_binding builtin_entries (String.substring i len input)) /\
  (forall input i e,
     find_builtin input i (ident_len input i) = Some e -> var_name e = ident input i) /\
  (forall input i, ident input i = "sin"%string ->
     find_builtin input i (ident_len input i) = Some (builtin "sin"%string "sin"%string 1)) /\
  (forall input i, ident input i = "sinh"%string ->
     find_builtin input i (ident_len input i) = Some (builtin "sinh"%string "sinh"%string 1)).
Proof.
  split; [|split; [|split]].
  - exact find_builtin_first.
  - intros input i e Hf. rewrite find_builtin_first in Hf by apply ident_chars.
    apply first_binding_some in Hf as [E _]. exact E.
  - intros input i Hid. rewrite find_builtin_first by apply ident_chars.
    fold (ident input i). rewrite Hid. reflexivity.
  - intros input i Hid. rewrite find_builtin_first by apply ident_chars.
    fold (ident input i). rewrite Hid. reflexivity.
Qed.

Lemma find_builtin_exact_name_witness :
  (forall m, (m < 3)%nat -> char_at "sin(x)"%string (0 + m) <> NUL) /\
  find_builtin "sin(x)"%string 0 3 = Some (builtin "sin"%string "sin"%string 1).
Proof.
  assert (Hin : forall m, (m < 3)%nat -> char_at "sin(x)"%string (0 + m) <> NUL).
  { intros m Hm. do 3 (destruct m as [|m]; [discriminate|]). lia. }
  split; [exact Hin|].
  rewrite (proj1 find_builtin_exact_name "sin(x)"%string 0%nat 3%nat Hin). reflexivity.
Defined.

(** Under a [malloc] that never fails, the oracle is the constant
    function, so a run of the parser reduces by computation. *)
Ltac host_malloc_ok Hm :=
  match type of Hm with
  | forall k, @malloc_fails _ ?Hs k = false =>
      let nan := fresh "nan" in let sv := fresh "sv" in let dr := fresh "dr" in
      let cl := fresh "cl" in let cc := fresh "cc" in let mf := fresh "mf" in
      destruct Hs as [nan sv dr cl cc mf]; cbn [malloc_fails] in Hm;
      assert (mf = fun _ => false) as -> by (apply functional_extensionality; exact Hm)
  end.

Lemma next_token_step_ident {D} `{Host D} (s : @state D) :
  is_alpha (cur s) = true ->
  forallb (fun v => nul_free (var_name v)) (lookup s) = true ->
  next_token_step s =
    let s1 := set_next s (next s + ident_len (start s) (next s)) in
    match first_binding (lookup s) (ident (start s) (next s)) with
    | Some v => resolved_token s1 v
    | None =>
        match first_binding builtin_entries (ident (start s) (next s)) with
        | Some v => resolved_token s1 v
        | None => set_type s1 TOK_ERROR
        end
    end.
Proof.
  intros Ha Hn. destruct (alpha_branch _ Ha) as [A1 A2].
  unfold next_token_step. rewrite A1, A2, Ha.
  fold (ident_len (start s) (next s)).
  rewrite find_lookup_first, find_builtin_first by (apply ident_chars || exact Hn).
  fold (ident (start s) (next s)). cbv zeta.
  destruct (first_binding (lookup s) (ident (start s) (next s))); reflexivity.
Qed.




(** ** One step of each parse routine *)

Section Unfold.
Context {D : Type} `{Host D}.

Local Notation "x <- m ;; k" := (bindM m (fun x => k))
  (at level 100, m at next level, right associativity).
Local Notation "m ;;; k" := (bindM m (fun _ => k)) (at level 100, right associativity).

Lemma parse_list_S f :
  parse_list (S f) =
   (r <- expr f ;;
    match r with None => returnM None | Some ret => list_loop f ret end).
Proof. reflexivity. Qed.

Lemma list_loop_S f ret :
  list_loop (S f) ret =
   (s <- get_state ;;
    if type s =? TOK_SEP then
      next_token_m ;;;
      e <- expr f ;;
      r <- fold_step ret (UFunction (Code "comma")) e ;;
      match r with None => returnM None | Some ret' => list_loop f ret' end
    else returnM (Some ret)).
Proof. reflexivity. Qed.

Lemma expr_S f :
  expr (S f) =
   (r <- term f ;;
    match r with None => returnM None | Some ret => expr_loop f ret end).
Proof. reflexivity. Qed.

Lemma expr_loop_S f ret :
  expr_loop (S f) ret =
   (s <- get_state ;;
    if (type s =? TOK_INFIX)
       && (function_is s (Code "add") || function_is s (Code "sub")) then
      let t := su s in
      next_token_m ;;;
      te <- term f ;;
      r <- fold_step ret t te ;;
      match r with None => returnM None | Some ret' => expr_loop f ret' end
    else returnM (Some ret)).
Proof. reflexivity. Qed.

Lemma term_S f :
  term (S f) =
   (r <- factor f ;;
    match r with None => returnM None | Some ret => term_loop f ret end).
Proof. reflexivity. Qed.

Lemma term_loop_S f ret :
  term_loop (S f) ret =
   (s <- get_state ;;
    if (type s =? TOK_INFIX)
       && (function_is s (Code "mul") || function_is s (Code "divide")
           || function_is s (Code "fmod")) then
      let t := su s in
      next_token_m ;;;
      fa <- factor f ;;
      r <- fold_step ret t fa ;;
      match r with None => returnM None | Some ret' => term_loop f ret' end
    else returnM (Some ret)).
Proof. reflexivity. Qed.

Lemma factor_S f :
  factor (S f) =
   (r <- power f ;;
    match r with None => returnM None | Some ret => factor_loop f ret end).
Proof. reflexivity. Qed.

Lemma factor_loop_S f ret :
  factor_loop (S f) ret =
   (s <- get_state ;;
    if (type s =? TOK_INFIX) && function_is s (Code "pow") then
      let t := su s in
      next_token_m ;;;
      p <- power f ;;
      r <- fold_step ret t p ;;
      match r with None => returnM None | Some ret' => factor_loop f ret' end
    else returnM (Some ret)).
Proof. reflexivity. Qed.

Lemma power_S f :
  power (S f) =
   (sign <- power_signs f 1 ;;
    if sign =? 1 then base f
    else
      b <- base f ;;
      match b with
      | None => returnM None
      | Some b =>
          r <- new_expr UNARY (Some [PExpr b]) ;;
          match r with
          | None => free_m b ;;; returnM None
          | Some ret => returnM (Some (set_u ret (UFunction (Code "negate"))))
          end
      end).
Proof. reflexivity. Qed.

Lemma base_S f :
  base (S f) =
   (s <- get_state ;;
    let m := TYPE_MASK (type s) in
    if m =? TOK_NUMBER then
      r <- new_expr TE_CONSTANT None ;;
      match r with
      | None => returnM None
      | Some ret => next_token_m ;;; returnM (Some (set_u ret (su s)))
      end
    else if m =? TOK_VARIABLE then
      r <- new_expr TE_VARIABLE None ;;
      match r with
      | None => returnM None
      | Some ret => next_token_m ;;; returnM (Some (set_u ret (su s)))
      end
    else if (m =? TE_FUNCTION0) || (m =? TE_CLOSURE0) then
      r <- new_expr (type s) None ;;
      match r with
      | None => returnM None
      | Some ret =>
          let ret := set_u ret (su s) in
          let ret := if IS_CLOSURE (type s) then set_param ret 0 (PPtr (context s))
                     else ret in
          next_token_m ;;;
          s1 <- get_state ;;
          if type s1 =? TOK_OPEN then
            next_token_m ;;;
            s2 <- get_state ;;
            if negb (type s2 =? TOK_CLOSE) then set_type_m TOK_ERROR ;;; returnM (Some ret)
            else next_token_m ;;; returnM (Some ret)
          else returnM (Some ret)
      end
    else if (m =? TE_FUNCTION1) || (m =? TE_CLOSURE1) then
      r <- new_expr (type s) None ;;
      match r with
      | None => returnM None
      | Some ret =>
          let ret := set_u ret (su s) in
          let ret := if IS_CLOSURE (type s) then set_param ret 1 (PPtr (context s))
                     else ret in
          next_token_m ;;;
          p <- power f ;;
          match p with
          | None => free_m ret ;;; returnM None
          | Some p => returnM (Some (set_param ret 0 (PExpr p)))
          end
      end
    else if ((TE_FUNCTION2 <=? m) && (m <=? TE_FUNCTION7))
            || ((TE_CLOSURE2 <=? m) && (m <=? TE_CLOSURE7)) then
      let arity := Z.to_nat (ARITY (type s)) in
      r <- new_expr (type s) None ;;
      match r with
      | None => returnM None
      | Some ret =>
          let ret := set_u ret (su s) in
          let ret := if IS_CLOSURE (type s) then set_param ret arity (PPtr (context s))
                     else ret in
          next_token_m ;;;
          s1 <- get_state ;;
          if negb (type s1 =? TOK_OPEN) then set_type_m TOK_ERROR ;;; returnM (Some ret)
          else
            a <- base_args f arity O ret ;;
            match a with
            | None => returnM None
            | Some (ret, i) =>
                s2 <- get_state ;;
                if negb (type s2 =? TOK_CLOSE) || negb (i =? arity - 1)%nat then
                  set_type_m TOK_ERROR ;;; returnM (Some ret)
                else next_token_m ;;; returnM (Some ret)
            end
      end
    else if m =? TOK_OPEN then
      next_token_m ;;;
      r <- parse_list f ;;
      match r with
      | None => returnM None
      | Some ret =>
          s1 <- get_state ;;
          if negb (type s1 =? TOK_CLOSE) then set_type_m TOK_ERROR ;;; returnM (Some ret)
          else next_token_m ;;; returnM (Some ret)
      end
    else
      r <- new_expr 0 None ;;
      match r with
      | None => returnM None
      | Some ret => set_type_m TOK_ERROR ;;; returnM (Some (set_u ret (UValue NAN)))
      end).
Proof. reflexivity. Qed.

Lemma base_args_S f arity i ret :
  base_args (S f) arity i ret =
   (if (i <? arity)%nat then
      next_token_m ;;;
      p <- expr f ;;
      match p with
      | None => free_m ret ;;; returnM None
      | Some p =>
          let ret := set_param ret i (PExpr p) in
          s <- get_state ;;
          if negb (type s =? TOK_SEP) then returnM (Some (ret, i))
          else base_args f arity (S i) ret
      end
    else returnM (Some (ret, i))).
Proof. reflexivity. Qed.

End Unfold.

(** ** Sign runs of [power] *)

Lemma function_is_add_sub {D} `{Host D} (s : @state D) :
  function_is s (Code "add") = true -> function_is s (Code "sub") = false.
Proof.
  unfold function_is. destruct (su s); try discriminate.
  intros Ha. apply bool_decide_eq_true in Ha. subst. reflexivity.
Qed.

Lemma power_signs_run {D} `{Host D} f sign (s : @state D) h r s0 h1 :
  power_signs f sign s h = Some (r, s0, h1) ->
  h1 = h /\ exists n, sign_run s n s0 /\ r = (if Nat.even n then sign else - sign).
Proof.
  revert sign s. induction f as [|f IH]; intros sign s; [discriminate|].
  cbn [power_signs]. unfold bindM, get_state, next_token_m, returnM.
  destruct ((type s =? TOK_INFIX) && (function_is s (Code "add") || function_is s (Code "sub")))
    eqn:C.
  - apply andb_true_iff in C as [Ct Cf]. apply Z.eqb_eq in Ct.
    destruct (function_is s (Code "sub")) eqn:Sb.
    + intros Hp. destruct (IH _ _ Hp) as [-> (n & Hr & ->)].
      split; [reflexivity|]. exists (S n). split; [apply sign_run_minus; auto|].
      rewrite Nat.even_succ, <- Nat.negb_even. destruct (Nat.even n); simpl; lia.
    + rewrite orb_false_r in Cf.
      intros Hp. destruct (IH _ _ Hp) as [-> (n & Hr & ->)].
      split; [reflexivity|]. exists n. split; [apply sign_run_plus; auto|reflexivity].
  - intros [= <- <- <-]. split; [reflexivity|]. exists O.
    split; [apply sign_run_done, C|reflexivity].
Qed.

(** ** Running the parser on small inputs *)

Lemma next_token_foo {D} `{Host D} vars :
  first_binding vars "foo"%string = None ->
  forallb (fun v => nul_free (var_name v)) vars = true ->
  next_token (mk_state "foo(1)" O TOK_NULL UZero NullPtr vars)
  = mk_state "foo(1)" 3 TOK_ERROR UZero NullPtr vars.
Proof.
  intros Hf Hn. unfold next_token. cbn [next_token_loop start next].
  rewrite next_token_step_ident by (reflexivity || exact Hn).
  change (ident (start (set_type (mk_state "foo(1)" 0 TOK_NULL UZero NullPtr vars) TOK_NULL))
                (next (set_type (mk_state "foo(1)" 0 TOK_NULL UZero NullPtr vars) TOK_NULL)))
    with "foo"%string.
  cbn [lookup set_type]. rewrite Hf. reflexivity.
Qed.

(** C8 (corrected).  Compiling "foo(1)", where "foo" names no caller
    binding and no built-in, fails, but the reported position is not 1:
    the identifier token is an error token that ends after "foo", [base]
    turns it into an error node, and [te_compile] reports the cursor, 3
    (or -1 when the [malloc] of that error node fails). *)
Theorem unknown_function_error_position {D} `{Host D} vars h :
  first_binding vars "foo"%string = None ->
  forallb (fun v => nul_free (var_name v)) vars = true ->
  exists h', te_compile 10 "foo(1)" vars h
             = Some (None, (if malloc_fails (hnext h) then -1 else 3), h').
Proof.
  intros Hf Hn. unfold te_compile. rewrite (next_token_foo vars Hf Hn).
  destruct H as [nan sv dr cl cc mf]. cbn [malloc_fails].
  match goal with |- exists h', ?X = _ =>
    let Y := eval lazy head in X in change X with Y end.
  destruct (mf (hnext h)); eexists; reflexivity.
Qed.

Lemma unknown_function_error_position_witness :
  first_binding [] "foo"%string = None /\
  exists h', te_compile 10 "foo(1)" [] h0 = Some (None, 3, h').
Proof.
  split; [reflexivity|].
  exact (@unknown_function_error_position Z zhost [] h0 eq_refl eq_refl).
Defined.

(** The claim as stated fails on the empty binding list. *)
Lemma unknown_function_error_position_counterexample :
  ~ (exists h', te_compile 10 "foo(1)" [] h0 = Some (None, 1, h')).
Proof. intros [h' E]. vm_compute in E. discriminate. Qed.

(** C3. [factor] is a left fold of [power]s joined by '^', and a leading
    sign belongs to the [power], so binds tighter than '^': over any
    doubles where 2^3 = 8, 8^2 = 64, -(2) = -2 and (-2)^2 = 4, compiling
    and evaluating "2^3^2" gives (2^3)^2 = 64 and "-2^2" gives (-2)^2 = 4
    (when [malloc] succeeds). *)
Theorem default_pow_left_assoc {D} `{Host D} (two three mtwo four eight sixtyfour : D) h :
  (forall k, malloc_fails k = false) ->
  strtod_value "2"%string = two -> strtod_value "3"%string = three ->
  call (Code "pow") [two; three] = eight -> call (Code "pow") [eight; two] = sixtyfour ->
  call (Code "negate") [two] = mtwo -> call (Code "pow") [mtwo; two] = four ->
  (exists n h', te_compile 20 "2^3^2" [] h = Some (Some n, 0, h') /\ te_eval n = sixtyfour) /\
  (exists n h', te_compile 20 "-2^2" [] h = Some (Some n, 0, h') /\ te_eval n = four).
Proof.
  intros Hm E2 E3 P1 P2 N1 P3. host_malloc_ok Hm.
  cbn [strtod_value call] in *.
  split; eexists _, _; (split; [lazy; reflexivity|]); lazy.
  - rewrite E2, E3, P1, P2. reflexivity.
  - rewrite E2, N1, P3. reflexivity.
Qed.

Lemma default_pow_left_assoc_witness :
  (exists n h', te_compile 20 "2^3^2" [] h0 = Some (Some n, 0, h') /\ te_eval n = 64) /\
  (exists n h', te_compile 20 "-2^2" [] h0 = Some (Some n, 0, h') /\ te_eval n = 4).
Proof.
  exact (@default_pow_left_assoc Z zhost 2 3 (-2) 4 8 64 h0
           (fun _ => eq_refl) eq_refl eq_refl eq_refl eq_refl eq_refl eq_refl).
Defined.

(** C4. [power] consumes a run of '+'/'-' tokens; with an even number of
    '-' it returns exactly the tree [base] parsed after the run (so the
    value is the base's), with an odd number it returns one pure unary
    node applying [negate] to that tree.  In particular "- - x" evaluates
    to [x]. *)
Theorem power_sign_wrapper {D} `{Host D} :
  (forall f (s : @state D) h r s' h',
     power (S f) s h = Some (Some r, s', h') ->
     exists n s0, sign_run s n s0 /\
       ((Nat.even n = true /\ base f s0 h = Some (Some r, s', h'))
        \/
        (Nat.even n = false /\
         exists b h1, base f s0 h = Some (Some b, s', h1) /\
           r = Expr (hnext h1) UNARY (UFunction (Code "negate")) [PExpr b] /\
           te_eval r = call (Code "negate") [te_eval b]))) /\
  (forall p c h,
     (forall k, malloc_fails k = false) ->
     exists n h', te_compile 20 "- - x" [mk_var "x" p TE_VARIABLE c] h = Some (Some n, 0, h')
                  /\ te_eval n = deref p).
Proof.
  split.
  - intros f s h r s' h' Hp. rewrite power_S in Hp. unfold bindM in Hp.
    destruct (power_signs f 1 s h) as [[[sign s0] h1]|] eqn:Hs; [|discriminate].
    destruct (power_signs_run _ _ _ _ _ _ _ Hs) as [-> (n & Hr & ->)].
    exists n, s0. split; [exact Hr|].
    destruct (Nat.even n) eqn:Ev; cbn -[base] in Hp.
    + left. auto.
    + right. split; [reflexivity|].
      change (- (1) =? 1) with false in Hp. cbv iota in Hp.
      unfold bindM, returnM, new_expr, free_m, new_expr_h in Hp.
      destruct (base f s0 h) as [[[[b|] s1] h2]|]; cbn -[base] in Hp; try discriminate.
      destruct (malloc_fails (hnext h2)); cbn in Hp; [discriminate|].
      injection Hp as <- <- <-. exists b, h2. split; [reflexivity|].
      split; reflexivity.
  - intros p c h Hm. host_malloc_ok Hm.
    eexists _, _. split; [lazy; reflexivity|]. reflexivity.
Qed.

Lemma power_sign_wrapper_witness :
  exists n h', te_compile 20 "- - x" [mk_var "x" (Data 5) TE_VARIABLE NullPtr] h0
               = Some (Some n, 0, h') /\ te_eval n = 5.
Proof. exact (proj2 (@power_sign_wrapper Z zhost) (Data 5) NullPtr h0 (fun _ => eq_refl)). Defined.


(* ------------------------------------------------------------------ *)
(** ** The combinatoric built-ins *)

Section Combinatorics_proofs.
Import Combinatorics.

Lemma div_check a b M : 0 < b -> 0 <= M -> (a >? M / b) = (M <? b * a).
Proof.
  intros Hb HM.
  pose proof (Z.div_mod M b ltac:(lia)). pose proof (Z.mod_pos_bound M b Hb).
  destruct (a >? M / b) eqn:E; destruct (M <? b * a) eqn:F; auto;
    rewrite ?Z.gtb_ltb, ?Z.ltb_lt, ?Z.ltb_ge in *; nia.
Qed.

Lemma rising_pos i k : 1 <= i -> 1 <= rising i k.
Proof.
  revert i; induction k as [|k IH]; intros i Hi; cbn [rising]; [lia|].
  specialize (IH (i + 1) ltac:(lia)). nia.
Qed.

Lemma rising_fact m k :
  rising (Z.of_nat m + 1) k * Z.of_nat (fact m) = Z.of_nat (fact (m + k)).
Proof.
  revert m; induction k as [|k IH]; intros m.
  - cbn [rising]. rewrite Nat.add_0_r. lia.
  - cbn [rising]. replace (m + S k)%nat with (S m + k)%nat by lia.
    rewrite <- IH. change (fact (S m)) with (S m * fact m)%nat.
    rewrite Nat2Z.inj_mul.
    replace (Z.of_nat (S m) + 1) with (Z.of_nat m + 1 + 1) by lia.
    replace (Z.of_nat (S m)) with (Z.of_nat m + 1) by lia. ring.
Qed.

Lemma rising_1_fact k : rising 1 k = Z.of_nat (fact k).
Proof.
  pose proof (rising_fact 0 k) as H. rewrite Nat.add_0_l in H.
  change (Z.of_nat 0 + 1) with 1 in H. change (Z.of_nat (fact 0)) with 1 in H. lia.
Qed.

(** Every factorial up to [ULONG_MAX] (those of 0 .. 20) is a double. *)
Lemma ulong_to_double_fact k :
  Z.of_nat (fact k) <= ULONG_MAX -> ulong_to_double (Z.of_nat (fact k)) = Z.of_nat (fact k).
Proof.
  rewrite <- rising_1_fact. intros Hk.
  assert (Hk20 : (k <= 20)%nat).
  { destruct (Nat.le_gt_cases k 20) as [|Hg]; [assumption|exfalso].
    pose proof (fact_le 21 k ltac:(lia)) as F. apply inj_le in F.
    rewrite <- (rising_1_fact k), <- (rising_1_fact 21) in F.
    assert (E : rising 1 21 = 51090942171709440000) by (vm_compute; reflexivity).
    unfold ULONG_MAX in Hk. lia. }
  do 21 (destruct k as [|k]; [vm_compute; reflexivity|]). lia.
Qed.


(** Rounding keeps an integer of [1 .. 2^63] in [1 .. 2^63]. *)
Lemma ulong_to_double_range z : 1 <= z <= 2 ^ 63 -> 1 <= ulong_to_double z <= 2 ^ 63.
Proof.
  intros Hz. unfold ulong_to_double.
  destruct (z <? 2 ^ 53) eqn:E; [exact Hz|]. apply Z.ltb_ge in E.
  assert (Hl1 : 53 <= Z.log2 z) by (apply Z.log2_le_pow2; lia).
  assert (Hl2 : Z.log2 z <= 63)
    by (rewrite <- (Z.log2_pow2 63) by lia; apply Z.log2_le_mono; lia).
  set (e := Z.log2 z - 52).
  assert (He : 1 <= e <= 11) by (unfold e; lia).
  assert (Hp : 2 ^ 63 = 2 ^ (63 - e) * 2 ^ e) by (rewrite <- Z.pow_add_r by lia; f_equal; lia).
  assert (Hpe : 2 <= 2 ^ e) by (change 2 with (2 ^ 1) at 1; apply Z.pow_le_mono_r; lia).
  assert (Hpe' : 2 ^ e <= 2 ^ 53) by (apply Z.pow_le_mono_r; lia).
  pose proof (Z.div_mod z (2 ^ e) ltac:(lia)) as Dm.
  pose proof (Z.mod_pos_bound z (2 ^ e) ltac:(lia)) as Mb.
  assert (Hh : 1 <= 2 ^ (e - 1)) by (apply (Z.pow_le_mono_r 2 0); lia).
  assert (Hq1 : 1 <= z / 2 ^ e) by (apply Z.div_le_lower_bound; lia).
  destruct ((2 ^ (e - 1) <? z mod 2 ^ e) || ((z mod 2 ^ e =? 2 ^ (e - 1)) && Z.odd (z / 2 ^ e))) eqn:R.
  - assert (Hr : 1 <= z mod 2 ^ e).
    { apply orb_true_iff in R as [R|R]; [apply Z.ltb_lt in R; lia|].
      apply andb_true_iff in R as [R _]. apply Z.eqb_eq in R. lia. }
    assert (Hq : z / 2 ^ e < 2 ^ (63 - e)) by nia.
    split; nia.
  - split; [nia|]. nia.
Qed.

Lemma fac_loop_spec k i r :
  1 <= i -> 1 <= r <= ULONG_MAX ->
  fac_loop k i r =
  if ULONG_MAX <? r * rising i k then PInf else Fin (inject_Z (ulong_to_double (r * rising i k))).
Proof.
  revert i r; induction k as [|k IH]; intros i r Hi Hr.
  - cbn [fac_loop rising]. rewrite Z.mul_1_r.
    destruct (ULONG_MAX <? r) eqn:E; [apply Z.ltb_lt in E; lia|reflexivity].
  - cbn [fac_loop rising].
    assert (HM : 0 <= ULONG_MAX) by (unfold ULONG_MAX; lia).
    rewrite div_check by lia.
    pose proof (rising_pos (i + 1) k ltac:(lia)).
    destruct (ULONG_MAX <? r * i) eqn:E.
    + apply Z.ltb_lt in E. replace (ULONG_MAX <? r * (i * rising (i + 1) k)) with true; [reflexivity|].
      symmetry; apply Z.ltb_lt; nia.
    + apply Z.ltb_ge in E. rewrite IH by nia. rewrite Z.mul_assoc. reflexivity.
Qed.

Lemma Qlt_bool_true x y : Qlt_bool x y = true <-> (x < y)%Q.
Proof.
  unfold Qlt_bool. rewrite negb_true_iff. split; intros H.
  - apply Qnot_le_lt. intros H'. apply Qle_bool_iff in H'. congruence.
  - destruct (Qle_bool y x) eqn:E; [|reflexivity].
    apply Qle_bool_iff in E. exfalso. apply (Qlt_not_le x y); assumption.
Qed.

Lemma Qlt_bool_false x y : Qlt_bool x y = false <-> (y <= x)%Q.
Proof.
  unfold Qlt_bool. rewrite negb_false_iff. apply Qle_bool_iff.
Qed.

Lemma ULONG_MAX_pos : 0 < ULONG_MAX.
Proof. unfold ULONG_MAX. lia. Qed.

Lemma UINT_MAX_lt : UINT_MAX < 2 ^ 32.
Proof. unfold UINT_MAX. lia. Qed.

Lemma ncr_loop_spec k un ur i r :
  0 <= ur <= un -> un <= UINT_MAX -> 1 <= i -> i + Z.of_nat k <= ur + 1 ->
  1 <= r <= 2 ^ 63 -> (i = 1 -> r = 1) ->
  (ncr_products_overflow k un ur i r = true /\ ncr_loop k un ur i r = PInf) \/
  (ncr_products_overflow k un ur i r = false /\
   exists v, ncr_loop k un ur i r = Fin (inject_Z v) /\ 1 <= v <= ULONG_MAX).
Proof.
  revert i r; induction k as [|k IH]; intros i r Hu HU Hi Hk Hr H1.
  - right. split; [reflexivity|]. exists (ulong_to_double r). split; [reflexivity|].
    pose proof (ulong_to_double_range r Hr). unfold ULONG_MAX. lia.
  - cbn [ncr_products_overflow ncr_loop].
    pose proof UINT_MAX_lt. pose proof ULONG_MAX_pos.
    assert (Hx : ulong (un - ur + i) = un - ur + i).
    { unfold ulong. apply Z.mod_small. lia. }
    rewrite Hx, div_check by lia.
    rewrite (Z.mul_comm (un - ur + i) r).
    destruct (ULONG_MAX <? r * (un - ur + i)) eqn:E; [left; split; reflexivity|].
    apply Z.ltb_ge in E. cbn [orb].
    assert (Hlo : r <= r * (un - ur + i) / i).
    { assert (0 <= r * (un - ur)) by (apply Z.mul_nonneg_nonneg; lia).
      apply Z.div_le_lower_bound; lia. }
    assert (Hhi : r * (un - ur + i) / i <= 2 ^ 63).
    { destruct (Z.eq_dec i 1) as [->|Hi2].
      - rewrite (H1 eq_refl), Z.div_1_r. unfold UINT_MAX in HU. lia.
      - pose proof (Z.mul_div_le (r * (un - ur + i)) i ltac:(lia)). unfold ULONG_MAX in E. nia. }
    apply IH; lia.
Qed.

Lemma fac_fin q :
  (0 <= q <= inject_Z UINT_MAX)%Q ->
  fac (Fin q) =
  if ULONG_MAX <? Z.of_nat (fact (Z.to_nat (Qfloor q))) then PInf
  else Fin (inject_Z (Z.of_nat (fact (Z.to_nat (Qfloor q))))).
Proof.
  intros [H0 HU]. unfold fac, dgt, dzero, duint_max. cbn [dlt].
  rewrite (proj2 (Qlt_bool_false _ _) H0), (proj2 (Qlt_bool_false _ _) HU).
  cbn [to_uint]. rewrite (proj2 (Qle_bool_iff _ _) H0).
  pose proof ULONG_MAX_pos.
  rewrite fac_loop_spec by lia. rewrite Z.mul_1_l, rising_1_fact.
  destruct (ULONG_MAX <? Z.of_nat (fact (Z.to_nat (Qfloor q)))) eqn:E; [reflexivity|].
  apply Z.ltb_ge in E. rewrite ulong_to_double_fact by exact E. reflexivity.
Qed.

Lemma fac_pos r :
  r <> NaN -> dlt r dzero = false ->
  fac r = PInf \/ exists v, fac r = Fin (inject_Z v) /\ 1 <= v.
Proof.
  intros HN Hd. destruct r as [q| | |]; try (left; reflexivity); try discriminate.
  - destruct (dgt (Fin q) duint_max) eqn:Hg.
    + left. unfold fac. rewrite Hd, Hg. reflexivity.
    + unfold dgt, duint_max in Hg. cbn [dlt] in Hg. unfold dzero in Hd. cbn [dlt] in Hd.
      apply Qlt_bool_false in Hg, Hd. rewrite fac_fin by (split; assumption).
      destruct (ULONG_MAX <? _); [left; reflexivity|right].
      eexists; split; [reflexivity|]. pose proof (lt_O_fact (Z.to_nat (Qfloor q))). lia.
  - congruence.
Qed.

Lemma ncr_fin n r :
  (0 <= r <= n)%Q -> (n <= inject_Z UINT_MAX)%Q ->
  let un := Qfloor n in
  let ur := Qfloor r in
  let ur := if ur >? un / 2 then un - ur else ur in
  (ncr_products_overflow (Z.to_nat ur) un ur 1 1 = true /\ ncr (Fin n) (Fin r) = PInf) \/
  (ncr_products_overflow (Z.to_nat ur) un ur 1 1 = false /\
   exists v, ncr (Fin n) (Fin r) = Fin (inject_Z v) /\ 1 <= v <= ULONG_MAX).
Proof.
  intros [H0 Hrn] HU. cbv zeta.
  assert (Hn0 : (0 <= n)%Q) by (eapply Qle_trans; eassumption).
  assert (HrU : (r <= inject_Z UINT_MAX)%Q) by (eapply Qle_trans; eassumption).
  unfold ncr, dgt, dzero, duint_max. cbn [dlt].
  rewrite (proj2 (Qlt_bool_false _ _) Hn0), (proj2 (Qlt_bool_false _ _) H0),
    (proj2 (Qlt_bool_false _ _) Hrn), (proj2 (Qlt_bool_false _ _) HU),
    (proj2 (Qlt_bool_false _ _) HrU).
  cbn [orb to_uint]. rewrite (proj2 (Qle_bool_iff _ _) Hn0), (proj2 (Qle_bool_iff _ _) H0).
  pose proof (Qfloor_resp_le _ _ H0) as F0. pose proof (Qfloor_resp_le _ _ Hrn) as F1.
  pose proof (Qfloor_resp_le _ _ HU) as F2. rewrite Qfloor_Z in F2.
  change (Qfloor 0) with 0 in F0.
  pose proof UINT_MAX_lt. pose proof ULONG_MAX_pos.
  destruct (Qfloor r >? Qfloor n / 2).
  - replace (ulong (Qfloor n - Qfloor r)) with (Qfloor n - Qfloor r)
      by (symmetry; unfold ulong; apply Z.mod_small; lia).
    apply ncr_loop_spec; lia.
  - apply ncr_loop_spec; lia.
Qed.

Lemma ncr_pos n r :
  n <> NaN -> r <> NaN -> (dlt n dzero || dlt r dzero || dlt n r) = false ->
  ncr n r = PInf \/ exists v, ncr n r = Fin (inject_Z v) /\ 1 <= v.
Proof.
  intros HnN HrN Hd.
  destruct (dgt n duint_max || dgt r duint_max) eqn:Hg.
  { left. unfold ncr. rewrite Hd, Hg. reflexivity. }
  apply orb_false_iff in Hd as [Hd Hnr]. apply orb_false_iff in Hd as [Hn0 Hr0].
  apply orb_false_iff in Hg as [HnU HrU].
  destruct n as [n| | |]; try discriminate; [|congruence].
  destruct r as [r| | |]; try discriminate; [|congruence].
  unfold dgt, duint_max, dzero in *. cbn [dlt] in *.
  apply Qlt_bool_false in Hn0, Hr0, Hnr, HnU.
  destruct (ncr_fin n r (conj Hr0 Hnr) HnU) as [[_ E] | [_ [v [E Hv]]]].
  - left; exact E.
  - right. exists v. split; [exact E|lia].
Qed.

Lemma dmul_pinf a b :
  (a = PInf \/ exists v, a = Fin (inject_Z v) /\ 1 <= v) ->
  (b = PInf \/ exists v, b = Fin (inject_Z v) /\ 1 <= v) ->
  a = PInf \/ b = PInf -> dmul a b = PInf.
Proof.
  assert (Hpos : forall v, 1 <= v ->
    Qeq_bool (inject_Z v) 0 = false /\ Qlt_bool 0 (inject_Z v) = true).
  { intros v Hv. split.
    - destruct (Qeq_bool (inject_Z v) 0) eqn:E; [|reflexivity].
      apply Qeq_bool_iff in E. unfold Qeq in E. cbn in E. lia.
    - apply Qlt_bool_true. change 0%Q with (inject_Z 0). rewrite <- Zlt_Qlt. lia. }
  intros [->|[v [-> Hv]]] [->|[w [-> Hw]]] H; try reflexivity.
  - cbn [dmul]. destruct (Hpos w Hw) as [-> ->]. reflexivity.
  - cbn [dmul]. destruct (Hpos v Hv) as [-> ->]. reflexivity.
  - destruct H; discriminate.
Qed.

(** Claim C7: saturation of [fac], [ncr] and [npr].  [fac] of a negative
    argument is NaN and [fac] of an argument above [UINT_MAX] is +inf; for
    [0 <= a <= UINT_MAX], [fac a] is +inf exactly when the factorial of the
    truncated argument exceeds [ULONG_MAX], and is that factorial otherwise.
    [ncr n r] is NaN when [n < 0], [r < 0] or [n < r]; otherwise it is +inf
    when an argument exceeds [UINT_MAX], and, for arguments in range, +inf
    exactly when one of the products [result * (un - ur + i)] of its loop
    exceeds [ULONG_MAX], a finite value in [1 .. ULONG_MAX] otherwise.
    [npr n r] is NaN in the same cases as [ncr], and +inf (for arguments
    other than NaN) when [ncr n r] or [fac r] is. *)
Theorem combinatorics_saturation :
  (forall a, dlt a dzero = true -> fac a = NaN) /\
  (forall a, dgt a duint_max = true -> fac a = PInf) /\
  (forall q, (0 <= q <= inject_Z UINT_MAX)%Q ->
     fac (Fin q) =
     if ULONG_MAX <? Z.of_nat (fact (Z.to_nat (Qfloor q))) then PInf
     else Fin (inject_Z (Z.of_nat (fact (Z.to_nat (Qfloor q)))))) /\
  (forall n r, (dlt n dzero || dlt r dzero || dlt n r) = true -> ncr n r = NaN) /\
  (forall n r, (dlt n dzero || dlt r dzero || dlt n r) = false ->
     (dgt n duint_max || dgt r duint_max) = true -> ncr n r = PInf) /\
  (forall n r, (0 <= r <= n)%Q -> (n <= inject_Z UINT_MAX)%Q ->
     let un := Qfloor n in
     let ur := Qfloor r in
     let ur := if ur >? un / 2 then un - ur else ur in
     (ncr (Fin n) (Fin r) = PInf <->
      ncr_products_overflow (Z.to_nat ur) un ur 1 1 = true) /\
     (ncr (Fin n) (Fin r) <> PInf ->
      exists v, ncr (Fin n) (Fin r) = Fin (inject_Z v) /\ 1 <= v <= ULONG_MAX)) /\
  (forall n r, (dlt n dzero || dlt r dzero || dlt n r) = true -> npr n r = NaN) /\
  (forall n r, n <> NaN -> r <> NaN -> (dlt n dzero || dlt r dzero || dlt n r) = false ->
     ncr n r = PInf \/ fac r = PInf -> npr n r = PInf).
Proof.
  split; [|split; [|split; [|split; [|split; [|split; [|split]]]]]].
  - intros a H. unfold fac. rewrite H. reflexivity.
  - intros a H. unfold fac. rewrite H.
    destruct a as [q| | |]; try reflexivity; try discriminate.
    unfold dgt, duint_max, dzero in *. cbn [dlt] in *.
    apply Qlt_bool_true in H.
    replace (Qlt_bool q 0) with false; [reflexivity|].
    symmetry; apply Qlt_bool_false.
    apply Qlt_le_weak, (Qle_lt_trans _ (inject_Z UINT_MAX)); [|exact H].
    change 0%Q with (inject_Z 0). rewrite <- Zle_Qle. unfold UINT_MAX. lia.
  - exact fac_fin.
  - intros n r H. unfold ncr. rewrite H. reflexivity.
  - intros n r H Hg. unfold ncr. rewrite H, Hg. reflexivity.
  - intros n r Hr Hn. cbv zeta.
    destruct (ncr_fin n r Hr Hn) as [[O E] | [O [v [E Hv]]]]; cbv zeta in O;
      rewrite O, E.
    + split; [tauto|congruence].
    + split; [split; discriminate|]. intros _. exists v. auto.
  - intros n r H. unfold npr, ncr. rewrite H. reflexivity.
  - intros n r HnN HrN Hd Hinf. unfold npr. apply dmul_pinf; [| |exact Hinf].
    + apply ncr_pos; assumption.
    + apply fac_pos; [assumption|].
      apply orb_false_iff in Hd as [Hd _]. apply orb_false_iff in Hd as [_ Hd]. exact Hd.
Qed.

(** [fac(-1)] is NaN, [fac(2.5)] is 2, [fac(5)] is 120, [ncr(3,5)] and
    [npr(3,5)] are NaN, [ncr(5e9,1)] is +inf, and [ncr(1000,500)] and
    [npr(1000,500)] overflow to +inf. *)
Lemma combinatorics_saturation_witness :
  fac (Fin (-1)) = NaN /\ fac (Fin (5 # 2)) = Fin 2 /\ fac (Fin 5) = Fin 120 /\
  ncr (Fin 3) (Fin 5) = NaN /\ npr (Fin 3) (Fin 5) = NaN /\
  ncr (Fin (inject_Z 5000000000)) (Fin 1) = PInf /\
  ncr (Fin 1000) (Fin 500) = PInf /\ npr (Fin 1000) (Fin 500) = PInf.
Proof.
  destruct combinatorics_saturation
    as [Fneg [_ [Fval [Nnan [Nbig [Nloop [Pnan Pinf]]]]]]].
  assert (N1000 : ncr (Fin 1000) (Fin 500) = PInf).
  { assert (Q1 : (0 <= 500 <= 1000)%Q) by (split; rewrite <- Qle_bool_iff; reflexivity).
    assert (Q2 : (1000 <= inject_Z UINT_MAX)%Q) by (rewrite <- Qle_bool_iff; reflexivity).
    apply (proj2 (proj1 (Nloop 1000%Q 500%Q Q1 Q2))).
    vm_compute. reflexivity. }
  split; [apply Fneg; reflexivity|].
  split; [rewrite Fval by (split; rewrite <- Qle_bool_iff; reflexivity); reflexivity|].
  split; [rewrite Fval by (split; rewrite <- Qle_bool_iff; reflexivity); reflexivity|].
  split; [apply Nnan; reflexivity|].
  split; [apply Pnan; reflexivity|].
  split; [apply Nbig; reflexivity|].
  split; [exact N1000|].
  apply Pinf; [discriminate|discriminate|reflexivity|left; exact N1000].
Defined.

End Combinatorics_proofs.

(* ------------------------------------------------------------------ *)
(** ** Trees: induction, freeing, folding *)

Section Struct.
Context {D : Type} `{Host D}.

Lemma te_expr_ind' (P : te_expr D -> Prop) :
  (forall id t u ps, Forall (param_P P) ps -> P (Expr id t u ps)) -> forall n, P n.
Proof.
  intros Hstep. fix F 1. intros [id t u ps]. apply Hstep.
  revert ps. fix G 1. intros [|p ps]; constructor.
  - destruct p as [|c|a]; cbn; [exact I | apply F | exact I].
  - apply G.
Qed.

Lemma ids_Expr id t (u : uval D) ps : ids (Expr id t u ps) = {[id]} ∪ ids_go (freed_children t) 0 ps.
Proof. reflexivity. Qed.

Lemma te_free_Expr id t (u : uval D) ps h :
  te_free (Expr id t u ps) h = free_cell id (free_go (freed_children t) 0 ps h).
Proof. reflexivity. Qed.

Lemma forall_nodes_Expr p id t (u : uval D) ps :
  forall_nodes p (Expr id t u ps) = p (Expr id t u ps) && forall_go p (Z.to_nat (ARITY t)) 0 ps.
Proof. reflexivity. Qed.

Lemma elem_of_ids_go k i (ps : list (param D)) x :
  x ∈ ids_go k i ps <->
  exists j c, ps !! j = Some (PExpr c) /\ (i + j < k)%nat /\ x ∈ ids c.
Proof.
  revert i; induction ps as [|p ps IH]; intros i; cbn [ids_go].
  - split; [set_solver|]. intros (j & c & Hj & _). rewrite lookup_nil in Hj. discriminate.
  - fold (ids_go k (S i) ps). rewrite elem_of_union, IH. split.
    + intros [Hx|(j & c & Hj & Hl & Hc)].
      * destruct (i <? k)%nat eqn:E; [|set_solver].
        destruct p as [|c|a]; try set_solver.
        exists O, c. apply Nat.ltb_lt in E. split; [reflexivity|split; [lia|exact Hx]].
      * exists (S j), c. split; [exact Hj|split; [lia|exact Hc]].
    + intros ([|j] & c & Hj & Hl & Hc).
      * left. cbn in Hj. injection Hj as ->. replace (i <? k)%nat with true
          by (symmetry; apply Nat.ltb_lt; lia). exact Hc.
      * right. exists j, c. split; [exact Hj|split; [lia|exact Hc]].
Qed.

Lemma elem_of_ids id t (u : uval D) ps x :
  x ∈ ids (Expr id t u ps) <->
  x = id \/ exists j c, ps !! j = Some (PExpr c) /\ (j < freed_children t)%nat /\ x ∈ ids c.
Proof.
  rewrite ids_Expr, elem_of_union, elem_of_singleton, elem_of_ids_go. reflexivity.
Qed.

Lemma forall_go_true p ar i (ps : list (param D)) :
  forall_go p ar i ps = true <->
  forall j c, ps !! j = Some (PExpr c) -> (i + j < ar)%nat -> forall_nodes p c = true.
Proof.
  revert i; induction ps as [|q ps IH]; intros i; cbn [forall_go].
  - split; [intros _ j c Hj; rewrite lookup_nil in Hj; discriminate|reflexivity].
  - fold (forall_go p ar (S i) ps). rewrite andb_true_iff, IH. split.
    + intros [Hq Hr] [|j] c Hj Hl.
      * cbn in Hj. injection Hj as ->. replace (i <? ar)%nat with true in Hq
          by (symmetry; apply Nat.ltb_lt; lia). exact Hq.
      * apply (Hr j c Hj). lia.
    + intros Hall. split.
      * destruct (i <? ar)%nat eqn:E; [|reflexivity]. apply Nat.ltb_lt in E.
        destruct q as [|c|a]; try reflexivity. apply (Hall O c eq_refl). lia.
      * intros j c Hj Hl. apply (Hall (S j) c Hj). lia.
Qed.

Lemma forall_nodes_true p id t (u : uval D) ps :
  forall_nodes p (Expr id t u ps) = true <->
  p (Expr id t u ps) = true /\
  forall j c, ps !! j = Some (PExpr c) -> (j < Z.to_nat (ARITY t))%nat -> forall_nodes p c = true.
Proof.
  rewrite forall_nodes_Expr, andb_true_iff, forall_go_true. reflexivity.
Qed.

Lemma forall_nodes_root p (n : te_expr D) : forall_nodes p n = true -> p n = true.
Proof. destruct n. rewrite forall_nodes_true. tauto. Qed.

Lemma te_free_spec : forall (n : te_expr D) h,
  live (te_free n h) = live h ∖ ids n /\ hnext (te_free n h) = hnext h.
Proof.
  intros n. induction n as [id t u ps Hps] using te_expr_ind'. intros h.
  rewrite te_free_Expr, ids_Expr.
  assert (G : forall i h, live (free_go (freed_children t) i ps h)
                          = live h ∖ ids_go (freed_children t) i ps /\
                          hnext (free_go (freed_children t) i ps h) = hnext h).
  { clear h. induction Hps as [|p ps Hp Hps IH]; intros i h; cbn [free_go ids_go].
    - split; [set_solver|reflexivity].
    - fold (free_go (freed_children t) (S i) ps h). fold (ids_go (freed_children t) (S i) ps).
      destruct (IH (S i) h) as [IH1 IH2].
      destruct (i <? freed_children t)%nat; [|split; [rewrite IH1; set_solver|exact IH2]].
      destruct p as [|c|a]; cbn in Hp |- *; try (split; [rewrite IH1; set_solver|exact IH2]).
      destruct (Hp (free_go (freed_children t) (S i) ps h)) as [E1 E2].
      split; [rewrite E1, IH1; set_solver|rewrite E2; exact IH2]. }
  destruct (G O h) as [G1 G2]. unfold free_cell. cbn [live hnext].
  split; [rewrite G1; set_solver|exact G2].
Qed.


Lemma te_eval_Expr id t (u : uval D) ps :
  te_eval (Expr id t u ps) = eval_node t u (evals_go ps) ps.
Proof. reflexivity. Qed.

Lemma optimize_Expr id t (u : uval D) ps h :
  optimize (Expr id t u ps) h =
  if (t =? TE_CONSTANT) || (t =? TE_VARIABLE) then (Expr id t u ps, h)
  else if IS_PURE t then
    let '(ps', known, h') := opt_go (Z.to_nat (ARITY t)) 0 ps h in
    let n' := Expr id t u ps' in
    if known then (Expr id TE_CONSTANT (UValue (te_eval n')) ps', te_free_parameters n' h')
    else (n', h')
  else (Expr id t u ps, h).
Proof. reflexivity. Qed.

Lemma slots_filled_true id t (u : uval D) ps :
  slots_filled (Expr id t u ps) = true <->
  forall j, (j < Z.to_nat (ARITY t))%nat -> exists c, ps !! j = Some (PExpr c).
Proof.
  unfold slots_filled. cbn [parameters node_type]. rewrite forallb_forall. split.
  - intros Hall j Hj. specialize (Hall j (proj2 (in_seq _ _ _) (conj (Nat.le_0_l _) Hj))).
    rewrite nth_lookup in Hall. destruct (ps !! j) as [[|c|a]|]; cbn in Hall; try discriminate.
    eauto.
  - intros Hall j Hj. apply in_seq in Hj. destruct (Hall j ltac:(lia)) as [c Hc].
    rewrite nth_lookup, Hc. reflexivity.
Qed.

Lemma optimize_sound : forall (n : te_expr D) h,
  te_eval (fst (optimize n h)) = te_eval n /\
  (foldable n = true -> node_type (fst (optimize n h)) = TE_CONSTANT).
Proof.
  intros n. induction n as [id t u ps Hps] using te_expr_ind'. intros h.
  set (ar := Z.to_nat (ARITY t)).
  assert (G : forall i h ps' known h', opt_go ar i ps h = (ps', known, h') ->
    evals_go ps' = evals_go ps /\
    (forall j, (ar <= i + j)%nat -> ps' !! j = ps !! j) /\
    ((forall j, (i + j < ar)%nat -> exists c, ps !! j = Some (PExpr c) /\ foldable c = true) ->
     known = true)).
  { clear h. induction Hps as [|p ps Hp Hps IH]; intros i h ps' known h' E; cbn [opt_go] in E.
    - injection E as <- <- <-. split; [reflexivity|split; [reflexivity|reflexivity]].
    - fold (opt_go ar (S i) ps) in E.
      destruct (i <? ar)%nat eqn:Ei.
      + apply Nat.ltb_lt in Ei. destruct p as [|c|a].
        * destruct (opt_go ar (S i) ps h) as [[ps'' kn] h2] eqn:E2. injection E as <- <- <-.
          destruct (IH _ _ _ _ _ E2) as [A [B _]]. cbn [evals_go]. fold (evals_go ps'').
          fold (evals_go ps). rewrite A. split; [reflexivity|split].
          -- intros [|j] Hj; [lia|cbn; apply B; lia].
          -- intros Hall. destruct (Hall O ltac:(lia)) as [c [Hc _]]. discriminate.
        * destruct (optimize c h) as [c' h1] eqn:Ec.
          destruct (opt_go ar (S i) ps h1) as [[ps'' kn] h2] eqn:E2. injection E as <- <- <-.
          destruct (IH _ _ _ _ _ E2) as [A [B C]]. cbn in Hp. destruct (Hp h) as [Hc1 Hc2].
          rewrite Ec in Hc1, Hc2. cbn [fst] in Hc1, Hc2.
          cbn [evals_go]. fold (evals_go ps''). fold (evals_go ps). rewrite A, Hc1.
          split; [reflexivity|split].
          -- intros [|j] Hj; [lia|cbn; apply B; lia].
          -- intros Hall. destruct (Hall O ltac:(lia)) as [c0 [Hc0 Hf]].
             cbn in Hc0. injection Hc0 as <-. rewrite (Hc2 Hf), C; [reflexivity|].
             intros j Hj. apply (Hall (S j)). lia.
        * destruct (opt_go ar (S i) ps h) as [[ps'' kn] h2] eqn:E2. injection E as <- <- <-.
          destruct (IH _ _ _ _ _ E2) as [A [B _]]. cbn [evals_go]. fold (evals_go ps'').
          fold (evals_go ps). rewrite A. split; [reflexivity|split].
          -- intros [|j] Hj; [lia|cbn; apply B; lia].
          -- intros Hall. destruct (Hall O ltac:(lia)) as [c [Hc _]]. discriminate.
      + apply Nat.ltb_ge in Ei.
        destruct (opt_go ar (S i) ps h) as [[ps'' kn] h2] eqn:E2. injection E as <- <- <-.
        destruct (IH _ _ _ _ _ E2) as [A [B C]]. cbn [evals_go]. fold (evals_go ps'').
        fold (evals_go ps). rewrite A. split; [reflexivity|split].
        -- intros [|j] Hj; [reflexivity|cbn; apply B; lia].
        -- intros Hall. apply C. intros j Hj. lia. }
  rewrite optimize_Expr. fold ar.
  destruct ((t =? TE_CONSTANT) || (t =? TE_VARIABLE)) eqn:Ec.
  { split; [reflexivity|]. intros Hf. unfold foldable in Hf.
    apply forall_nodes_root in Hf. apply andb_true_iff in Hf as [_ Hf].
    unfold pure_or_const in Hf. cbn [node_type] in *.
    apply orb_true_iff in Ec as [Ec|Ec]; apply Z.eqb_eq in Ec; [exact Ec|].
    subst t. discriminate. }
  destruct (IS_PURE t) eqn:Ep.
  2:{ split; [reflexivity|]. intros Hf. unfold foldable in Hf.
      apply forall_nodes_root in Hf. apply andb_true_iff in Hf as [_ Hf].
      unfold pure_or_const in Hf. cbn [node_type] in Hf. rewrite Ep, orb_false_r in Hf.
      apply orb_false_iff in Ec as [Ec _]. congruence. }
  destruct (opt_go ar 0 ps h) as [[ps' known] h'] eqn:Eo.
  destruct (G _ _ _ _ _ Eo) as [A [B C]].
  assert (Eq : te_eval (Expr id t u ps') = te_eval (Expr id t u ps)).
  { rewrite !te_eval_Expr. unfold eval_node. rewrite A. fold ar.
    rewrite !nth_lookup, (B ar) by lia. reflexivity. }
  destruct known.
  - cbn [fst]. split; [rewrite te_eval_Expr; exact Eq|reflexivity].
  - cbn [fst]. split; [exact Eq|]. intros Hf. exfalso.
    unfold foldable in Hf. apply forall_nodes_true in Hf as [Hroot Hch].
    apply andb_true_iff in Hroot as [Hfill _]. rewrite slots_filled_true in Hfill.
    enough (false = true) by discriminate. apply C. intros j Hj.
    destruct (Hfill j Hj) as [c Hc]. exists c. split; [exact Hc|].
    exact (Hch j c Hc Hj).
Qed.

End Struct.

(* ------------------------------------------------------------------ *)
(** ** The tokens [next_token] hands over *)

Ltac zb := repeat match goal with
  | H : (_ && _) = true |- _ => apply andb_true_iff in H as [? ?]
  | H : (_ || _) = false |- _ => apply orb_false_iff in H as [? ?]
  | H : (_ <=? _) = true |- _ => apply Z.leb_le in H
  | H : (_ <=? _) = false |- _ => apply Z.leb_gt in H
  | H : (_ =? _) = true |- _ => apply Z.eqb_eq in H
  | H : (_ =? _) = false |- _ => apply Z.eqb_neq in H
  end.

Lemma find_builtin_loop_in fuel input name len imin imax e :
  find_builtin_loop fuel input name len imin imax = Some e ->
  0 <= imin -> imax <= 23 -> In e builtin_entries.
Proof.
  revert imin imax. induction fuel as [|f IH]; intros imin imax; cbn [find_builtin_loop];
    [discriminate|].
  destruct (imax >=? imin) eqn:Eg; [|discriminate]. apply Z.geb_le in Eg.
  pose proof (Z.div_mod (imax - imin) 2 ltac:(lia)).
  pose proof (Z.mod_pos_bound (imax - imin) 2 ltac:(lia)).
  intros Hs Hlo Hhi.
  assert (Hin : In (nth (Z.to_nat (imin + (imax - imin) / 2)) functions sentinel) builtin_entries).
  { rewrite nth_functions_entries by lia. apply nth_In.
    change (length builtin_entries) with 24%nat. lia. }
  revert Hs Hin. generalize (nth (Z.to_nat (imin + (imax - imin) / 2)) functions sentinel).
  intros e0 Hs Hin.
  destruct (builtin_cmp input name len e0 =? 0).
  - injection Hs as <-. exact Hin.
  - destruct (_ >? 0); (eapply IH; [exact Hs|lia|lia]).
Qed.

Lemma find_builtin_in input name len e :
  find_builtin input name len = Some e -> In e builtin_entries.
Proof. unfold find_builtin. intros Hs. eapply find_builtin_loop_in; [exact Hs|lia|cbn; lia]. Qed.

Lemma builtin_entries_types v : In v builtin_entries ->
  callable_type (var_type v) = true /\ closure_type (var_type v) = false /\
  IS_PURE (var_type v) = true.
Proof.
  intros Hv.
  assert (Hall : forallb (fun v => callable_type (var_type v) && negb (closure_type (var_type v))
                                   && IS_PURE (var_type v)) builtin_entries = true)
    by reflexivity.
  rewrite forallb_forall in Hall. specialize (Hall v Hv).
  destruct (callable_type (var_type v)), (closure_type (var_type v)), (IS_PURE (var_type v));
    try discriminate. auto.
Qed.

Section Lex.
Context {D : Type} `{Host D}.
Variable vars : list te_variable.

Lemma tok_ok_simple (s : @state D) :
  lookup s = vars -> closure_type (type s) = false -> callable_type (type s) = false ->
  TYPE_MASK (type s) <> TOK_VARIABLE -> tok_ok vars s.
Proof.
  intros Hl Hc Hf Hv. split; [exact Hl|split].
  - rewrite Hc. discriminate.
  - intros _. split; [exact Hv|rewrite Hf; discriminate].
Qed.

Lemma tok_ok_set_next (s : @state D) n : tok_ok vars s -> tok_ok vars (set_next s n).
Proof. intros Hs. exact Hs. Qed.

Ltac tokc := first [ assumption | reflexivity
                   | let E := fresh in intro E; vm_compute in E; discriminate E ].

Lemma tok_ok_set_type_error (s : @state D) : tok_ok vars s -> tok_ok vars (set_type s TOK_ERROR).
Proof. intros Hs. apply tok_ok_simple; cbn; [exact (proj1 Hs)|tokc..]. Qed.

Lemma resolved_token_ok (s : @state D) v :
  (In v vars \/ In v builtin_entries) -> tok_ok vars s -> tok_ok vars (resolved_token s v).
Proof.
  intros Hv Hs. pose proof (proj1 Hs) as Hl. unfold resolved_token.
  assert (Hpure : bindings_pure vars = true ->
                  callable_type (var_type v) = true /\ IS_PURE (var_type v) = true).
  { intros Hb. destruct Hv as [Hv|Hv].
    - unfold bindings_pure in Hb. rewrite forallb_forall in Hb.
      apply andb_true_iff, Hb, Hv.
    - destruct (builtin_entries_types v Hv) as (? & _ & ?). auto. }
  destruct (TYPE_MASK (var_type v) =? TE_VARIABLE) eqn:E1.
  { split; [exact Hl|split].
    - cbn. tokc.
    - intros Hb. destruct (Hpure Hb) as [Hc _]. unfold callable_type in Hc.
      zb. unfold TE_VARIABLE, TE_FUNCTION0 in *. lia. }
  destruct ((TE_CLOSURE0 <=? TYPE_MASK (var_type v)) && (TYPE_MASK (var_type v) <=? TE_CLOSURE7))
    eqn:E2.
  { split; [exact Hl|split]; cbn [type context su set_su set_type set_context].
    - intros _. exists v. split; [|auto].
      destruct Hv as [Hv|Hv]; [exact Hv|].
      destruct (builtin_entries_types v Hv) as (_ & Hc & _).
      unfold closure_type in Hc. rewrite E2 in Hc. discriminate.
    - intros Hb. destruct (Hpure Hb) as [_ Hp]. split; [|auto].
      zb. unfold TOK_VARIABLE, TOK_NULL, TE_CLOSURE0, TE_CLOSURE7 in *. lia. }
  destruct ((TE_FUNCTION0 <=? TYPE_MASK (var_type v)) && (TYPE_MASK (var_type v) <=? TE_FUNCTION7))
    eqn:E3.
  { split; [exact Hl|split]; cbn [type context su set_su set_type set_context].
    - intros Hc. unfold closure_type in Hc. rewrite E2 in Hc. discriminate.
    - intros Hb. destruct (Hpure Hb) as [_ Hp]. split; [|auto].
      zb. unfold TOK_VARIABLE, TOK_NULL, TE_FUNCTION0, TE_FUNCTION7, TE_CLOSURE7 in *. lia. }
  exact Hs.
Qed.

Lemma next_token_step_ok (s : @state D) : tok_ok vars s -> tok_ok vars (next_token_step s).
Proof.
  intros Hs. pose proof (proj1 Hs) as Hl. unfold next_token_step. cbv zeta.
  destruct (Ascii.eqb (cur s) NUL); [apply tok_ok_simple; cbn; tokc|].
  destruct (is_digit (cur s) || Ascii.eqb (cur s) "."); [apply tok_ok_simple; cbn; tokc|].
  destruct (is_alpha (cur s)).
  - lazymatch goal with |- context [find_lookup ?a ?b ?c ?d] =>
      destruct (find_lookup a b c d) as [v|] eqn:El end.
    + apply resolved_token_ok; [|exact Hs]. left.
      apply find_lookup_some in El as [Hv _]. rewrite Hl in Hv. exact Hv.
    + lazymatch goal with |- context [find_builtin ?a ?b ?c] =>
        destruct (find_builtin a b c) as [v|] eqn:Eb end.
      * apply resolved_token_ok; [|exact Hs]. right. exact (find_builtin_in _ _ _ _ Eb).
      * apply tok_ok_set_type_error, Hs.
  - repeat match goal with |- context [if ?b then _ else _] => destruct b end;
      first [ exact Hs | apply tok_ok_simple; cbn; tokc ].
Qed.

Lemma next_token_ok (s : @state D) : tok_ok vars s -> tok_ok vars (next_token s).
Proof.
  intros Hs. unfold next_token.
  assert (Hn : tok_ok vars (set_type s TOK_NULL))
    by (apply tok_ok_simple; cbn; [exact (proj1 Hs)|tokc..]).
  generalize (S (String.length (start s) - next s)). revert Hn.
  generalize (set_type s TOK_NULL). intros s0 Hs0 k. revert s0 Hs0.
  induction k as [|k IH]; intros s0 Hs0; cbn [next_token_loop]; [exact Hs0|].
  pose proof (next_token_step_ok s0 Hs0).
  destruct (type (next_token_step s0) =? TOK_NULL); auto.
Qed.

Lemma tok_ok_init e : tok_ok vars (init_state (D:=D) e vars).
Proof. apply tok_ok_simple; cbn; tokc. Qed.

End Lex.

(* ------------------------------------------------------------------ *)
(** ** What every parse routine keeps *)

Ltac set_cases := repeat match goal with
  | |- context [?x ∈ ?S] =>
     lazymatch goal with
     | _ : x ∈ S |- _ => fail | _ : x ∉ S |- _ => fail
     | _ => destruct (decide (x ∈ S)) end
  end.
Ltac gset_eq := apply leibniz_equiv, set_equiv; intros ?x; set_cases; set_solver.

Section Inv.
Context {D : Type} `{Host D}.
Variable vars : list te_variable.

Lemma fresh_sub h (X Y : gset nat) n : wf_heap h ->
  (forall x, x ∈ X -> x ∈ Y \/ (hnext h <= x < n)%nat) -> X ∩ live h ⊆ Y.
Proof.
  intros Hw Hf x Hx. apply elem_of_intersection in Hx as [Hx Hl].
  destruct (Hf x Hx) as [?|?]; [auto|]. apply Hw in Hl. lia.
Qed.

Lemma post_compose Y h (m : te_expr D) s1 h1 r s' h' :
  wf_heap h -> post vars Y h (Some m) s1 h1 -> post vars (ids m) h1 r s' h' ->
  post vars Y h r s' h'.
Proof.
  intros Hw (Hw1 & Hn1 & Ht1 & Hl1 & Hf1 & Hnf1 & _ & _) (Hw' & Hn' & Ht' & Hr).
  assert (Hd : ids m ∩ live h ⊆ Y) by (eapply fresh_sub; eauto).
  split; [exact Hw'|split; [lia|split; [exact Ht'|]]].
  destruct r as [n|].
  - destruct Hr as (Hl' & Hf' & Hnf' & Hok & Htr). split; [|split; [|split; [|split]]]; auto.
    + rewrite Hl', Hl1. set_solver.
    + intros x Hx. destruct (Hf' x Hx) as [Hm|Hm]; [destruct (Hf1 x Hm)|]; auto; right; lia.
    + intros k Hk. destruct (decide (k < hnext h1)%nat); [apply Hnf1|apply Hnf']; lia.
  - destruct Hr as [Hl' [k [Hk Hm]]]. split.
    + rewrite Hl', Hl1. set_solver.
    + exists k. split; [lia|exact Hm].
Qed.

Lemma post_ret h (n : te_expr D) s : wf_heap h -> tok_ok vars s -> ids n ⊆ live h ->
  node_ok vars n = true -> (type s = TOK_ERROR \/ tree_good vars n = true) ->
  post vars (ids n) h (Some n) s h.
Proof.
  intros Hw Ht Hs Hok Htr. split; [exact Hw|split; [lia|split; [exact Ht|]]].
  split; [gset_eq|split; [intros x Hx; left; exact Hx|split; [intros k Hk; lia|auto]]].
Qed.

Lemma post_retok Y h (r : option (te_expr D)) s1 h1 s' :
  post vars Y h r s1 h1 -> tok_ok vars s' -> (type s' = TOK_ERROR \/ type s1 <> TOK_ERROR) ->
  post vars Y h r s' h1.
Proof.
  intros (Hw & Hn & Ht & Hr) Ht' Hty. split; [exact Hw|split; [exact Hn|split; [exact Ht'|]]].
  destruct r as [n|]; [|exact Hr].
  destruct Hr as (Hl & Hf & Hnf & Hok & Htr).
  split; [exact Hl|split; [exact Hf|split; [exact Hnf|split; [exact Hok|]]]].
  destruct Hty as [Hty|Hty]; [left; exact Hty|]. destruct Htr; [contradiction|right; auto].
Qed.

Lemma ids_leaf k t (u : uval D) ps : no_child ps -> ids (Expr k t u ps) = {[k]}.
Proof.
  intros Hn. apply leibniz_equiv, set_equiv. intros x.
  rewrite elem_of_ids, elem_of_singleton. split; [|auto].
  intros [?|(j & c & Hj & _)]; [auto|]. exfalso. exact (Hn j c Hj).
Qed.

Lemma forall_nodes_leaf p k t (u : uval D) ps : no_child ps ->
  forall_nodes p (Expr k t u ps) = p (Expr k t u ps).
Proof.
  intros Hn. destruct (p (Expr k t u ps)) eqn:E.
  - apply forall_nodes_true. split; [exact E|]. intros j c Hj. exfalso. exact (Hn j c Hj).
  - rewrite forall_nodes_Expr, E. reflexivity.
Qed.

Lemma repeat_replicate' {A} (x : A) n : repeat x n = replicate n x.
Proof. induction n as [|n IH]; cbn; [reflexivity|rewrite IH; reflexivity]. Qed.

Lemma no_child_repeat n : no_child (D:=D) (repeat PNull n).
Proof.
  intros j c Hj. rewrite repeat_replicate' in Hj. apply lookup_replicate_1 in Hj as [Hj _].
  discriminate.
Qed.

Lemma no_child_insert_ptr (ps : list (param D)) i a : no_child ps -> no_child (<[i := PPtr a]> ps).
Proof.
  intros Hn j c Hj. apply list_lookup_insert_Some in Hj as [(_ & Hx & _)|[_ Hj]];
    [discriminate|exact (Hn j c Hj)].
Qed.

Lemma wf_free h (n : te_expr D) : wf_heap h -> wf_heap (te_free n h).
Proof.
  intros Hw x Hx. destruct (te_free_spec n h) as [L N]. rewrite L in Hx. rewrite N.
  apply Hw. set_solver.
Qed.

Lemma wf_alloc_fail h : wf_heap h -> wf_heap (mk_heap (S (hnext h)) (live h)).
Proof. intros Hw x Hx. cbn in *. apply Hw in Hx. lia. Qed.

Lemma wf_alloc h : wf_heap h -> wf_heap (mk_heap (S (hnext h)) ({[hnext h]} ∪ live h)).
Proof.
  intros Hw x Hx. cbn in *. apply elem_of_union in Hx as [Hx|Hx].
  - apply elem_of_singleton in Hx. lia.
  - apply Hw in Hx. lia.
Qed.

Lemma new_expr_h_binary (a b : te_expr D) h :
  new_expr_h BINARY (Some [PExpr a; PExpr b]) h =
  if malloc_fails (hnext h) then (None, mk_heap (S (hnext h)) (live h))
  else (Some (Expr (hnext h) BINARY UZero [PExpr a; PExpr b]),
        mk_heap (S (hnext h)) ({[hnext h]} ∪ live h)).
Proof. reflexivity. Qed.

Lemma new_expr_h_unary (b : te_expr D) h :
  new_expr_h UNARY (Some [PExpr b]) h =
  if malloc_fails (hnext h) then (None, mk_heap (S (hnext h)) (live h))
  else (Some (Expr (hnext h) UNARY UZero [PExpr b]),
        mk_heap (S (hnext h)) ({[hnext h]} ∪ live h)).
Proof. reflexivity. Qed.

Lemma ids_binary k (u : uval D) a b :
  ids (Expr k BINARY u [PExpr a; PExpr b]) = {[k]} ∪ (ids a ∪ (ids b ∪ ∅)).
Proof. reflexivity. Qed.

Lemma ids_unary k (u : uval D) b : ids (Expr k UNARY u [PExpr b]) = {[k]} ∪ (ids b ∪ ∅).
Proof. reflexivity. Qed.

Lemma forall_nodes_binary p k (u : uval D) a b :
  forall_nodes p (Expr k BINARY u [PExpr a; PExpr b]) =
  p (Expr k BINARY u [PExpr a; PExpr b]) && (forall_nodes p a && (forall_nodes p b && true)).
Proof. reflexivity. Qed.

Lemma forall_nodes_unary p k (u : uval D) b :
  forall_nodes p (Expr k UNARY u [PExpr b]) =
  p (Expr k UNARY u [PExpr b]) && (forall_nodes p b && true).
Proof. reflexivity. Qed.

Lemma node_ok_binary k (u : uval D) a b :
  node_ok vars a = true -> node_ok vars b = true ->
  node_ok vars (Expr k BINARY u [PExpr a; PExpr b]) = true.
Proof. unfold node_ok. intros Ha Hb. rewrite forall_nodes_binary, Ha, Hb. reflexivity. Qed.

Lemma tree_good_binary k (u : uval D) a b :
  tree_good vars a = true -> tree_good vars b = true ->
  tree_good vars (Expr k BINARY u [PExpr a; PExpr b]) = true.
Proof.
  unfold tree_good. intros Ha Hb. rewrite forall_nodes_binary, Ha, Hb.
  unfold slots_filled, pure_or_const. cbn -[bindings_pure]. rewrite orb_true_r. reflexivity.
Qed.

Lemma node_ok_unary k (u : uval D) b :
  node_ok vars b = true -> node_ok vars (Expr k UNARY u [PExpr b]) = true.
Proof. unfold node_ok. intros Hb. rewrite forall_nodes_unary, Hb. reflexivity. Qed.

Lemma tree_good_unary k (u : uval D) b :
  tree_good vars b = true -> tree_good vars (Expr k UNARY u [PExpr b]) = true.
Proof.
  unfold tree_good. intros Hb. rewrite forall_nodes_unary, Hb.
  unfold slots_filled, pure_or_const. cbn -[bindings_pure]. rewrite orb_true_r. reflexivity.
Qed.

Lemma fold_step_post h (ret : te_expr D) t e s1 h1 r s' h' :
  wf_heap h -> ids ret ⊆ live h -> node_ok vars ret = true -> tree_good vars ret = true ->
  post vars ∅ h e s1 h1 -> fold_step ret t e s1 h1 = Some (r, s', h') ->
  post vars (ids ret) h r s' h'.
Proof.
  intros Hw Hs Hok Htr (Hw1 & Hn1 & Ht1 & He) Hf.
  destruct e as [p|];
    cbv beta iota delta [fold_step bindM free_m returnM new_expr] in Hf.
  - destruct He as (Hl1 & Hfr1 & Hnf1 & Hokp & Htrp).
    assert (Hd : ids p ∩ live h ⊆ ∅) by (eapply fresh_sub; eauto).
    rewrite new_expr_h_binary in Hf. destruct (malloc_fails (hnext h1)) eqn:Em;
      cbv beta iota in Hf; injection Hf as <- <- <-.
    + set (h2 := mk_heap (S (hnext h1)) (live h1)).
      destruct (te_free_spec p h2) as [Lp Np]. destruct (te_free_spec ret (te_free p h2)) as [Lr Nr].
      split; [apply wf_free, wf_free, wf_alloc_fail, Hw1|].
      rewrite Nr, Np. cbn [hnext h2]. split; [lia|split; [exact Ht1|]]. split.
      * rewrite Lr, Lp. cbn [live h2]. rewrite Hl1. gset_eq.
      * exists (hnext h1). rewrite Nr, Np. cbn [hnext h2]. split; [lia|exact Em].
    + split; [apply wf_alloc, Hw1|]. cbn [hnext live]. split; [lia|split; [exact Ht1|]].
      cbn [set_u]. rewrite ids_binary. split; [|split; [|split; [|split]]].
      * rewrite Hl1. gset_eq.
      * intros x Hx. apply elem_of_union in Hx as [Hx|Hx];
          [apply elem_of_singleton in Hx; right; lia|].
        apply elem_of_union in Hx as [Hx|Hx]; [left; exact Hx|].
        apply elem_of_union in Hx as [Hx|Hx]; [|set_solver].
        destruct (Hfr1 x Hx) as [Hx'|Hx']; [set_solver|right; lia].
      * intros k Hk. cbn [hnext] in Hk. destruct (decide (k = hnext h1)) as [->|]; [exact Em|apply Hnf1; lia].
      * apply node_ok_binary; assumption.
      * destruct Htrp as [Htrp|Htrp]; [left; exact Htrp|right; apply tree_good_binary; assumption].
  - destruct He as [Hl1 [k [Hk Hm]]]. injection Hf as <- <- <-.
    destruct (te_free_spec ret h1) as [Lr Nr].
    split; [apply wf_free, Hw1|]. rewrite Nr. split; [lia|split; [exact Ht1|]]. split.
    + rewrite Lr, Hl1. gset_eq.
    + exists k. rewrite Nr. split; [lia|exact Hm].
Qed.

Lemma post_sub_live Y h (n : te_expr D) s1 h1 :
  post vars Y h (Some n) s1 h1 -> ids n ⊆ live h1.
Proof. intros (_ & _ & _ & Hl & _). rewrite Hl. set_solver. Qed.

Lemma head_post (sub : @M D (option (te_expr D))) (loop : te_expr D -> @M D (option (te_expr D)))
    s h r s' h' :
  Pfun vars sub -> Ploop vars loop -> wf_heap h -> tok_ok vars s ->
  bindM sub (fun r0 => match r0 with None => returnM None | Some ret => loop ret end) s h
  = Some (r, s', h') ->
  post vars ∅ h r s' h'.
Proof.
  intros Hsub Hloop Hw Ht Hr. unfold bindM in Hr.
  destruct (sub s h) as [[[r1 s1] h1]|] eqn:E1; [|discriminate].
  pose proof (Hsub _ _ _ _ _ Hw Ht E1) as Hp.
  destruct r1 as [ret|].
  - eapply post_compose; [exact Hw|exact Hp|].
    destruct Hp as (Hw1 & _ & Ht1 & Hl1 & _ & _ & Hok & Htr).
    eapply Hloop; [exact Hw1|exact Ht1| |exact Hok|exact Htr|exact Hr].
    rewrite Hl1. set_solver.
  - unfold returnM in Hr. injection Hr as <- <- <-. exact Hp.
Qed.

Lemma loop_post (cond : @state D -> bool) (tf : @state D -> uval D)
    (sub : @M D (option (te_expr D))) (loop : te_expr D -> @M D (option (te_expr D)))
    ret s h r s' h' :
  Pfun vars sub -> Ploop vars loop ->
  (forall s, cond s = true -> type s <> TOK_ERROR) ->
  wf_heap h -> tok_ok vars s -> ids ret ⊆ live h -> node_ok vars ret = true ->
  (type s = TOK_ERROR \/ tree_good vars ret = true) ->
  bindM get_state (fun s =>
    if cond s then
      bindM next_token_m (fun _ =>
      bindM sub (fun e =>
      bindM (fold_step ret (tf s) e) (fun r =>
      match r with None => returnM None | Some ret' => loop ret' end)))
    else returnM (Some ret)) s h = Some (r, s', h') ->
  post vars (ids ret) h r s' h'.
Proof.
  intros Hsub Hloop Hc Hw Ht Hs Hok Htr Hr.
  unfold bindM at 1, get_state in Hr. destruct (cond s) eqn:Ec.
  - assert (Htr' : tree_good vars ret = true)
      by (destruct Htr as [Htr|Htr]; [exfalso; exact (Hc s Ec Htr)|exact Htr]).
    unfold bindM at 1, next_token_m in Hr. unfold bindM at 1 in Hr.
    destruct (sub (next_token s) h) as [[[e s2] h1]|] eqn:E1; [|discriminate].
    pose proof (Hsub _ _ _ _ _ Hw (next_token_ok vars s Ht) E1) as Hp.
    unfold bindM in Hr.
    destruct (fold_step ret (tf s) e s2 h1) as [[[r1 s3] h2]|] eqn:E2; [|discriminate].
    pose proof (fold_step_post _ _ _ _ _ _ _ _ _ Hw Hs Hok Htr' Hp E2) as Hq.
    destruct r1 as [ret'|].
    + eapply post_compose; [exact Hw|exact Hq|].
      pose proof (post_sub_live _ _ _ _ _ Hq) as Hs'.
      destruct Hq as (Hw2 & _ & Ht2 & _ & _ & _ & Hok2 & Htr2).
      eapply Hloop; [exact Hw2|exact Ht2|exact Hs'|exact Hok2|exact Htr2|exact Hr].
    + unfold returnM in Hr. injection Hr as <- <- <-. exact Hq.
  - unfold returnM in Hr. injection Hr as <- <- <-. apply post_ret; assumption.
Qed.

Lemma mask_idem t : TYPE_MASK (TYPE_MASK t) = TYPE_MASK t.
Proof. unfold TYPE_MASK. rewrite <- Z.land_assoc. reflexivity. Qed.

Lemma mask_range t : 0 <= TYPE_MASK t < 32.
Proof.
  unfold TYPE_MASK. change 31 with (Z.ones 5). rewrite Z.land_ones by lia.
  apply Z.mod_pos_bound. lia.
Qed.

Lemma mask_facts t :
  ARITY t = ARITY (TYPE_MASK t) /\ IS_CLOSURE t = IS_CLOSURE (TYPE_MASK t) /\
  freed_children t = freed_children (TYPE_MASK t) /\
  closure_type t = closure_type (TYPE_MASK t) /\ callable_type t = callable_type (TYPE_MASK t).
Proof.
  unfold ARITY, IS_CLOSURE, freed_children, closure_type, callable_type.
  rewrite !mask_idem. unfold TYPE_MASK. rewrite <- !Z.land_assoc. auto.
Qed.

Lemma enum_mask (P : Z -> bool) : forallb P (map Z.of_nat (seq 0 32)) = true ->
  forall m, 0 <= m < 32 -> P m = true.
Proof.
  intros Hall m Hm. rewrite forallb_forall in Hall. apply Hall.
  apply in_map_iff. exists (Z.to_nat m). split; [lia|apply in_seq; lia].
Qed.

Lemma callable_facts t : callable_type t = true ->
  IS_CLOSURE t = closure_type t /\ Z.to_nat (ARITY t) = freed_children t.
Proof.
  destruct (mask_facts t) as (E1 & E2 & E3 & E4 & E5). rewrite E1, E2, E3, E4, E5.
  pose proof (mask_range t) as Hr. revert Hr. generalize (TYPE_MASK t). intros m Hm.
  pose proof (enum_mask (fun m => negb (callable_type m)
                || (Bool.eqb (IS_CLOSURE m) (closure_type m)
                    && Nat.eqb (Z.to_nat (ARITY m)) (freed_children m)))
                eq_refl m Hm) as Hc.
  cbv beta in Hc. intros Hcall. rewrite Hcall in Hc. cbn in Hc.
  apply andb_true_iff in Hc as [Ha Hb]. apply Bool.eqb_prop in Ha. apply Nat.eqb_eq in Hb. auto.
Qed.

Lemma prep_shape t (u : uval D) c k : exists ps,
  prep t u c k (Z.to_nat (ARITY t)) = Expr k t u ps /\ call_slots t c ps.
Proof.
  unfold prep. set (a := Z.to_nat (ARITY t)). destruct (IS_CLOSURE t) eqn:Ec; cbn [set_u set_param].
  - eexists. split; [reflexivity|]. rewrite repeat_replicate'. split; [|split; [|split]].
    + rewrite length_insert, length_replicate. lia.
    + intros j Hj. rewrite list_lookup_insert_ne by lia. apply lookup_replicate_2. lia.
    + apply no_child_insert_ptr. rewrite <- repeat_replicate'. apply no_child_repeat.
    + intros _. rewrite nth_lookup, list_lookup_insert_eq; [reflexivity|].
      rewrite length_replicate. lia.
  - eexists. split; [reflexivity|]. rewrite repeat_replicate'. split; [|split; [|split]].
    + rewrite length_replicate. lia.
    + intros j Hj. apply lookup_replicate_2. lia.
    + rewrite <- repeat_replicate'. apply no_child_repeat.
    + intros Hc. rewrite Ec in Hc. discriminate.
Qed.

Lemma alloc_fail_post h (s : @state D) :
  wf_heap h -> malloc_fails (hnext h) = true -> tok_ok vars s ->
  post vars ∅ h None s (mk_heap (S (hnext h)) (live h)).
Proof.
  intros Hw Em Ht. split; [apply wf_alloc_fail, Hw|]. cbn [hnext live].
  split; [lia|split; [exact Ht|]]. split; [set_solver|]. exists (hnext h). cbn. split; [lia|exact Em].
Qed.

Lemma alloc_leaf_post h (s : @state D) t u ps :
  wf_heap h -> malloc_fails (hnext h) = false -> tok_ok vars s -> no_child ps ->
  closure_slot_ok vars (Expr (hnext h) t u ps) = true ->
  (type s = TOK_ERROR \/ tree_good vars (Expr (hnext h) t u ps) = true) ->
  post vars ∅ h (Some (Expr (hnext h) t u ps)) s (mk_heap (S (hnext h)) ({[hnext h]} ∪ live h)).
Proof.
  intros Hw Em Ht Hn Hc Htr. split; [apply wf_alloc, Hw|]. cbn [hnext live].
  split; [lia|split; [exact Ht|]]. rewrite ids_leaf by exact Hn.
  split; [set_solver|split; [|split; [|split]]].
  - intros x Hx. apply elem_of_singleton in Hx. right. lia.
  - intros k Hk. cbn [hnext] in Hk. replace k with (hnext h) by lia. exact Em.
  - unfold node_ok. rewrite forall_nodes_leaf by exact Hn. exact Hc.
  - exact Htr.
Qed.

Lemma closure_root (s : @state D) k ps : tok_ok vars s ->
  (closure_type (type s) = true -> nth (Z.to_nat (ARITY (type s))) ps PNull = PPtr (context s)) ->
  closure_slot_ok vars (Expr k (type s) (su s) ps) = true.
Proof.
  intros (_ & Hcl & _) Hn. unfold closure_slot_ok.
  destruct (is_closure_node (Expr k (type s) (su s) ps)) eqn:Ec; [|reflexivity].
  change (closure_type (type s) = true) in Ec.
  cbn [parameters node_type node_u]. rewrite (Hn Ec).
  destruct (Hcl Ec) as (v & Hv & Ht & Hc & Hu). rewrite Hu.
  apply existsb_exists. exists v. split; [exact Hv|].
  rewrite Ht, Z.eqb_refl, Hc. cbn. rewrite !bool_decide_eq_true_2 by reflexivity. reflexivity.
Qed.

Lemma pure_root (s : @state D) k (u : uval D) ps : tok_ok vars s -> callable_type (type s) = true ->
  negb (bindings_pure vars) || pure_or_const (Expr k (type s) u ps) = true.
Proof.
  intros (_ & _ & Hp) Hc. destruct (bindings_pure vars) eqn:Eb; [|reflexivity].
  destruct (Hp eq_refl) as [_ Hp']. unfold pure_or_const. cbn [node_type].
  rewrite (Hp' Hc), orb_true_r. reflexivity.
Qed.

Lemma slots_filled_prefix k t (u : uval D) ps :
  (forall j, (j < Z.to_nat (ARITY t))%nat -> exists c, ps !! j = Some (PExpr c)) ->
  slots_filled (Expr k t u ps) = true.
Proof. apply slots_filled_true. Qed.

Lemma ids_insert k t (u : uval D) ps i p :
  ps !! i = Some PNull -> (i < freed_children t)%nat ->
  ids (Expr k t u (<[i := PExpr p]> ps)) = ids (Expr k t u ps) ∪ ids p.
Proof.
  intros Hi Hf. apply leibniz_equiv, set_equiv. intros x.
  rewrite elem_of_union, !elem_of_ids. split.
  - intros [->|(j & c & Hj & Hjl & Hx)]; [left; left; reflexivity|].
    apply list_lookup_insert_Some in Hj as [(<- & Hc & _)|[Hne Hj]].
    + injection Hc as <-. right. exact Hx.
    + left. right. exists j, c. auto.
  - intros [[->|(j & c & Hj & Hjl & Hx)]|Hx]; [left; reflexivity| |].
    + right. exists j, c. split; [|auto]. rewrite list_lookup_insert_ne; [exact Hj|].
      intros ->. congruence.
    + right. exists i, p. split; [|auto]. apply list_lookup_insert_eq.
      apply lookup_lt_Some in Hi. exact Hi.
Qed.

Lemma power_signs_ok f sign (s : @state D) h r s0 h1 :
  tok_ok vars s -> power_signs f sign s h = Some (r, s0, h1) -> tok_ok vars s0 /\ h1 = h.
Proof.
  intros Ht Hp. destruct (power_signs_run _ _ _ _ _ _ _ Hp) as [-> (n & Hr & _)].
  split; [|reflexivity]. clear Hp. revert Ht.
  induction Hr as [s0 _|s0 n s1 _ _ _ IH|s0 n s1 _ _ _ IH]; intros Ht;
    [exact Ht|apply IH, next_token_ok, Ht|apply IH, next_token_ok, Ht].
Qed.

Lemma power_step f : Pfun vars (base f) -> Pfun vars (power (S f)).
Proof.
  intros Hb s h r s' h' Hw Ht Hr. rewrite power_S in Hr. unfold bindM at 1 in Hr.
  destruct (power_signs f 1 s h) as [[[sign s1] h1]|] eqn:E1; [|discriminate].
  destruct (power_signs_ok _ _ _ _ _ _ _ Ht E1) as [Ht1 ->].
  destruct (sign =? 1).
  - exact (Hb _ _ _ _ _ Hw Ht1 Hr).
  - unfold bindM at 1 in Hr. destruct (base f s1 h) as [[[b s2] h2]|] eqn:E2; [|discriminate].
    pose proof (Hb _ _ _ _ _ Hw Ht1 E2) as Hp. destruct b as [b|].
    2:{ unfold returnM in Hr. injection Hr as <- <- <-. exact Hp. }
    destruct Hp as (Hw2 & Hn2 & Ht2 & Hl2 & Hfr2 & Hnf2 & Hok2 & Htr2).
    assert (Hd : ids b ∩ live h ⊆ ∅) by (eapply fresh_sub; eauto).
    unfold bindM at 1, new_expr in Hr. rewrite new_expr_h_unary in Hr.
    destruct (malloc_fails (hnext h2)) eqn:Em; cbv beta iota in Hr.
    + unfold bindM, free_m, returnM in Hr. injection Hr as <- <- <-.
      set (h3 := mk_heap (S (hnext h2)) (live h2)). destruct (te_free_spec b h3) as [Lb Nb].
      split; [apply wf_free, wf_alloc_fail, Hw2|]. rewrite Nb. cbn [hnext h3].
      split; [lia|split; [exact Ht2|]]. split.
      * rewrite Lb. cbn [live h3]. rewrite Hl2. gset_eq.
      * exists (hnext h2). rewrite Nb. cbn [hnext h3]. split; [lia|exact Em].
    + unfold returnM in Hr. injection Hr as <- <- <-.
      split; [apply wf_alloc, Hw2|]. cbn [hnext live]. split; [lia|split; [exact Ht2|]].
      cbn [set_u]. rewrite ids_unary. split; [|split; [|split; [|split]]].
      * rewrite Hl2. gset_eq.
      * intros x Hx. apply elem_of_union in Hx as [Hx|Hx];
          [apply elem_of_singleton in Hx; right; lia|].
        apply elem_of_union in Hx as [Hx|Hx]; [|set_solver].
        destruct (Hfr2 x Hx) as [Hx'|Hx']; [set_solver|right; lia].
      * intros k Hk. cbn [hnext] in Hk.
        destruct (decide (k = hnext h2)) as [->|]; [exact Em|apply Hnf2; lia].
      * apply node_ok_unary, Hok2.
      * destruct Htr2 as [Htr2|Htr2]; [left; exact Htr2|right; apply tree_good_unary, Htr2].
Qed.

Lemma slot_good_ok (p : param D) : slot_good vars p -> slot_ok vars p.
Proof. destruct p; cbn; tauto. Qed.

Lemma args_post_compose arity k t (u : uval D) ps ps1 (p : te_expr D) h h1 r s' h' :
  wf_heap h -> ids (Expr k t u ps) ⊆ live h -> live h1 = live h ∪ ids p ->
  (forall x, x ∈ ids p -> (hnext h <= x < hnext h1)%nat) -> no_fail h h1 ->
  (hnext h <= hnext h1)%nat ->
  ids (Expr k t u ps1) = ids (Expr k t u ps) ∪ ids p -> length ps1 = length ps ->
  (forall j, (arity <= j)%nat -> nth j ps1 PNull = nth j ps PNull) ->
  args_post vars arity (Expr k t u ps1) h1 r s' h' ->
  args_post vars arity (Expr k t u ps) h r s' h'.
Proof.
  intros Hw Hs Hl1 Hfr Hnf Hn Hids Hlen Hge (Hw' & Hn' & Ht' & Hr).
  assert (Hd : ids p ∩ live h ⊆ ∅) by (eapply fresh_sub; [exact Hw|]; intros x Hx; right; eauto).
  split; [exact Hw'|split; [lia|split; [exact Ht'|]]].
  destruct r as [[[k' t' u' ps'] i']|].
  - destruct Hr as ((-> & -> & -> & Hlen' & Hge' & Hok' & Htr') & Hl' & Hfr' & Hnf').
    split; [split; [reflexivity|split; [reflexivity|split; [reflexivity|split]]]|split; [|split]].
    + congruence.
    + split; [intros j Hj; rewrite Hge', Hge by exact Hj; reflexivity|split; [exact Hok'|exact Htr']].
    + rewrite Hl', Hids, Hl1. gset_eq.
    + intros x Hx. destruct (Hfr' x Hx) as [Hx'|Hx'].
      * rewrite Hids in Hx'. apply elem_of_union in Hx' as [Hx'|Hx']; [left; exact Hx'|].
        right. specialize (Hfr x Hx'). lia.
      * right. lia.
    + intros j Hj. destruct (decide (j < hnext h1)%nat); [apply Hnf|apply Hnf']; lia.
  - destruct Hr as [Hl' [j [Hj Hm]]]. split.
    + rewrite Hl', Hids, Hl1. gset_eq.
    + exists j. split; [lia|exact Hm].
Qed.

Lemma base_args_step f : Pfun vars (expr f) -> Pargs vars (base_args f) ->
  Pargs vars (base_args (S f)).
Proof.
  intros He Ha arity i ret s h r s' h' Hw Ht Hs Hpre Hr.
  rewrite base_args_S in Hr. destruct ret as [k t u ps].
  destruct Hpre as (Hfc & Har & Hlen & Hi & Hgood & Hnull).
  destruct (i <? arity)%nat eqn:Ei.
  2:{ apply Nat.ltb_ge in Ei. unfold returnM in Hr. injection Hr as <- <- <-.
      split; [exact Hw|split; [lia|split; [exact Ht|]]].
      split; [split; [reflexivity|split; [reflexivity|split; [reflexivity|split; [reflexivity|]]]]|].
      - split; [intros; reflexivity|split].
        + intros j Hj. apply slot_good_ok, Hgood. lia.
        + right. intros j _ Hj. apply Hgood. lia.
      - split; [gset_eq|split; [intros x Hx; left; exact Hx|intros j Hj; lia]]. }
  apply Nat.ltb_lt in Ei.
  assert (Hpi : ps !! i = Some PNull).
  { specialize (Hnull i ltac:(lia)). rewrite nth_lookup in Hnull.
    destruct (ps !! i) eqn:Eps; [cbn in Hnull; congruence|].
    apply lookup_ge_None in Eps. lia. }
  unfold bindM at 1, next_token_m in Hr. unfold bindM at 1 in Hr.
  destruct (expr f (next_token s) h) as [[[p s2] h1]|] eqn:E1; [|discriminate].
  pose proof (He _ _ _ _ _ Hw (next_token_ok vars s Ht) E1) as Hp.
  destruct p as [p|].
  2:{ unfold bindM, free_m, returnM in Hr.
      set (hf := te_free (Expr k t u ps) h1) in Hr. injection Hr as <- <- <-.
      destruct Hp as (Hw1 & Hn1 & Ht1 & Hl1 & Hf1).
      destruct (te_free_spec (Expr k t u ps) h1) as [Lr Nr]. fold hf in Lr, Nr.
      split; [apply (wf_free _ (Expr k t u ps)), Hw1|]. rewrite Nr. split; [lia|split; [exact Ht1|]].
      split; [rewrite Lr, Hl1; set_solver|].
      destruct Hf1 as [j [Hj Hm]]. exists j. rewrite Nr. split; [lia|exact Hm]. }
  destruct Hp as (Hw1 & Hn1 & Ht1 & Hl1 & Hfr1 & Hnf1 & Hok1 & Htr1).
  cbv zeta in Hr. unfold bindM, get_state in Hr. cbn [set_param] in Hr.
  set (ps1 := <[i := PExpr p]> ps) in Hr.
  assert (Hids : ids (Expr k t u ps1) = ids (Expr k t u ps) ∪ ids p)
    by (apply ids_insert; [exact Hpi|lia]).
  assert (Hlen1 : length ps1 = length ps) by apply length_insert.
  assert (Hlt : (i < length ps)%nat) by lia.
  assert (Hge : forall j, (arity <= j)%nat -> nth j ps1 PNull = nth j ps PNull).
  { intros j Hj. rewrite !nth_lookup. unfold ps1. rewrite list_lookup_insert_ne by lia.
    reflexivity. }
  assert (Hat : nth i ps1 PNull = PExpr p).
  { rewrite nth_lookup. unfold ps1. rewrite list_lookup_insert_eq by lia. reflexivity. }
  assert (Hne : forall j, j <> i -> nth j ps1 PNull = nth j ps PNull).
  { intros j Hj. rewrite !nth_lookup. unfold ps1. rewrite list_lookup_insert_ne by lia.
    reflexivity. }
  assert (Hfr1' : forall x, x ∈ ids p -> (hnext h <= x < hnext h1)%nat).
  { intros x Hx. destruct (Hfr1 x Hx) as [Hx'|Hx']; [set_solver|exact Hx']. }
  destruct (negb (type s2 =? TOK_SEP)) eqn:Esep.
  - unfold returnM in Hr. injection Hr as <- <- <-.
    split; [exact Hw1|split; [lia|split; [exact Ht1|]]].
    split; [split; [reflexivity|split; [reflexivity|split; [reflexivity|split; [exact Hlen1|]]]]|].
    + split; [exact Hge|split].
      * intros j Hj. destruct (decide (j = i)) as [->|Hji]; [rewrite Hat; exact Hok1|].
        rewrite (Hne j Hji). destruct (decide (j < i)%nat).
        -- apply slot_good_ok, Hgood. lia.
        -- rewrite Hnull by lia. exact I.
      * destruct Htr1 as [Htr1|Htr1]; [left; exact Htr1|right].
        intros j Hj1 Hj2. destruct (decide (j = i)) as [->|Hji]; [rewrite Hat; split; assumption|].
        rewrite (Hne j Hji). apply Hgood. lia.
    + split; [rewrite Hl1, Hids; gset_eq|split].
      * intros x Hx. rewrite Hids in Hx. apply elem_of_union in Hx as [Hx|Hx]; [left; exact Hx|].
        right. apply Hfr1'. exact Hx.
      * exact Hnf1.
  - apply negb_false_iff, Z.eqb_eq in Esep.
    eapply (args_post_compose arity k t u ps ps1 p); [exact Hw|exact Hs|rewrite Hl1; set_solver|exact Hfr1'|exact Hnf1
      |exact Hn1|exact Hids|exact Hlen1|exact Hge|].
    eapply Ha; [exact Hw1|exact Ht1|rewrite Hl1, Hids; set_solver| |exact Hr].
    split; [exact Hfc|split; [exact Har|split; [lia|split; [lia|split]]]].
    + intros j Hj. destruct (decide (j = i)) as [->|Hji].
      * rewrite Hat. split; [exact Hok1|].
        destruct Htr1 as [Htr1|Htr1]; [rewrite Esep in Htr1; discriminate|exact Htr1].
      * rewrite (Hne j Hji). apply Hgood. lia.
    + intros j Hj. rewrite (Hne j ltac:(lia)). apply Hnull. lia.
Qed.

Lemma new_expr_h_none t h :
  new_expr_h (D:=D) t None h =
  if malloc_fails (hnext h) then (None, mk_heap (S (hnext h)) (live h))
  else (Some (Expr (hnext h) t UZero
          (repeat PNull (Z.to_nat (ARITY t) + (if IS_CLOSURE t then 1 else 0)))),
        mk_heap (S (hnext h)) ({[hnext h]} ∪ live h)).
Proof. reflexivity. Qed.

Lemma no_child_nil : no_child (D:=D) [].
Proof. intros j c Hj. rewrite lookup_nil in Hj. discriminate. Qed.

Ltac solve_nc := first [apply no_child_repeat | apply no_child_nil].

Lemma call_root_ok (s : @state D) k ps : tok_ok vars s -> callable_type (type s) = true ->
  call_slots (type s) (context s) ps ->
  closure_slot_ok vars (Expr k (type s) (su s) ps) = true.
Proof.
  intros Ht Hc (_ & _ & _ & Hn). apply closure_root; [exact Ht|].
  intros Hcl. apply Hn. rewrite (proj1 (callable_facts _ Hc)). exact Hcl.
Qed.

Lemma leaf_call_post h (s s' : @state D) ps :
  wf_heap h -> malloc_fails (hnext h) = false -> tok_ok vars s -> tok_ok vars s' ->
  callable_type (type s) = true -> call_slots (type s) (context s) ps ->
  (Z.to_nat (ARITY (type s)) = 0%nat \/ type s' = TOK_ERROR) ->
  post vars ∅ h (Some (Expr (hnext h) (type s) (su s) ps)) s'
    (mk_heap (S (hnext h)) ({[hnext h]} ∪ live h)).
Proof.
  intros Hw Em Ht Ht' Hc Hcs Ha. pose proof Hcs as (_ & _ & Hnc & _).
  apply alloc_leaf_post; [exact Hw|exact Em|exact Ht'|exact Hnc| |].
  - apply call_root_ok; auto.
  - destruct Ha as [Ha|Ha]; [right|left; exact Ha].
    unfold tree_good. rewrite forall_nodes_leaf by exact Hnc. apply andb_true_iff. split.
    + apply slots_filled_true. intros j Hj. lia.
    + apply pure_root; assumption.
Qed.

Lemma one_child_ok (s : @state D) k ps p :
  tok_ok vars s -> callable_type (type s) = true -> Z.to_nat (ARITY (type s)) = 1%nat ->
  call_slots (type s) (context s) ps -> node_ok vars p = true ->
  node_ok vars (Expr k (type s) (su s) (<[0%nat := PExpr p]> ps)) = true /\
  (tree_good vars p = true -> tree_good vars (Expr k (type s) (su s) (<[0%nat := PExpr p]> ps)) = true).
Proof.
  intros Ht Hc Har (Hlen & Hnull & Hnc & Hptr) Hok.
  assert (Hat : <[0%nat := PExpr p]> ps !! 0%nat = Some (PExpr p))
    by (apply list_lookup_insert_eq; lia).
  assert (Hch : forall j c, <[0%nat := PExpr p]> ps !! j = Some (PExpr c) ->
                (j < Z.to_nat (ARITY (type s)))%nat -> c = p).
  { intros j c Hj Hjl. rewrite Har in Hjl. replace j with 0%nat in Hj by lia.
    rewrite Hat in Hj. congruence. }
  assert (Hroot : closure_slot_ok vars (Expr k (type s) (su s) (<[0%nat := PExpr p]> ps)) = true).
  { apply closure_root; [exact Ht|]. intros Hcl. rewrite nth_lookup, list_lookup_insert_ne by lia.
    rewrite <- nth_lookup. apply Hptr. rewrite (proj1 (callable_facts _ Hc)). exact Hcl. }
  split.
  - unfold node_ok. apply forall_nodes_true. split; [exact Hroot|].
    intros j c Hj Hjl. rewrite (Hch j c Hj Hjl). exact Hok.
  - intros Htr. unfold tree_good. apply forall_nodes_true. split.
    + apply andb_true_iff. split; [|apply pure_root; assumption].
      apply slots_filled_true. intros j Hj. rewrite Har in Hj. replace j with 0%nat by lia.
      exists p. exact Hat.
    + intros j c Hj Hjl. rewrite (Hch j c Hj Hjl). exact Htr.
Qed.

Lemma multi_call_post h (s s2 s' : @state D) ps (ret' : te_expr D) i' h2 :
  wf_heap h -> malloc_fails (hnext h) = false -> tok_ok vars s -> tok_ok vars s' ->
  callable_type (type s) = true -> call_slots (type s) (context s) ps ->
  args_post vars (Z.to_nat (ARITY (type s))) (Expr (hnext h) (type s) (su s) ps)
    (mk_heap (S (hnext h)) ({[hnext h]} ∪ live h)) (Some (ret', i')) s2 h2 ->
  (type s' = TOK_ERROR \/
   (type s2 <> TOK_ERROR /\ i' = (Z.to_nat (ARITY (type s)) - 1)%nat /\
    (1 <= Z.to_nat (ARITY (type s)))%nat)) ->
  post vars ∅ h (Some ret') s' h2.
Proof.
  intros Hw Em Ht Ht' Hc (Hlen & Hnull & Hnc & Hptr) (Hw2 & Hn2 & _ & Hr) Hfin.
  destruct ret' as [k' t' u' ps'].
  destruct Hr as ((-> & -> & -> & Hlen' & Hge & Hok & Htr) & Hl2 & Hfr2 & Hnf2).
  cbn [hnext live] in Hn2, Hl2, Hfr2.
  rewrite (ids_leaf (hnext h) (type s) (su s) ps Hnc) in Hl2, Hfr2.
  assert (Hk : hnext h ∉ live h) by (intros Hx; apply Hw in Hx; lia).
  destruct (callable_facts _ Hc) as [Hcl _].
  assert (Hroot : closure_slot_ok vars (Expr (hnext h) (type s) (su s) ps') = true).
  { apply closure_root; [exact Ht|]. intros Hct. rewrite Hge by lia. apply Hptr.
    rewrite Hcl. exact Hct. }
  split; [exact Hw2|split; [lia|split; [exact Ht'|]]].
  split; [rewrite Hl2; gset_eq|split; [|split; [|split]]].
  - intros x Hx. destruct (Hfr2 x Hx) as [Hx'|Hx'];
      [apply elem_of_singleton in Hx'; right; lia|right; lia].
  - intros j Hj. destruct (decide (j = hnext h)) as [->|]; [exact Em|apply Hnf2; cbn [hnext]; lia].
  - unfold node_ok. apply forall_nodes_true. split; [exact Hroot|].
    intros j c Hj Hjl. specialize (Hok j Hjl). rewrite nth_lookup, Hj in Hok. exact Hok.
  - destruct Hfin as [He|(Hne & Hi & H1)]; [left; exact He|right].
    destruct Htr as [Htr|Htr]; [contradiction|].
    assert (Hg : forall j, (j < Z.to_nat (ARITY (type s)))%nat -> slot_good vars (nth j ps' PNull))
      by (intros j Hj; apply Htr; lia).
    unfold tree_good. apply forall_nodes_true. split.
    + apply andb_true_iff. split; [|apply pure_root; assumption].
      apply slots_filled_true. intros j Hj. specialize (Hg j Hj).
      rewrite nth_lookup in Hg. destruct (ps' !! j) as [[]|]; cbn in Hg; try contradiction.
      eexists; reflexivity.
    + intros j c Hj Hjl. specialize (Hg j Hjl). rewrite nth_lookup, Hj in Hg. cbn in Hg. apply Hg.
Qed.

Lemma multi_mask t :
  ((TE_FUNCTION2 <=? TYPE_MASK t) && (TYPE_MASK t <=? TE_FUNCTION7))
  || ((TE_CLOSURE2 <=? TYPE_MASK t) && (TYPE_MASK t <=? TE_CLOSURE7)) = true ->
  callable_type t = true /\ (2 <= Z.to_nat (ARITY t))%nat.
Proof.
  destruct (mask_facts t) as (E1 & _ & _ & _ & E5). rewrite E1, E5.
  pose proof (mask_range t) as Hr. revert Hr. generalize (TYPE_MASK t). intros m Hm.
  pose proof (enum_mask (fun m => negb (((TE_FUNCTION2 <=? m) && (m <=? TE_FUNCTION7))
                || ((TE_CLOSURE2 <=? m) && (m <=? TE_CLOSURE7)))
                || (callable_type m && Nat.leb 2 (Z.to_nat (ARITY m))))
                eq_refl m Hm) as Hc.
  cbv beta in Hc. intros Hm'. rewrite Hm' in Hc. cbn [negb orb] in Hc.
  apply andb_true_iff in Hc as [Ha Hb]. apply Nat.leb_le in Hb. auto.
Qed.

Ltac tokok Ht := repeat first [exact Ht | apply next_token_ok | apply tok_ok_set_type_error].

Lemma base_step f : Pfun vars (parse_list f) -> Pfun vars (power f) ->
  Pargs vars (base_args f) -> Pfun vars (base (S f)).
Proof.
  intros Hl Hp Ha s h r s' h' Hw Ht Hr.
  rewrite base_S in Hr.
  cbv beta iota zeta delta [bindM get_state next_token_m returnM set_type_m new_expr free_m] in Hr.
  destruct (TYPE_MASK (type s) =? TOK_NUMBER) eqn:E1.
  { rewrite new_expr_h_none in Hr.
    destruct (malloc_fails (hnext h)) eqn:Em; cbv beta iota in Hr; injection Hr as <- <- <-.
    - apply alloc_fail_post; assumption.
    - cbn [set_u]. apply alloc_leaf_post;
        [exact Hw|exact Em|tokok Ht|solve_nc|reflexivity|right].
      unfold tree_good. rewrite forall_nodes_leaf by solve_nc.
      cbn -[bindings_pure]. rewrite orb_true_r. reflexivity. }
  destruct (TYPE_MASK (type s) =? TOK_VARIABLE) eqn:E2.
  { rewrite new_expr_h_none in Hr.
    destruct (malloc_fails (hnext h)) eqn:Em; cbv beta iota in Hr; injection Hr as <- <- <-.
    - apply alloc_fail_post; assumption.
    - cbn [set_u]. apply alloc_leaf_post;
        [exact Hw|exact Em|tokok Ht|solve_nc|reflexivity|right].
      unfold tree_good. rewrite forall_nodes_leaf by solve_nc.
      cbn -[bindings_pure]. destruct (bindings_pure vars) eqn:Eb; [|reflexivity].
      exfalso. destruct Ht as (_ & _ & Hp'). apply (proj1 (Hp' Eb)). apply Z.eqb_eq, E2. }
  destruct ((TYPE_MASK (type s) =? TE_FUNCTION0) || (TYPE_MASK (type s) =? TE_CLOSURE0)) eqn:E3.
  { rewrite new_expr_h_none in Hr.
    destruct (malloc_fails (hnext h)) eqn:Em; cbv beta iota in Hr.
    - injection Hr as <- <- <-. apply alloc_fail_post; assumption.
    - assert (Hcall : callable_type (type s) = true).
      { destruct (mask_facts (type s)) as (_ & _ & _ & _ & EC). rewrite EC.
        apply orb_true_iff in E3 as [E3|E3]; apply Z.eqb_eq in E3; rewrite E3; reflexivity. }
      assert (Har0 : Z.to_nat (ARITY (type s)) = 0%nat).
      { destruct (mask_facts (type s)) as [EA _]. rewrite EA.
        apply orb_true_iff in E3 as [E3|E3]; apply Z.eqb_eq in E3; rewrite E3; reflexivity. }
      destruct (prep_shape (type s) (su s) (context s) (hnext h)) as (ps & Eps & Hcs).
      rewrite Har0 in Eps. unfold prep in Eps. rewrite Eps in Hr.
      destruct (type (next_token s) =? TOK_OPEN);
        [destruct (negb (type (next_token (next_token s)) =? TOK_CLOSE))|];
        cbv beta in Hr; injection Hr as <- <- <-;
        (apply leaf_call_post; [exact Hw|exact Em|exact Ht|tokok Ht|exact Hcall|exact Hcs|left; exact Har0]). }
  destruct ((TYPE_MASK (type s) =? TE_FUNCTION1) || (TYPE_MASK (type s) =? TE_CLOSURE1)) eqn:E4.
  { rewrite new_expr_h_none in Hr.
    destruct (malloc_fails (hnext h)) eqn:Em; cbv beta iota in Hr.
    - injection Hr as <- <- <-. apply alloc_fail_post; assumption.
    - assert (Hcall : callable_type (type s) = true).
      { destruct (mask_facts (type s)) as (_ & _ & _ & _ & EC). rewrite EC.
        apply orb_true_iff in E4 as [E4|E4]; apply Z.eqb_eq in E4; rewrite E4; reflexivity. }
      assert (Har1 : Z.to_nat (ARITY (type s)) = 1%nat).
      { destruct (mask_facts (type s)) as [EA _]. rewrite EA.
        apply orb_true_iff in E4 as [E4|E4]; apply Z.eqb_eq in E4; rewrite E4; reflexivity. }
      destruct (prep_shape (type s) (su s) (context s) (hnext h)) as (ps & Eps & Hcs).
      rewrite Har1 in Eps. unfold prep in Eps. rewrite Eps in Hr.
      destruct (power f (next_token s) (mk_heap (S (hnext h)) ({[hnext h]} ∪ live h)))
        as [[[p s2] h2]|] eqn:Ep; [|discriminate].
      pose proof (Hp _ _ _ _ _ (wf_alloc h Hw) (next_token_ok vars s Ht) Ep) as Hq.
      destruct (callable_facts _ Hcall) as [Hcl Hfc].
      pose proof Hcs as (Hlen & Hnull & Hnc & Hptr).
      assert (Hk : hnext h ∉ live h) by (intros Hx; apply Hw in Hx; lia).
      destruct p as [p|]; cbv beta in Hr.
      + injection Hr as <- <- <-. cbn [set_param].
        destruct Hq as (Hw2 & Hn2 & Ht2 & Hl2 & Hfr2 & Hnf2 & Hok2 & Htr2).
        cbn [hnext live] in Hn2, Hl2, Hfr2, Hnf2.
        assert (Hp0 : ps !! 0%nat = Some PNull) by (apply Hnull; lia).
        assert (Hids : ids (Expr (hnext h) (type s) (su s) (<[0%nat := PExpr p]> ps))
                       = {[hnext h]} ∪ ids p).
        { rewrite ids_insert by (exact Hp0 || lia). rewrite ids_leaf by exact Hnc. reflexivity. }
        destruct (one_child_ok s (hnext h) ps p Ht Hcall Har1 Hcs Hok2) as [Hok Htr].
        split; [exact Hw2|]. split; [lia|]. split; [exact Ht2|].
        rewrite Hids. split; [|split; [|split; [|split]]].
        * rewrite Hl2. gset_eq.
        * intros x Hx. apply elem_of_union in Hx as [Hx|Hx];
            [apply elem_of_singleton in Hx; right; lia|].
          destruct (Hfr2 x Hx) as [Hx'|Hx']; [set_solver|right; lia].
        * intros j Hj. destruct (decide (j = hnext h)) as [->|]; [exact Em|apply Hnf2; cbn [hnext]; lia].
        * exact Hok.
        * destruct Htr2 as [Htr2|Htr2]; [left; exact Htr2|right; apply Htr, Htr2].
      + destruct Hq as (Hw2 & Hn2 & Ht2 & Hl2 & Hf2). cbn [hnext live] in Hn2, Hl2, Hf2.
        set (hf := te_free (Expr (hnext h) (type s) (su s) ps) h2) in Hr.
        injection Hr as <- <- <-.
        destruct (te_free_spec (Expr (hnext h) (type s) (su s) ps) h2) as [Lr Nr].
        fold hf in Lr, Nr. rewrite ids_leaf in Lr by exact Hnc.
        split; [apply (wf_free _ (Expr (hnext h) (type s) (su s) ps)), Hw2|].
        rewrite Nr. split; [lia|split; [exact Ht2|]]. split.
        * rewrite Lr, Hl2. gset_eq.
        * destruct Hf2 as [j [Hj Hm]]. exists j. rewrite Nr. cbn [hnext] in Hj. split; [lia|exact Hm]. }
  destruct (((TE_FUNCTION2 <=? TYPE_MASK (type s)) && (TYPE_MASK (type s) <=? TE_FUNCTION7))
            || ((TE_CLOSURE2 <=? TYPE_MASK (type s)) && (TYPE_MASK (type s) <=? TE_CLOSURE7))) eqn:E5.
  { destruct (multi_mask _ E5) as [Hcall H2].
    rewrite new_expr_h_none in Hr.
    destruct (malloc_fails (hnext h)) eqn:Em; cbv beta iota in Hr.
    - injection Hr as <- <- <-. apply alloc_fail_post; assumption.
    - destruct (prep_shape (type s) (su s) (context s) (hnext h)) as (ps & Eps & Hcs).
      unfold prep in Eps. rewrite Eps in Hr.
      assert (Hk : hnext h ∉ live h) by (intros Hx; apply Hw in Hx; lia).
      destruct (negb (type (next_token s) =? TOK_OPEN)) eqn:Eo; cbv beta in Hr.
      { injection Hr as <- <- <-. apply leaf_call_post;
          [exact Hw|exact Em|exact Ht|tokok Ht|exact Hcall|exact Hcs|right; reflexivity]. }
      destruct (base_args f (Z.to_nat (ARITY (type s))) 0 (Expr (hnext h) (type s) (su s) ps)
                  (next_token s) (mk_heap (S (hnext h)) ({[hnext h]} ∪ live h)))
        as [[[a s2] h2]|] eqn:Ea; [|discriminate].
      pose proof Hcs as (Hlen & Hnull & Hnc & _).
      assert (Hpre : args_pre vars (Z.to_nat (ARITY (type s))) 0 (Expr (hnext h) (type s) (su s) ps)).
      { destruct (callable_facts _ Hcall) as [_ Hfc].
        split; [symmetry; exact Hfc|split; [reflexivity|split; [exact Hlen|split; [lia|split]]]].
        - intros j Hj; lia.
        - intros j Hj. rewrite nth_lookup, Hnull by lia. reflexivity. }
      assert (Hsub : ids (Expr (hnext h) (type s) (su s) ps)
                     ⊆ live (mk_heap (S (hnext h)) ({[hnext h]} ∪ live h)))
        by (rewrite ids_leaf by exact Hnc; cbn [live]; set_solver).
      pose proof (Ha _ _ _ _ _ _ _ _ (wf_alloc h Hw) (next_token_ok vars s Ht) Hsub Hpre Ea) as Hq.
      destruct a as [[ret' i']|]; cbv beta in Hr.
      + pose proof Hq as (_ & _ & Ht2 & _).
        destruct (negb (type s2 =? TOK_CLOSE) || negb (i' =? Z.to_nat (ARITY (type s)) - 1)%nat) eqn:Ec;
          cbv beta in Hr; injection Hr as <- <- <-.
        * eapply multi_call_post; [exact Hw|exact Em|exact Ht|tokok Ht2|exact Hcall|exact Hcs|exact Hq|].
          left; reflexivity.
        * eapply multi_call_post; [exact Hw|exact Em|exact Ht|tokok Ht2|exact Hcall|exact Hcs|exact Hq|].
          right. apply orb_false_iff in Ec as [Ec1 Ec2].
          apply negb_false_iff, Z.eqb_eq in Ec1. apply negb_false_iff, Nat.eqb_eq in Ec2.
          split; [rewrite Ec1; discriminate|split; [exact Ec2|lia]].
      + injection Hr as <- <- <-.
        destruct Hq as (Hw2 & Hn2 & Ht2 & Hl2 & Hf2). cbn [hnext live] in Hn2, Hl2.
        rewrite ids_leaf in Hl2 by exact Hnc.
        split; [exact Hw2|split; [lia|split; [exact Ht2|split]]].
        * rewrite Hl2. gset_eq.
        * destruct Hf2 as [j [Hj Hm]]. exists j. cbn [hnext] in Hj. split; [lia|exact Hm]. }
  destruct (TYPE_MASK (type s) =? TOK_OPEN) eqn:E6.
  { destruct (parse_list f (next_token s) h) as [[[a s1] h1]|] eqn:El; [|discriminate].
    pose proof (Hl _ _ _ _ _ Hw (next_token_ok vars s Ht) El) as Hq.
    pose proof Hq as (_ & _ & Ht1 & _).
    destruct a as [ret|]; cbv beta in Hr.
    - destruct (negb (type s1 =? TOK_CLOSE)) eqn:Ec; cbv beta in Hr; injection Hr as <- <- <-.
      + eapply post_retok; [exact Hq|tokok Ht1|left; reflexivity].
      + eapply post_retok; [exact Hq|tokok Ht1|right].
        apply negb_false_iff, Z.eqb_eq in Ec. rewrite Ec. discriminate.
    - injection Hr as <- <- <-. exact Hq. }
  rewrite new_expr_h_none in Hr.
  destruct (malloc_fails (hnext h)) eqn:Em; cbv beta iota in Hr; injection Hr as <- <- <-.
  - apply alloc_fail_post; assumption.
  - cbn [set_u]. apply alloc_leaf_post;
      [exact Hw|exact Em|tokok Ht|solve_nc|reflexivity|left; reflexivity].
Qed.

Ltac cond_tac := intros ?s0 ?E ?E'; cbv beta in E; rewrite E' in E; vm_compute in E; discriminate E.

Lemma parse_inv f :
  Pfun vars (parse_list f) /\ Ploop vars (list_loop f) /\ Pfun vars (expr f) /\
  Ploop vars (expr_loop f) /\ Pfun vars (term f) /\ Ploop vars (term_loop f) /\
  Pfun vars (factor f) /\ Ploop vars (factor_loop f) /\ Pfun vars (power f) /\
  Pfun vars (base f) /\ Pargs vars (base_args f).
Proof.
  induction f as [|f IH].
  - (* With no fuel every routine stops at once. *)
    repeat split; intros;
      match goal with Hr : _ = Some _ |- _ => cbn in Hr; discriminate Hr end.
  - destruct IH as (Hl & Hll & He & Hel & Ht & Htl & Hf & Hfl & Hp & Hb & Ha).
    split; [intros s h r s' h' Hw Hs Hr; rewrite parse_list_S in Hr;
            exact (head_post _ _ s h r s' h' He Hll Hw Hs Hr)|].
    split; [intros ret s h r s' h' Hw Hs Hsub Hok Htr Hr; rewrite list_loop_S in Hr;
            exact (loop_post (fun s0 => type s0 =? TOK_SEP) (fun _ => UFunction (Code "comma"))
                     _ _ ret s h r s' h' He Hll ltac:(cond_tac) Hw Hs Hsub Hok Htr Hr)|].
    split; [intros s h r s' h' Hw Hs Hr; rewrite expr_S in Hr;
            exact (head_post _ _ s h r s' h' Ht Hel Hw Hs Hr)|].
    split; [intros ret s h r s' h' Hw Hs Hsub Hok Htr Hr; rewrite expr_loop_S in Hr;
            exact (loop_post (fun s0 => (type s0 =? TOK_INFIX)
                       && (function_is s0 (Code "add") || function_is s0 (Code "sub")))
                     (fun s0 => su s0)
                     _ _ ret s h r s' h' Ht Hel ltac:(cond_tac) Hw Hs Hsub Hok Htr Hr)|].
    split; [intros s h r s' h' Hw Hs Hr; rewrite term_S in Hr;
            exact (head_post _ _ s h r s' h' Hf Htl Hw Hs Hr)|].
    split; [intros ret s h r s' h' Hw Hs Hsub Hok Htr Hr; rewrite term_loop_S in Hr;
            exact (loop_post (fun s0 => (type s0 =? TOK_INFIX)
                       && (function_is s0 (Code "mul") || function_is s0 (Code "divide")
                           || function_is s0 (Code "fmod")))
                     (fun s0 => su s0)
                     _ _ ret s h r s' h' Hf Htl ltac:(cond_tac) Hw Hs Hsub Hok Htr Hr)|].
    split; [intros s h r s' h' Hw Hs Hr; rewrite factor_S in Hr;
            exact (head_post _ _ s h r s' h' Hp Hfl Hw Hs Hr)|].
    split; [intros ret s h r s' h' Hw Hs Hsub Hok Htr Hr; rewrite factor_loop_S in Hr;
            exact (loop_post (fun s0 => (type s0 =? TOK_INFIX) && function_is s0 (Code "pow"))
                     (fun s0 => su s0)
                     _ _ ret s h r s' h' Hp Hfl ltac:(cond_tac) Hw Hs Hsub Hok Htr Hr)|].
    split; [exact (power_step f Hb)|].
    split; [exact (base_step f Hl Hp Ha)|].
    exact (base_args_step f He Ha).
Qed.

End Inv.

(* ------------------------------------------------------------------ *)
(** ** [te_compile] *)

Section Compile.
Context {D : Type} `{Host D}.

Lemma forall_nodes_mono (p q : te_expr D -> bool) :
  (forall m, p m = true -> q m = true) ->
  forall n, forall_nodes p n = true -> forall_nodes q n = true.
Proof.
  intros Hpq n. induction n as [id t u ps Hps] using te_expr_ind'.
  rewrite !forall_nodes_true. intros [Hr Hc]. split; [apply Hpq, Hr|].
  intros j c Hj Hjl. rewrite Forall_lookup in Hps. specialize (Hps j (PExpr c) Hj).
  cbn in Hps. apply Hps, (Hc j c Hj Hjl).
Qed.

Lemma forall_nodes_and (p q : te_expr D -> bool) n :
  forall_nodes p n = true -> forall_nodes q n = true ->
  forall_nodes (fun m => p m && q m) n = true.
Proof.
  induction n as [id t u ps Hps] using te_expr_ind'.
  rewrite !forall_nodes_true. intros [Hp Hc] [Hq Hd]. split; [rewrite Hp, Hq; reflexivity|].
  intros j c Hj Hjl. rewrite Forall_lookup in Hps. specialize (Hps j (PExpr c) Hj).
  cbn in Hps. apply Hps; [apply (Hc j c Hj Hjl)|apply (Hd j c Hj Hjl)].
Qed.

Lemma te_eval_const (n : te_expr D) : node_type n = TE_CONSTANT -> te_eval n = union_value (node_u n).
Proof. destruct n as [k t u ps]. cbn [node_type node_u]. intros ->. reflexivity. Qed.

Lemma te_compile_root fuel expression vars h :
  te_compile fuel expression vars h =
  match parse_root fuel expression vars h with
  | None => None
  | Some (None, _, h') => Some (None, -1, h')
  | Some (Some root, s', h') =>
      if negb (type s' =? TOK_END) then
        let e := Z.of_nat (next s') in
        Some (None, (if e =? 0 then 1 else e), te_free root h')
      else
        let '(root', h'') := optimize root h' in
        Some (Some root', 0, h'')
  end.
Proof. reflexivity. Qed.

Lemma parse_root_post fuel expression vars h r s' h' :
  wf_heap h -> parse_root fuel expression vars h = Some (r, s', h') ->
  post vars ∅ h r s' h'.
Proof.
  intros Hw Hr. exact (proj1 (parse_inv vars fuel) _ _ _ _ _ Hw
                         (next_token_ok vars _ (tok_ok_init vars expression)) Hr).
Qed.

End Compile.

(** C1 (corrected).  When every node of the tree [list] parsed is a
    constant or a node whose kind carries [TE_FLAG_PURE] (no variable
    reference, and no call of a function or closure the caller did not
    mark pure), the tree [te_compile] returns is one [TE_CONSTANT] node,
    whose stored value is what [te_eval] gives on the parsed tree.  The
    bindings the input does not use do not matter.  Without the condition
    on calls the claim fails: a call to an impure binding is no variable
    reference, yet it is not folded (see the counterexample below). *)
Theorem compile_constant_folding {D} `{Host D} fuel expression vars h root' err h' :
  wf_heap h ->
  te_compile fuel expression vars h = Some (Some root', err, h') ->
  exists root s1 h1, parse_root fuel expression vars h = Some (Some root, s1, h1) /\
    (forall_nodes pure_or_const root = true ->
     node_type root' = TE_CONSTANT /\ union_value (node_u root') = te_eval root).
Proof.
  intros Hw Hc. rewrite te_compile_root in Hc.
  destruct (parse_root fuel expression vars h) as [[[[root|] s1] h1]|] eqn:Ep;
    try discriminate.
  destruct (negb (type s1 =? TOK_END)) eqn:Ee; [discriminate|].
  destruct (optimize root h1) as [r2 h2] eqn:Eo. injection Hc as <- _ _.
  exists root, s1, h1. split; [reflexivity|]. intros Hpc.
  destruct (parse_root_post _ _ _ _ _ _ _ Hw Ep) as (_ & _ & _ & _ & _ & _ & _ & Htr).
  apply negb_false_iff, Z.eqb_eq in Ee.
  destruct Htr as [Htr|Htr]; [rewrite Ee in Htr; discriminate|].
  assert (Hsf : forall_nodes slots_filled root = true).
  { revert Htr. unfold tree_good. apply forall_nodes_mono. intros m Hm.
    apply andb_true_iff in Hm. apply Hm. }
  assert (Hf : foldable root = true) by exact (forall_nodes_and _ _ root Hsf Hpc).
  destruct (optimize_sound root h1) as [Hev Hty]. rewrite Eo in Hev, Hty. cbn [fst] in Hev, Hty.
  specialize (Hty Hf). split; [exact Hty|]. rewrite <- Hev. symmetry. apply te_eval_const, Hty.
Qed.

Lemma compile_constant_folding_witness :
  wf_heap h0 /\
  exists root' h', te_compile 20 "2*3" (mk_var "x" (Data 7) TE_VARIABLE NullPtr :: fvars) h0 = Some (Some root', 0, h') /\
    exists root s1 h1, parse_root 20 "2*3" (mk_var "x" (Data 7) TE_VARIABLE NullPtr :: fvars) h0 = Some (Some root, s1, h1) /\
    forall_nodes pure_or_const root = true /\
    node_type root' = TE_CONSTANT /\ union_value (node_u root') = te_eval root.
Proof.
  assert (Hw : wf_heap h0) by (intros x Hx; cbn in Hx; set_solver).
  split; [exact Hw|].
  destruct (te_compile 20 "2*3" (mk_var "x" (Data 7) TE_VARIABLE NullPtr :: fvars) h0) as [[[[root'|] err] h']|] eqn:E;
    try (vm_compute in E; discriminate E).
  assert (Herr : err = 0) by (vm_compute in E; congruence). subst err.
  exists root', h'. split; [reflexivity|].
  destruct (compile_constant_folding 20 "2*3" (mk_var "x" (Data 7) TE_VARIABLE NullPtr :: fvars) h0 root' 0 h' Hw E)
    as (root & s1 & h1 & Ep & G).
  assert (Hpc : forall_nodes pure_or_const root = true)
    by (vm_compute in Ep; injection Ep as <- _ _; reflexivity).
  exists root, s1, h1. split; [exact Ep|split; [exact Hpc|exact (G Hpc)]].
Defined.

(** The claim as stated fails for an input with no variable reference:
    "f" calls the caller's impure [TE_FUNCTION0] binding, and the tree
    [te_compile] returns is that call node, not a constant. *)
Lemma compile_constant_folding_counterexample :
  exists root' h', te_compile 10 "f" fvars h0 = Some (Some root', 0, h') /\
    node_type root' <> TE_CONSTANT.
Proof.
  destruct (te_compile 10 "f" fvars h0) as [[[[root'|] err] h']|] eqn:E;
    try (vm_compute in E; discriminate E).
  vm_compute in E. injection E as <- <- <-. eexists _, _. split; [reflexivity|].
  cbn. discriminate.
Qed.



(** C9.  In every tree [list] returns, each closure node of arity [N]
    holds in slot [N], the one just past its last argument, the context
    pointer of a caller binding of its kind whose function is the node's
    function ([closure_slot_ok]); and [te_eval] on a closure node of
    arity [N] calls its function with exactly the pointer in slot [N]
    before the values of the slots [0 .. N-1]. *)
Theorem closure_context_slot {D} `{Host D} fuel expression vars h root s1 h1 :
  wf_heap h -> parse_root fuel expression vars h = Some (Some root, s1, h1) ->
  forall_nodes (closure_slot_ok vars) root = true /\
  (forall k t (u : uval D) ps, is_closure_node (Expr k t u ps) = true ->
   te_eval (Expr k t u ps) =
   call_closure (union_function u) (nth (Z.to_nat (ARITY t)) ps PNull)
     (map (fun i => nth i (evals_go ps) NAN) (seq 0 (Z.to_nat (ARITY t))))).
Proof.
  intros Hw Hr. split.
  - destruct (parse_root_post _ _ _ _ _ _ _ Hw Hr) as (_ & _ & _ & _ & _ & _ & Hok & _).
    exact Hok.
  - intros k t u ps Hc. rewrite te_eval_Expr. unfold eval_node. cbv zeta.
    unfold is_closure_node in Hc. cbn [node_type] in Hc.
    apply andb_true_iff in Hc as [A B]. apply Z.leb_le in A, B.
    unfold TE_CONSTANT, TE_VARIABLE, TE_FUNCTION0, TE_FUNCTION7, TE_CLOSURE0, TE_CLOSURE7 in *.
    destruct (Z.eqb_spec (TYPE_MASK t) 1); [lia|].
    destruct (Z.eqb_spec (TYPE_MASK t) 0); [lia|].
    destruct (Z.leb_spec 8 (TYPE_MASK t)), (Z.leb_spec (TYPE_MASK t) 15); try lia; cbn [andb].
    destruct (Z.leb_spec 16 (TYPE_MASK t)), (Z.leb_spec (TYPE_MASK t) 23); try lia.
    reflexivity.
Qed.

Lemma closure_context_slot_witness :
  wf_heap h0 /\
  exists root s1 h1, parse_root 20 "c(1)" cvars h0 = Some (Some root, s1, h1) /\
    is_closure_node root = true /\ nth 1 (parameters root) PNull = PPtr (Data 9) /\
    forall_nodes (closure_slot_ok cvars) root = true.
Proof.
  assert (Hw : wf_heap h0) by (intros x Hx; cbn in Hx; set_solver).
  split; [exact Hw|].
  destruct (parse_root 20 "c(1)" cvars h0) as [[[[root|] s1] h1]|] eqn:E;
    try (vm_compute in E; discriminate E).
  exists root, s1, h1. split; [reflexivity|].
  assert (Hroot : is_closure_node root = true /\ nth 1 (parameters root) PNull = PPtr (Data 9))
    by (vm_compute in E; injection E as <- _ _; split; reflexivity).
  split; [exact (proj1 Hroot)|split; [exact (proj2 Hroot)|]].
  exact (proj1 (closure_context_slot 20 "c(1)" cvars h0 root s1 h1 Hw E)).
Defined.

(* ================================================================== *)
(** * Further properties of the lexer, the parser, [optimize] and [te_interp] *)

Section Lexer_facts.
Context {D : Type} `{Host D}.

Lemma count_while_le p t : (count_while p t <= String.length t)%nat.
Proof. induction t as [|c t IH]; cbn; [lia|destruct (p c); cbn; lia]. Qed.

Lemma length_substring_le n m s : (String.length (String.substring n m s) <= m)%nat.
Proof.
  revert n m; induction s as [|c s IH]; intros n m; destruct n, m; cbn; try lia.
  - specialize (IH 0%nat m). lia.
  - apply IH.
  - apply IH.
Qed.

Lemma length_suffix_le s i : (String.length (suffix s i) <= String.length s - i)%nat.
Proof. apply length_substring_le. Qed.

Lemma exp_len_le marker t : (exp_len marker t <= String.length t)%nat.
Proof.
  destruct t as [|c t1]; cbn; [lia|]. destruct (marker c); [|lia].
  destruct t1 as [|c' t2]; cbn.
  - lia.
  - destruct (Ascii.eqb c' "+" || Ascii.eqb c' "-").
    + pose proof (count_while_le is_digit t2). destruct (count_while is_digit t2 =? 0)%nat; cbn; lia.
    + pose proof (count_while_le is_digit (String c' t2)).
      destruct (count_while is_digit (String c' t2) =? 0)%nat; cbn in *; lia.
Qed.

Lemma suffix_length_eq s i : (i <= String.length s)%nat ->
  String.length (suffix s i) = (String.length s - i)%nat.
Proof.
  unfold suffix. revert i. induction s as [|c s IH]; intros [|i] Hi; cbn in *; try lia.
  - f_equal. specialize (IH 0%nat ltac:(lia)). rewrite Nat.sub_0_r in IH. exact IH.
  - apply IH. lia.
Qed.

Lemma mantissa_len_le isd t : (fst (mantissa_len isd t) <= String.length t)%nat.
Proof.
  unfold mantissa_len. pose proof (count_while_le isd t) as Hd1.
  pose proof (suffix_length_eq t (count_while isd t) Hd1) as Hl.
  destruct (suffix t (count_while isd t)) as [|c t2]; cbn [fst]; [lia|].
  destruct (Ascii.eqb c "."); cbn [fst]; [|lia].
  pose proof (count_while_le isd t2). cbn in Hl. lia.
Qed.

Lemma decimal_len_le t : (decimal_len t <= String.length t)%nat.
Proof.
  unfold decimal_len. pose proof (mantissa_len_le is_digit t) as Hm.
  destruct (mantissa_len is_digit t) as [m nd]. cbn [fst] in Hm.
  destruct (nd =? 0)%nat; [lia|].
  pose proof (exp_len_le is_e (suffix t m)). pose proof (length_suffix_le t m). lia.
Qed.

Lemma strtod_len_le t : (strtod_len t <= String.length t)%nat.
Proof.
  assert (Hx : forall t2, Nat.le (let '(m, nd) := mantissa_len is_xdigit t2 in
            if (nd =? 0)%nat then 1%nat else (2 + m + exp_len is_p (suffix t2 m))%nat)
            (S (S (String.length t2)))).
  { intros t2. pose proof (mantissa_len_le is_xdigit t2) as Hm.
    destruct (mantissa_len is_xdigit t2) as [m nd]. cbn [fst] in Hm.
    destruct (nd =? 0)%nat; [lia|].
    pose proof (exp_len_le is_p (suffix t2 m)). pose proof (length_suffix_le t2 m). lia. }
  unfold strtod_len.
  destruct t as [|c [|x t2]]; [apply decimal_len_le| |];
    destruct c as [[] [] [] [] [] [] [] []]; try apply decimal_len_le.
  destruct (Ascii.eqb x "x" || Ascii.eqb x "X"); [apply (Hx t2)|apply decimal_len_le].
Qed.

Lemma cur_lt (s : @state D) : Ascii.eqb (cur s) NUL = false -> (next s < String.length (start s))%nat.
Proof.
  intros Hc. destruct (Nat.lt_ge_cases (next s) (String.length (start s))) as [Hl|Hl]; [exact Hl|].
  unfold cur, char_at in Hc. rewrite get_past in Hc by exact Hl. discriminate.
Qed.

Lemma resolved_token_frame (s : @state D) v :
  start (resolved_token s v) = start s /\ next (resolved_token s v) = next s /\
  lookup (resolved_token s v) = lookup s.
Proof.
  unfold resolved_token.
  repeat match goal with |- context [if ?b then _ else _] => destruct b end;
    cbn; auto.
Qed.

Lemma ident_len_pos (s : @state D) : is_alpha (cur s) = true ->
  (1 <= count_while is_ident_char (suffix (start s) (next s)))%nat.
Proof.
  intros Ha. pose proof (char_at_suffix (start s) (next s) 0) as Hc.
  rewrite Nat.add_0_r in Hc. fold (cur s) in Hc.
  destruct (suffix (start s) (next s)) as [|c t]; cbn in Hc |- *.
  - rewrite <- Hc in Ha. vm_compute in Ha. discriminate.
  - subst c. unfold is_ident_char. rewrite Ha. cbn. lia.
Qed.

(** What one pass of the lexer does to the cursor. *)
Lemma next_token_step_frame (s : @state D) :
  start (next_token_step s) = start s /\ lookup (next_token_step s) = lookup s /\
  (next s <= next (next_token_step s))%nat /\
  (Ascii.eqb (cur s) NUL = false -> (next (next_token_step s) <= String.length (start s))%nat) /\
  (type (next_token_step s) = TOK_NULL ->
   (next s < String.length (start s))%nat /\ (next s < next (next_token_step s))%nat).
Proof.
  unfold next_token_step. cbv zeta.
  destruct (Ascii.eqb (cur s) NUL) eqn:E0.
  { cbn. split; [reflexivity|split; [reflexivity|split; [lia|split; [discriminate|]]]].
    intros E. vm_compute in E. discriminate. }
  pose proof (cur_lt s E0) as Hlt.
  pose proof (length_suffix_le (start s) (next s)) as Hsl.
  destruct (is_digit (cur s) || Ascii.eqb (cur s) ".") eqn:E1.
  { cbn. pose proof (strtod_len_le (suffix (start s) (next s))).
    split; [reflexivity|split; [reflexivity|split; [lia|split; [intros _; lia|]]]].
    intros E. vm_compute in E. discriminate. }
  destruct (is_alpha (cur s)) eqn:E2.
  { pose proof (ident_len_pos s E2) as Hp.
    pose proof (count_while_le is_ident_char (suffix (start s) (next s))) as Hle.
    set (s1 := set_next s (next s + count_while is_ident_char (suffix (start s) (next s)))%nat).
    assert (F : start s1 = start s /\ lookup s1 = lookup s /\
                next s1 = (next s + count_while is_ident_char (suffix (start s) (next s)))%nat)
      by (split; [reflexivity|split; reflexivity]).
    destruct (match find_lookup (lookup s) (start s) (next s) _ with
              | Some v => Some v | None => find_builtin _ _ _ end) as [v|].
    - destruct (resolved_token_frame s1 v) as (A & B & C). rewrite A, B, C.
      destruct F as (F1 & F2 & F3). rewrite F1, F2, F3.
      split; [reflexivity|split; [reflexivity|split; [lia|split; [intros _; lia|intros _; lia]]]].
    - cbn. split; [reflexivity|split; [reflexivity|split; [lia|split; [intros _; lia|intros _; lia]]]]. }
  repeat match goal with |- context [if ?b then _ else _] => destruct b end;
    cbn; (split; [reflexivity|split; [reflexivity|split; [lia|split; [intros _; lia|intros _; lia]]]]).
Qed.

Lemma next_token_loop_fuel f f' (s : @state D) :
  (String.length (start s) - next s < f)%nat -> (String.length (start s) - next s < f')%nat ->
  next_token_loop f s = next_token_loop f' s.
Proof.
  revert f' s. induction f as [|f IH]; intros [|f'] s Hf Hf'; try lia.
  cbn [next_token_loop].
  destruct (type (next_token_step s) =? TOK_NULL) eqn:E; [|reflexivity].
  apply Z.eqb_eq in E.
  destruct (next_token_step_frame s) as (A & _ & _ & _ & P).
  destruct (P E) as [P1 P2]. apply IH; rewrite A; lia.
Qed.

Lemma next_token_loop_frame f (s : @state D) :
  start (next_token_loop f s) = start s /\ lookup (next_token_loop f s) = lookup s /\
  (next s <= next (next_token_loop f s))%nat /\
  ((next s <= String.length (start s))%nat ->
   (next (next_token_loop f s) <= String.length (start s))%nat).
Proof.
  revert s. induction f as [|f IH]; intros s; cbn [next_token_loop]; [auto|].
  destruct (next_token_step_frame s) as (A & B & C & Dd & _).
  destruct (IH (next_token_step s)) as (A' & B' & C' & D').
  rewrite A, B in *.
  destruct (type (next_token_step s) =? TOK_NULL).
  - split; [exact A'|split; [exact B'|split; [lia|]]].
    intros Hle. apply D'. destruct (Ascii.eqb (cur s) NUL) eqn:E.
    + unfold next_token_step in *. rewrite E in *. cbn in *. exact Hle.
    + apply Dd. reflexivity.
  - split; [exact A|split; [exact B|split; [exact C|]]].
    intros Hle. destruct (Ascii.eqb (cur s) NUL) eqn:E.
    + unfold next_token_step. rewrite E. cbn. exact Hle.
    + apply Dd. reflexivity.
Qed.

Lemma resolved_token_type (s : @state D) v :
  type (resolved_token s v) = TOK_VARIABLE \/
  (type (resolved_token s v) = var_type v /\
   (TE_FUNCTION0 <= TYPE_MASK (var_type v) <= TE_CLOSURE7)) \/
  type (resolved_token s v) = type s.
Proof.
  unfold resolved_token.
  destruct (TYPE_MASK (var_type v) =? TE_VARIABLE); [left; reflexivity|].
  destruct ((TE_CLOSURE0 <=? TYPE_MASK (var_type v)) && (TYPE_MASK (var_type v) <=? TE_CLOSURE7)) eqn:E1.
  { right; left. split; [reflexivity|]. apply andb_true_iff in E1 as [A B].
    apply Z.leb_le in A, B. unfold TE_CLOSURE0, TE_FUNCTION0 in *. lia. }
  destruct ((TE_FUNCTION0 <=? TYPE_MASK (var_type v)) && (TYPE_MASK (var_type v) <=? TE_FUNCTION7)) eqn:E2.
  { right; left. split; [reflexivity|]. apply andb_true_iff in E2 as [A B].
    apply Z.leb_le in A, B. unfold TE_FUNCTION7, TE_CLOSURE7 in *. lia. }
  right; right. reflexivity.
Qed.


Lemma next_token_step_end (s : @state D) :
  type s = TOK_NULL -> type (next_token_step s) = TOK_END ->
  next_token_step s = set_type s TOK_END /\ cur s = NUL.
Proof.
  intros Hn. unfold next_token_step. cbv zeta.
  destruct (Ascii.eqb (cur s) NUL) eqn:E0.
  { intros _. split; [reflexivity|apply Ascii.eqb_eq, E0]. }
  destruct (is_digit (cur s) || Ascii.eqb (cur s) ".").
  { intros E. vm_compute in E. discriminate. }
  destruct (is_alpha (cur s)).
  - destruct (match find_lookup (lookup s) (start s) (next s) _ with
              | Some v => Some v | None => find_builtin _ _ _ end) as [v|].
    + destruct (resolved_token_type
                  (set_next s (next s + count_while is_ident_char (suffix (start s) (next s))))%nat v)
        as [E|[[E R]|E]]; rewrite E.
      * intros E'. vm_compute in E'. discriminate.
      * intros E'. rewrite E' in R. change (TYPE_MASK TOK_END) with 26 in R.
        unfold TE_FUNCTION0, TE_CLOSURE7 in R. lia.
      * cbn. rewrite Hn. intros E'. vm_compute in E'. discriminate.
    + intros E. vm_compute in E. discriminate.
  - repeat match goal with |- context [if ?b then _ else _] => destruct b end;
      cbn; try rewrite Hn; intros E; vm_compute in E; discriminate.
Qed.

Lemma next_token_loop_end f (s : @state D) :
  type s = TOK_NULL -> type (next_token_loop f s) = TOK_END ->
  exists s1, next_token_loop f s = set_type s1 TOK_END /\ cur s1 = NUL /\
             start s1 = start s /\ lookup s1 = lookup s.
Proof.
  revert s. induction f as [|f IH]; intros s Hn; cbn [next_token_loop].
  - rewrite Hn. intros E. vm_compute in E. discriminate.
  - destruct (type (next_token_step s) =? TOK_NULL) eqn:E.
    + apply Z.eqb_eq in E. intros Hend. destruct (IH _ E Hend) as (s1 & A & B & C & Dd).
      destruct (next_token_step_frame s) as (F1 & F2 & _).
      exists s1. split; [exact A|split; [exact B|split; congruence]].
    + intros Hend. destruct (next_token_step_end s Hn Hend) as [A B].
      exists s. split; [exact A|split; [exact B|split; reflexivity]].
Qed.

Lemma decimal_len_pos t : is_digit (char_at t 0) = true -> (1 <= decimal_len t)%nat.
Proof.
  intros Hd. unfold decimal_len, mantissa_len.
  assert (H1 : (1 <= count_while is_digit t)%nat).
  { destruct t as [|c t]; cbn in Hd |- *; [vm_compute in Hd; discriminate|rewrite Hd; lia]. }
  destruct (suffix t (count_while is_digit t)) as [|c t2].
  - destruct (count_while is_digit t =? 0)%nat eqn:E; [apply Nat.eqb_eq in E; lia|lia].
  - destruct (Ascii.eqb c ".").
    + destruct (count_while is_digit t + count_while is_digit t2 =? 0)%nat eqn:E;
        [apply Nat.eqb_eq in E; lia|lia].
    + destruct (count_while is_digit t =? 0)%nat eqn:E; [apply Nat.eqb_eq in E; lia|lia].
Qed.

Lemma strtod_len_pos t : is_digit (char_at t 0) = true -> (1 <= strtod_len t)%nat.
Proof.
  intros Hd. unfold strtod_len.
  destruct t as [|c [|x t2]]; [apply decimal_len_pos, Hd| |];
    destruct c as [[] [] [] [] [] [] [] []]; try (apply decimal_len_pos, Hd).
  destruct (Ascii.eqb x "x" || Ascii.eqb x "X"); [|apply decimal_len_pos, Hd].
  destruct (mantissa_len is_xdigit t2) as [m nd]. destruct (nd =? 0)%nat; lia.
Qed.

Lemma substring_all t : String.substring 0 (String.length t) t = t.
Proof. induction t as [|c t IH]; cbn; [reflexivity|rewrite IH; reflexivity]. Qed.

Lemma strtod_len_dot t : char_at t 0 = "."%char -> is_digit (char_at t 1) = false ->
  strtod_len t = 0%nat.
Proof.
  intros H0 H1. destruct t as [|c t]; [vm_compute in H0; discriminate|].
  cbn in H0. subst c. unfold strtod_len.
  change (decimal_len (String "." t) = 0%nat). unfold decimal_len, mantissa_len.
  change (count_while is_digit (String "." t)) with 0%nat.
  unfold suffix. rewrite Nat.sub_0_r, substring_all. cbn [Ascii.eqb].
  replace (count_while is_digit t) with 0%nat; [reflexivity|].
  destruct t as [|c t]; [reflexivity|]. cbn in H1 |- *. rewrite H1. reflexivity.
Qed.

Lemma next_token_step_nul (s : @state D) : cur s = NUL -> next_token_step s = set_type s TOK_END.
Proof. intros Hc. unfold next_token_step. rewrite Hc. reflexivity. Qed.

Lemma next_token_continue (s s1 : @state D) :
  next_token_step (set_type s TOK_NULL) = set_type s1 TOK_NULL -> next_token s = next_token s1.
Proof.
  intros E. destruct (next_token_step_frame (set_type s TOK_NULL)) as (A & _ & _ & _ & P).
  rewrite E in A, P. cbn in A, P. destruct (P eq_refl) as [P1 P2].
  unfold next_token at 1. cbn [next_token_loop]. rewrite E. cbn [type].
  replace (set_type (set_type s1 TOK_NULL) TOK_NULL) with (set_type s1 TOK_NULL)
    by (destruct s1; reflexivity).
  unfold next_token. apply next_token_loop_fuel; cbn; rewrite A; lia.
Qed.

End Lexer_facts.

Ltac reduce_ifs := repeat match goal with |- context [if ?b then _ else _] =>
  let v := eval vm_compute in b in
  lazymatch v with true => change b with true | false => change b with false end; cbv beta iota end.

Section Lexer_extras.
Context {D : Type} `{Host D}.

(** [next_token] keeps the input and the bindings, and leaves the cursor
    where it was or further on, never beyond the terminating NUL. *)
Theorem next_token_cursor (s : @state D) :
  (next s <= String.length (start s))%nat ->
  start (next_token s) = start s /\ lookup (next_token s) = lookup s /\
  (next s <= next (next_token s) <= String.length (start s))%nat.
Proof.
  intros Hle. unfold next_token.
  destruct (next_token_loop_frame (S (String.length (start s) - next s)) (set_type s TOK_NULL))
    as (A & B & C & Dd).
  cbn [start lookup next set_type] in A, B, C, Dd.
  split; [exact A|split; [exact B|split; [exact C|apply Dd, Hle]]].
Qed.


(** Once [next_token] reports [TOK_END] the cursor is on the terminating
    NUL, and calling it again returns the same state. *)
Theorem next_token_end_stable (s : @state D) :
  type (next_token s) = TOK_END ->
  cur (next_token s) = NUL /\ next_token (next_token s) = next_token s.
Proof.
  intros He. unfold next_token in He.
  destruct (next_token_loop_end _ (set_type s TOK_NULL) eq_refl He) as (s1 & E & Hc & _).
  fold (next_token s) in E. rewrite E. split; [exact Hc|].
  unfold next_token at 1. cbn [next_token_loop].
  rewrite next_token_step_nul by exact Hc. cbn. destruct s1; reflexivity.
Qed.


(** On a character that starts no token (no digit, '.', letter, operator,
    parenthesis, comma or blank), [next_token] consumes that one character
    and reports [TOK_ERROR]. *)
Theorem next_token_unknown_char (s : @state D) :
  lexer_char (cur s) = false -> next_token s = set_type (set_next s (S (next s))) TOK_ERROR.
Proof.
  intros Hc. unfold lexer_char in Hc. cbn [existsb] in Hc.
  repeat match goal with Hx : (_ || _) = false |- _ => apply orb_false_iff in Hx as [? ?] end.
  unfold next_token. cbn [next_token_loop]. unfold next_token_step.
  replace (cur (set_type s TOK_NULL)) with (cur s) by reflexivity.
  repeat match goal with Hx : ?x = false |- _ => rewrite ?Hx; clear Hx end.
  cbn. destruct s; reflexivity.
Qed.


(** A blank (space, tab, newline, carriage return) is skipped: the token
    found is the one found from the next character. *)
Theorem next_token_skips_space (s : @state D) :
  is_space (cur s) = true -> next_token s = next_token (set_next s (S (next s))).
Proof.
  intros Hc. apply next_token_continue. unfold next_token_step.
  replace (cur (set_type s TOK_NULL)) with (cur s) by reflexivity.
  assert (Hc' : cur s = " "%char \/ cur s = "009"%char \/ cur s = "010"%char \/ cur s = "013"%char).
  { revert Hc. unfold is_space.
    destruct (Ascii.eqb_spec (cur s) " ") as [E|_]; [intros _; left; exact E|].
    destruct (Ascii.eqb_spec (cur s) "009") as [E|_]; [intros _; right; left; exact E|].
    destruct (Ascii.eqb_spec (cur s) "010") as [E|_]; [intros _; right; right; left; exact E|].
    destruct (Ascii.eqb_spec (cur s) "013") as [E|_]; [intros _; right; right; right; exact E|].
    intros E; discriminate E. }
  destruct Hc' as [E|[E|[E|E]]]; rewrite E; cbv zeta; reduce_ifs; destruct s; reflexivity.
Qed.




(** On a digit, [next_token] reports [TOK_NUMBER], consumes at least one
    character and stores the value [strtod] reads from the consumed text. *)
Theorem next_token_number (s : @state D) :
  is_digit (cur s) = true ->
  type (next_token s) = TOK_NUMBER /\ (next s < next (next_token s))%nat /\
  su (next_token s) =
    UValue (strtod_value (String.substring (next s) (next (next_token s) - next s) (start s))).
Proof.
  intros Hd. unfold next_token. cbn [next_token_loop]. unfold next_token_step.
  replace (cur (set_type s TOK_NULL)) with (cur s) by reflexivity.
  assert (Hn : Ascii.eqb (cur s) NUL = false)
    by (destruct (Ascii.eqb_spec (cur s) NUL) as [E|E]; [rewrite E in Hd; discriminate|reflexivity]).
  rewrite Hn, Hd. cbv zeta. reduce_ifs.
  assert (Hp : (1 <= strtod_len (suffix (start s) (next s)))%nat).
  { apply strtod_len_pos. rewrite char_at_suffix, Nat.add_0_r. exact Hd. }
  cbn [type next su set_type set_su set_next start].
  split; [reflexivity|split; [lia|]]. do 3 f_equal. lia.
Qed.

(** A '.' not followed by a digit is a [TOK_NUMBER] token that consumes
    nothing: [strtod] converts no character, so the cursor stays on the
    '.' and the value is the one of the empty conversion. *)
Theorem next_token_dot_alone (s : @state D) :
  cur s = "."%char -> is_digit (char_at (start s) (S (next s))) = false ->
  next_token s = set_type (set_su s (UValue (strtod_value ""))) TOK_NUMBER.
Proof.
  intros Hc Hd. unfold next_token. cbn [next_token_loop]. unfold next_token_step.
  replace (cur (set_type s TOK_NULL)) with (cur s) by reflexivity. rewrite Hc.
  cbv zeta. reduce_ifs. cbn [start next set_type].
  rewrite (strtod_len_dot (suffix (start s) (next s))).
  + rewrite Nat.add_0_r, substring_0. reduce_ifs. destruct s; reflexivity.
  + rewrite char_at_suffix, Nat.add_0_r. exact Hc.
  + rewrite char_at_suffix. rewrite Nat.add_1_r. exact Hd.
Qed.


End Lexer_extras.


Section Shape.
Context {D : Type} `{Host D}.

Lemma cursor_le_refl (s : @state D) : cursor_le s s.
Proof. split; [reflexivity|split; [reflexivity|split; [lia|auto]]]. Qed.

Lemma cursor_le_trans (s1 s2 s3 : @state D) : cursor_le s1 s2 -> cursor_le s2 s3 -> cursor_le s1 s3.
Proof.
  intros (A1 & B1 & C1 & D1) (A2 & B2 & C2 & D2).
  split; [congruence|split; [congruence|split; [lia|]]].
  intros Hle. rewrite <- A1. apply D2. rewrite A1. apply D1, Hle.
Qed.

Lemma cursor_le_next_token (s : @state D) : cursor_le s (next_token s).
Proof.
  unfold next_token.
  destruct (next_token_loop_frame (S (String.length (start s) - next s)) (set_type s TOK_NULL))
    as (A & B & C & Dd).
  exact (conj A (conj B (conj C Dd))).
Qed.

Lemma cl_next (s x : @state D) : cursor_le s x -> cursor_le s (next_token x).
Proof. intros Hx. eapply cursor_le_trans; [exact Hx|apply cursor_le_next_token]. Qed.

Lemma cl_type (s x : @state D) t : cursor_le s x -> cursor_le s (set_type x t).
Proof. destruct x. intros Hx. exact Hx. Qed.

Lemma kinds_ok_shape (n : te_expr D) : node_shape n -> kinds_ok n = true.
Proof.
  destruct n as [k t u ps]. intros [Hk Hc]. unfold kinds_ok. apply forall_nodes_true.
  split; [exact Hk|]. intros j c Hj _. exact (Hc j c Hj).
Qed.

Lemma shape_leaf k t (u : uval D) ps :
  kind_ok t = true -> no_child ps -> kinds_ok (Expr k t u ps) = true.
Proof.
  intros Hk Hn. apply kinds_ok_shape. split; [exact Hk|]. intros j c Hj. exfalso. exact (Hn j c Hj).
Qed.

Lemma fold_step_shape (ret : te_expr D) t e s h r s' h' :
  kinds_ok ret = true -> Sres e -> fold_step ret t e s h = Some (r, s', h') ->
  s' = s /\ Sres r.
Proof.
  intros Hk He Hf.
  destruct e as [p|]; cbv beta iota delta [fold_step bindM free_m returnM new_expr] in Hf.
  - rewrite new_expr_h_binary in Hf. destruct (malloc_fails (hnext h)); cbv beta iota in Hf;
      injection Hf as <- <- <-; (split; [reflexivity|]).
    + exact I.
    + cbn [Sres set_u]. apply kinds_ok_shape. split; [reflexivity|]. cbn [parameters].
      intros [|[|j]] c Hj; cbn in Hj; try discriminate; injection Hj as <-; assumption.
  - injection Hf as <- <- <-. split; [reflexivity|exact I].
Qed.

Lemma head_shape (sub : @M D (option (te_expr D))) (loop : te_expr D -> @M D (option (te_expr D)))
    s h r s' h' :
  Sfun sub -> Sloop loop ->
  bindM sub (fun r0 => match r0 with None => returnM None | Some ret => loop ret end) s h
  = Some (r, s', h') -> cursor_le s s' /\ Sres r.
Proof.
  intros Hsub Hloop Hr. unfold bindM in Hr.
  destruct (sub s h) as [[[r1 s1] h1]|] eqn:E1; [|discriminate].
  destruct (Hsub _ _ _ _ _ E1) as [C1 R1].
  destruct r1 as [ret|].
  - destruct (Hloop _ _ _ _ _ _ R1 Hr) as [C2 R2].
    split; [eapply cursor_le_trans; eassumption|exact R2].
  - unfold returnM in Hr. injection Hr as <- <- <-. split; [exact C1|exact I].
Qed.

Lemma loop_shape (cond : @state D -> bool) (tf : @state D -> uval D)
    (sub : @M D (option (te_expr D))) (loop : te_expr D -> @M D (option (te_expr D)))
    ret s h r s' h' :
  Sfun sub -> Sloop loop -> kinds_ok ret = true ->
  bindM get_state (fun s =>
    if cond s then
      bindM next_token_m (fun _ =>
      bindM sub (fun e =>
      bindM (fold_step ret (tf s) e) (fun r =>
      match r with None => returnM None | Some ret' => loop ret' end)))
    else returnM (Some ret)) s h = Some (r, s', h') ->
  cursor_le s s' /\ Sres r.
Proof.
  intros Hsub Hloop Hk Hr.
  unfold bindM at 1, get_state in Hr. destruct (cond s).
  - unfold bindM at 1, next_token_m in Hr. unfold bindM at 1 in Hr.
    destruct (sub (next_token s) h) as [[[e s2] h1]|] eqn:E1; [|discriminate].
    destruct (Hsub _ _ _ _ _ E1) as [C1 R1].
    unfold bindM in Hr.
    destruct (fold_step ret (tf s) e s2 h1) as [[[r1 s3] h2]|] eqn:E2; [|discriminate].
    destruct (fold_step_shape _ _ _ _ _ _ _ _ Hk R1 E2) as [-> R2].
    assert (C2 : cursor_le s s2) by (eapply cursor_le_trans; [apply cursor_le_next_token|exact C1]).
    destruct r1 as [ret'|].
    + destruct (Hloop _ _ _ _ _ _ R2 Hr) as [C3 R3].
      split; [eapply cursor_le_trans; eassumption|exact R3].
    + unfold returnM in Hr. injection Hr as <- <- <-. split; [exact C2|exact I].
  - unfold returnM in Hr. injection Hr as <- <- <-. split; [apply cursor_le_refl|exact Hk].
Qed.

Lemma sign_run_cursor (s : @state D) n s' : sign_run s n s' -> cursor_le s s'.
Proof.
  induction 1; [apply cursor_le_refl| |];
    (eapply cursor_le_trans; [apply cursor_le_next_token|eassumption]).
Qed.

Lemma power_shape f : Sfun (base f) -> Sfun (power (S f)).
Proof.
  intros Hb s h r s' h' Hr. rewrite power_S in Hr. unfold bindM at 1 in Hr.
  destruct (power_signs f 1 s h) as [[[sign s1] h1]|] eqn:E1; [|discriminate].
  destruct (power_signs_run _ _ _ _ _ _ _ E1) as [-> (n & Hrun & _)].
  pose proof (sign_run_cursor _ _ _ Hrun) as C1.
  destruct (sign =? 1).
  - destruct (Hb _ _ _ _ _ Hr) as [C2 R2]. split; [eapply cursor_le_trans; eassumption|exact R2].
  - unfold bindM at 1 in Hr. destruct (base f s1 h) as [[[b s2] h2]|] eqn:E2; [|discriminate].
    destruct (Hb _ _ _ _ _ E2) as [C2 R2].
    assert (C : cursor_le s s2) by (eapply cursor_le_trans; eassumption).
    destruct b as [b|].
    2:{ unfold returnM in Hr. injection Hr as <- <- <-. split; [exact C|exact I]. }
    unfold bindM at 1, new_expr in Hr. rewrite new_expr_h_unary in Hr.
    destruct (malloc_fails (hnext h2)); cbv beta iota in Hr.
    + unfold bindM, free_m, returnM in Hr. injection Hr as <- <- <-. split; [exact C|exact I].
    + unfold returnM in Hr. injection Hr as <- <- <-. split; [exact C|].
      cbn [Sres set_u]. apply kinds_ok_shape. split; [reflexivity|]. cbn [parameters].
      intros [|j] c Hj; cbn in Hj; [injection Hj as <-; exact R2|discriminate].
Qed.

Lemma base_args_shape f : Sfun (expr f) -> Sargs (base_args f) -> Sargs (base_args (S f)).
Proof.
  intros He Ha arity i ret s h r s' h' Hs Hr.
  rewrite base_args_S in Hr.
  destruct (i <? arity)%nat.
  2:{ unfold returnM in Hr. injection Hr as <- <- <-. split; [apply cursor_le_refl|exact Hs]. }
  unfold bindM at 1, next_token_m in Hr. unfold bindM at 1 in Hr.
  destruct (expr f (next_token s) h) as [[[p s2] h1]|] eqn:E1; [|discriminate].
  destruct (He _ _ _ _ _ E1) as [C1 R1].
  assert (C : cursor_le s s2) by (eapply cursor_le_trans; [apply cursor_le_next_token|exact C1]).
  destruct p as [p|].
  2:{ unfold bindM, free_m, returnM in Hr. injection Hr as <- <- <-. split; [exact C|exact I]. }
  assert (Hs' : node_shape (set_param ret i (PExpr p))).
  { destruct ret as [k t u ps]. destruct Hs as [Hk Hc]. split; [exact Hk|].
    cbn [parameters set_param]. intros j c Hj.
    destruct (decide (j = i)) as [->|Hji].
    - apply list_lookup_insert_Some in Hj as [(_ & Hj & _)|(Hj & _)]; [|congruence].
      injection Hj as <-. exact R1.
    - rewrite list_lookup_insert_ne in Hj by congruence. exact (Hc j c Hj). }
  cbv zeta in Hr. unfold bindM, get_state in Hr.
  destruct (negb (type s2 =? TOK_SEP)).
  - unfold returnM in Hr. injection Hr as <- <- <-. split; [exact C|exact Hs'].
  - destruct (Ha _ _ _ _ _ _ _ _ Hs' Hr) as [C2 R2].
    split; [eapply cursor_le_trans; eassumption|exact R2].
Qed.

Lemma mask_callable t :
  ((TYPE_MASK t =? TE_FUNCTION0) || (TYPE_MASK t =? TE_CLOSURE0)) = true \/
  ((TYPE_MASK t =? TE_FUNCTION1) || (TYPE_MASK t =? TE_CLOSURE1)) = true \/
  (((TE_FUNCTION2 <=? TYPE_MASK t) && (TYPE_MASK t <=? TE_FUNCTION7))
   || ((TE_CLOSURE2 <=? TYPE_MASK t) && (TYPE_MASK t <=? TE_CLOSURE7))) = true ->
  kind_ok t = true.
Proof.
  unfold kind_ok. intros Hm. apply Z.ltb_lt.
  destruct Hm as [Hm|[Hm|Hm]]; zb;
    unfold TE_FUNCTION0, TE_CLOSURE0, TE_FUNCTION1, TE_CLOSURE1, TE_FUNCTION2, TE_FUNCTION7,
      TE_CLOSURE2, TE_CLOSURE7 in *; lia.
Qed.

Lemma set_param_ptr_shape (n : te_expr D) i a : node_shape n -> node_shape (set_param n i (PPtr a)).
Proof.
  destruct n as [k t u ps]. intros [Hk Hc]. split; [exact Hk|].
  cbn [parameters set_param]. intros j c Hj.
  destruct (decide (j = i)) as [->|Hji].
  - apply list_lookup_insert_Some in Hj as [(_ & Hj & _)|(Hj & _)]; [discriminate|congruence].
  - rewrite list_lookup_insert_ne in Hj by congruence. exact (Hc j c Hj).
Qed.

Lemma set_param_expr_shape (n p : te_expr D) i :
  node_shape n -> kinds_ok p = true -> node_shape (set_param n i (PExpr p)).
Proof.
  destruct n as [k t u ps]. intros [Hk Hc] Hp. split; [exact Hk|].
  cbn [parameters set_param]. intros j c Hj.
  destruct (decide (j = i)) as [->|Hji].
  - apply list_lookup_insert_Some in Hj as [(_ & Hj & _)|(Hj & _)]; [|congruence].
    injection Hj as <-. exact Hp.
  - rewrite list_lookup_insert_ne in Hj by congruence. exact (Hc j c Hj).
Qed.

Lemma alloc_shape k t (u : uval D) n (b : bool) i c :
  kind_ok t = true ->
  node_shape (if b then set_param (Expr k t u (repeat PNull n)) i (PPtr c)
              else Expr k t u (repeat PNull n)).
Proof.
  intros Hk. assert (Hs : node_shape (Expr k t u (repeat PNull n))).
  { split; [exact Hk|]. intros j c' Hj. exfalso. exact (no_child_repeat n j c' Hj). }
  destruct b; [apply set_param_ptr_shape|]; exact Hs.
Qed.

Lemma kind_ok_mask t : TYPE_MASK t < 24 -> kind_ok t = true.
Proof. intros Hm. apply Z.ltb_lt, Hm. Qed.

Ltac consts := unfold TE_FUNCTION0, TE_CLOSURE0, TE_FUNCTION1, TE_CLOSURE1, TE_FUNCTION2,
  TE_FUNCTION7, TE_CLOSURE2, TE_CLOSURE7 in *.

Lemma base_shape f : Sfun (parse_list f) -> Sfun (power f) -> Sargs (base_args f) ->
  Sfun (base (S f)).
Proof.
  intros Hl Hp Ha s h r s' h' Hr.
  rewrite base_S in Hr.
  cbv beta iota zeta delta [bindM get_state next_token_m returnM set_type_m new_expr free_m] in Hr.
  destruct (TYPE_MASK (type s) =? TOK_NUMBER) eqn:E1.
  { rewrite new_expr_h_none in Hr.
    destruct (malloc_fails (hnext h)); cbv beta iota in Hr; injection Hr as <- <- <-.
    - split; [apply cursor_le_refl|exact I].
    - split; [apply cursor_le_next_token|]. cbn [Sres set_u].
      apply shape_leaf; [reflexivity|first [apply no_child_repeat|apply no_child_nil]]. }
  destruct (TYPE_MASK (type s) =? TOK_VARIABLE) eqn:E2.
  { rewrite new_expr_h_none in Hr.
    destruct (malloc_fails (hnext h)); cbv beta iota in Hr; injection Hr as <- <- <-.
    - split; [apply cursor_le_refl|exact I].
    - split; [apply cursor_le_next_token|]. cbn [Sres set_u].
      apply shape_leaf; [reflexivity|first [apply no_child_repeat|apply no_child_nil]]. }
  destruct ((TYPE_MASK (type s) =? TE_FUNCTION0) || (TYPE_MASK (type s) =? TE_CLOSURE0)) eqn:E3.
  { assert (Hk : kind_ok (type s) = true)
      by (apply kind_ok_mask; apply orb_true_iff in E3 as [E3|E3]; zb; consts; lia).
    rewrite new_expr_h_none in Hr.
    destruct (malloc_fails (hnext h)); cbv beta iota in Hr.
    - injection Hr as <- <- <-. split; [apply cursor_le_refl|exact I].
    - cbn [set_u] in Hr.
      destruct (type (next_token s) =? TOK_OPEN);
        [destruct (negb (type (next_token (next_token s)) =? TOK_CLOSE))|];
        cbv beta in Hr; injection Hr as <- <- <-.
      + split; [apply cl_type, cl_next, cursor_le_next_token|].
        cbn [Sres]. apply kinds_ok_shape, alloc_shape, Hk.
      + split; [apply cl_next, cl_next, cursor_le_next_token|].
        cbn [Sres]. apply kinds_ok_shape, alloc_shape, Hk.
      + split; [apply cursor_le_next_token|].
        cbn [Sres]. apply kinds_ok_shape, alloc_shape, Hk. }
  destruct ((TYPE_MASK (type s) =? TE_FUNCTION1) || (TYPE_MASK (type s) =? TE_CLOSURE1)) eqn:E4.
  { assert (Hk : kind_ok (type s) = true)
      by (apply kind_ok_mask; apply orb_true_iff in E4 as [E4|E4]; zb; consts; lia).
    rewrite new_expr_h_none in Hr.
    destruct (malloc_fails (hnext h)); cbv beta iota in Hr.
    - injection Hr as <- <- <-. split; [apply cursor_le_refl|exact I].
    - cbn [set_u] in Hr.
      destruct (power f (next_token s) (mk_heap (S (hnext h)) ({[hnext h]} ∪ live h)))
        as [[[p s2] h2]|] eqn:Ep; [|discriminate].
      destruct (Hp _ _ _ _ _ Ep) as [C2 R2].
      assert (C : cursor_le s s2) by (eapply cursor_le_trans; [apply cursor_le_next_token|exact C2]).
      destruct p as [p|]; cbv beta in Hr; injection Hr as <- <- <-; (split; [exact C|]).
      + cbn [Sres]. apply kinds_ok_shape, set_param_expr_shape; [apply alloc_shape, Hk|exact R2].
      + exact I. }
  destruct (((TE_FUNCTION2 <=? TYPE_MASK (type s)) && (TYPE_MASK (type s) <=? TE_FUNCTION7))
            || ((TE_CLOSURE2 <=? TYPE_MASK (type s)) && (TYPE_MASK (type s) <=? TE_CLOSURE7))) eqn:E5.
  { assert (Hk : kind_ok (type s) = true)
      by (apply kind_ok_mask; apply orb_true_iff in E5 as [E5|E5]; zb; consts; lia).
    rewrite new_expr_h_none in Hr.
    destruct (malloc_fails (hnext h)); cbv beta iota in Hr.
    - injection Hr as <- <- <-. split; [apply cursor_le_refl|exact I].
    - cbn [set_u] in Hr.
      destruct (negb (type (next_token s) =? TOK_OPEN)) eqn:Eo; cbv beta in Hr.
      { injection Hr as <- <- <-. split; [apply cl_type, cursor_le_next_token|].
        cbn [Sres]. apply kinds_ok_shape, alloc_shape, Hk. }
      match type of Hr with
      | match base_args f ?ar 0 ?ret0 ?s0 ?h0 with _ => _ end = _ =>
          destruct (base_args f ar 0 ret0 s0 h0) as [[[a s2] h2]|] eqn:Ea; [|discriminate];
          destruct (Ha _ _ _ _ _ _ _ _ (alloc_shape _ _ _ _ _ _ _ Hk) Ea) as [C2 R2]
      end.
      assert (C : cursor_le s s2) by (eapply cursor_le_trans; [apply cursor_le_next_token|exact C2]).
      destruct a as [[ret' i']|]; cbv beta in Hr.
      + destruct (negb (type s2 =? TOK_CLOSE) || negb (i' =? Z.to_nat (ARITY (type s)) - 1)%nat);
          cbv beta in Hr; injection Hr as <- <- <-.
        * split; [apply cl_type, C|]. apply kinds_ok_shape, R2.
        * split; [apply cl_next, C|]. apply kinds_ok_shape, R2.
      + injection Hr as <- <- <-. split; [exact C|exact I]. }
  destruct (TYPE_MASK (type s) =? TOK_OPEN) eqn:E6.
  { destruct (parse_list f (next_token s) h) as [[[a s1] h1]|] eqn:El; [|discriminate].
    destruct (Hl _ _ _ _ _ El) as [C1 R1].
    assert (C : cursor_le s s1) by (eapply cursor_le_trans; [apply cursor_le_next_token|exact C1]).
    destruct a as [ret|]; cbv beta in Hr.
    - destruct (negb (type s1 =? TOK_CLOSE)); cbv beta in Hr; injection Hr as <- <- <-.
      + split; [apply cl_type, C|exact R1].
      + split; [apply cl_next, C|exact R1].
    - injection Hr as <- <- <-. split; [exact C|exact I]. }
  rewrite new_expr_h_none in Hr.
  destruct (malloc_fails (hnext h)); cbv beta iota in Hr; injection Hr as <- <- <-.
  - split; [apply cursor_le_refl|exact I].
  - split; [apply cl_type, cursor_le_refl|]. cbn [Sres set_u].
    apply shape_leaf; [reflexivity|first [apply no_child_repeat|apply no_child_nil]].
Qed.

Lemma parse_shape f :
  Sfun (parse_list f) /\ Sloop (list_loop f) /\ Sfun (expr f) /\
  Sloop (expr_loop f) /\ Sfun (term f) /\ Sloop (term_loop f) /\
  Sfun (factor f) /\ Sloop (factor_loop f) /\ Sfun (power f) /\
  Sfun (base f) /\ Sargs (base_args f).
Proof.
  induction f as [|f IH].
  - repeat split; intros;
      match goal with Hr : _ = Some _ |- _ => cbn in Hr; discriminate Hr end.
  - destruct IH as (Hl & Hll & He & Hel & Ht & Htl & Hf & Hfl & Hp & Hb & Ha).
    split; [intros s h r s' h' Hr; rewrite parse_list_S in Hr;
            exact (head_shape _ _ s h r s' h' He Hll Hr)|].
    split; [intros ret s h r s' h' Hk Hr; rewrite list_loop_S in Hr;
            exact (loop_shape (fun s0 => type s0 =? TOK_SEP) (fun _ => UFunction (Code "comma"))
                     _ _ ret s h r s' h' He Hll Hk Hr)|].
    split; [intros s h r s' h' Hr; rewrite expr_S in Hr;
            exact (head_shape _ _ s h r s' h' Ht Hel Hr)|].
    split; [intros ret s h r s' h' Hk Hr; rewrite expr_loop_S in Hr;
            exact (loop_shape (fun s0 => (type s0 =? TOK_INFIX)
                       && (function_is s0 (Code "add") || function_is s0 (Code "sub")))
                     (fun s0 => su s0) _ _ ret s h r s' h' Ht Hel Hk Hr)|].
    split; [intros s h r s' h' Hr; rewrite term_S in Hr;
            exact (head_shape _ _ s h r s' h' Hf Htl Hr)|].
    split; [intros ret s h r s' h' Hk Hr; rewrite term_loop_S in Hr;
            exact (loop_shape (fun s0 => (type s0 =? TOK_INFIX)
                       && (function_is s0 (Code "mul") || function_is s0 (Code "divide")
                           || function_is s0 (Code "fmod")))
                     (fun s0 => su s0) _ _ ret s h r s' h' Hf Htl Hk Hr)|].
    split; [intros s h r s' h' Hr; rewrite factor_S in Hr;
            exact (head_shape _ _ s h r s' h' Hp Hfl Hr)|].
    split; [intros ret s h r s' h' Hk Hr; rewrite factor_loop_S in Hr;
            exact (loop_shape (fun s0 => (type s0 =? TOK_INFIX) && function_is s0 (Code "pow"))
                     (fun s0 => su s0) _ _ ret s h r s' h' Hp Hfl Hk Hr)|].
    split; [exact (power_shape f Hb)|].
    split; [exact (base_shape f Hl Hp Ha)|].
    exact (base_args_shape f He Ha).
Qed.

End Shape.


Section Opt.
Context {D : Type} `{Host D}.

Lemma kind_ok_arity t : kind_ok t = true -> Z.to_nat (ARITY t) = freed_children t.
Proof.
  unfold kind_ok. destruct (mask_facts t) as (E1 & _ & E3 & _). rewrite E1, E3.
  pose proof (mask_range t) as Hr. revert Hr. generalize (TYPE_MASK t). intros m Hm.
  pose proof (enum_mask (fun m => negb (m <? 24)
                || Nat.eqb (Z.to_nat (ARITY m)) (freed_children m)) eq_refl m Hm) as Hc.
  cbv beta in Hc. intros Hk. rewrite Hk in Hc. apply Nat.eqb_eq, Hc.
Qed.

Lemma free_params_from_go k i (ps : list (param D)) h :
  free_params_from k i ps h = free_go k i ps h.
Proof.
  revert i. induction ps as [|p ps IH]; intros i; cbn [free_params_from free_go]; [reflexivity|].
  fold (free_go k (S i) ps h). rewrite IH. reflexivity.
Qed.

Lemma free_go_spec k i (ps : list (param D)) h :
  live (free_go k i ps h) = live h ∖ ids_go k i ps /\ hnext (free_go k i ps h) = hnext h.
Proof.
  revert i. induction ps as [|p ps IH]; intros i; cbn [free_go ids_go].
  - split; [set_solver|reflexivity].
  - fold (free_go k (S i) ps h). fold (ids_go k (S i) ps).
    destruct (IH (S i)) as [IH1 IH2].
    destruct (i <? k)%nat; [|split; [rewrite IH1; set_solver|exact IH2]].
    destruct p as [|c|a]; try (split; [rewrite IH1; set_solver|exact IH2]).
    destruct (te_free_spec c (free_go k (S i) ps h)) as [E1 E2].
    split; [rewrite E1, IH1; set_solver|rewrite E2; exact IH2].
Qed.

Lemma ids_const id (u : uval D) ps : ids (Expr id TE_CONSTANT u ps) = {[id]}.
Proof.
  apply leibniz_equiv, set_equiv. intros x. rewrite elem_of_ids, elem_of_singleton.
  split; [|auto]. intros [?|(j & c & _ & Hj & _)]; [auto|]. cbv in Hj. lia.
Qed.

Lemma slots_filled_const id (u : uval D) ps :
  forall_nodes slots_filled (Expr id TE_CONSTANT u ps) = true.
Proof.
  apply forall_nodes_true. split; [reflexivity|]. intros j c _ Hj. cbv in Hj. lia.
Qed.

Lemma acct_cons (L0 L1 L2 P P' R R' : gset nat) :
  L1 ⊆ L0 -> L0 ∖ P ⊆ L1 -> P' ⊆ P -> P ∖ P' ## L1 ->
  L2 ⊆ L1 -> L1 ∖ R ⊆ L2 -> R' ⊆ R -> R ∖ R' ## L2 ->
  L2 ⊆ L0 /\ L0 ∖ (P ∪ R) ⊆ L2 /\ P' ∪ R' ⊆ P ∪ R /\ (P ∪ R) ∖ (P' ∪ R') ## L2.
Proof. set_solver. Qed.

Lemma acct_skip (L0 L2 R R' : gset nat) :
  L2 ⊆ L0 -> L0 ∖ R ⊆ L2 -> R' ⊆ R -> R ∖ R' ## L2 ->
  L2 ⊆ L0 /\ L0 ∖ (∅ ∪ R) ⊆ L2 /\ ∅ ∪ R' ⊆ ∅ ∪ R /\ (∅ ∪ R) ∖ (∅ ∪ R') ## L2.
Proof. set_solver. Qed.

Lemma acct_fold (L0 L1 R R' : gset nat) id :
  L1 ⊆ L0 -> L0 ∖ R ⊆ L1 -> R' ⊆ R -> R ∖ R' ## L1 ->
  L1 ∖ R' ⊆ L0 /\ L0 ∖ ({[id]} ∪ R) ⊆ L1 ∖ R' /\ {[id]} ⊆ {[id]} ∪ R /\
  ({[id]} ∪ R) ∖ {[id]} ## L1 ∖ R'.
Proof. set_solver. Qed.

Lemma acct_node (L0 L1 R R' : gset nat) id :
  L1 ⊆ L0 -> L0 ∖ R ⊆ L1 -> R' ⊆ R -> R ∖ R' ## L1 ->
  L1 ⊆ L0 /\ L0 ∖ ({[id]} ∪ R) ⊆ L1 /\ {[id]} ∪ R' ⊆ {[id]} ∪ R /\
  ({[id]} ∪ R) ∖ ({[id]} ∪ R') ## L1.
Proof. set_solver. Qed.

Lemma acct_same (L : gset nat) (X : gset nat) :
  L ⊆ L /\ L ∖ X ⊆ L /\ X ⊆ X /\ X ∖ X ## L.
Proof. set_solver. Qed.

Lemma optimize_acct : forall (n : te_expr D) h, kinds_ok n = true -> opt_acct n h.
Proof.
  intros n. induction n as [id t u ps Hps] using te_expr_ind'. intros h Hk.
  unfold kinds_ok in Hk. rewrite forall_nodes_true in Hk. destruct Hk as [Hkt Hkc].
  cbn [node_type] in Hkt. pose proof (kind_ok_arity t Hkt) as Ear.
  set (ar := Z.to_nat (ARITY t)) in *.
  assert (G : forall i h ps' known h', opt_go ar i ps h = (ps', known, h') ->
    (forall j c, ps !! j = Some (PExpr c) -> (i + j < ar)%nat -> kinds_ok c = true) ->
    hnext h' = hnext h /\
    (live h' ⊆ live h /\ live h ∖ ids_go ar i ps ⊆ live h' /\
     ids_go ar i ps' ⊆ ids_go ar i ps /\ ids_go ar i ps ∖ ids_go ar i ps' ## live h') /\
    (forall_go slots_filled ar i ps = true -> forall_go slots_filled ar i ps' = true) /\
    (forall j, (ar <= i + j)%nat -> ps' !! j = ps !! j) /\
    (forall j c, ps !! j = Some (PExpr c) -> exists c', ps' !! j = Some (PExpr c'))).
  { clear h Hkc. induction Hps as [|p ps Hp Hps IH]; intros i h ps' known h' E Hkc;
      cbn [opt_go] in E.
    - injection E as <- <- <-. cbn [ids_go forall_go].
      split; [reflexivity|split; [apply acct_same|]].
      split; [auto|split; [reflexivity|]]. intros j c Hj. rewrite lookup_nil in Hj. discriminate.
    - fold (opt_go ar (S i) ps) in E.
      assert (Hkc' : forall j c, ps !! j = Some (PExpr c) -> (S i + j < ar)%nat ->
                     kinds_ok c = true)
        by (intros j c Hj Hl; apply (Hkc (S j) c Hj); lia).
      cbn [ids_go forall_go]. fold (ids_go ar (S i) ps). fold (forall_go slots_filled ar (S i) ps).
      destruct (i <? ar)%nat eqn:Ei.
      + apply Nat.ltb_lt in Ei. destruct p as [|c|a].
        * destruct (opt_go ar (S i) ps h) as [[ps'' kn] h2] eqn:E2. injection E as <- <- <-.
          destruct (IH _ _ _ _ _ E2 Hkc') as (A1 & (A2 & A3 & A4 & A5) & A6 & A7 & A8).
          cbn [ids_go forall_go]. fold (ids_go ar (S i) ps''). fold (forall_go slots_filled ar (S i) ps'').
          replace (i <? ar)%nat with true by (symmetry; apply Nat.ltb_lt; exact Ei).
          split; [exact A1|split; [apply acct_skip; assumption|]].
          split; [intros Hf; apply andb_true_iff in Hf as [_ Hf]; rewrite (A6 Hf); reflexivity|].
          split; [intros [|j] Hj; [lia|cbn; apply A7; lia]|].
          intros [|j] c0 Hj; [discriminate|exact (A8 j c0 Hj)].
        * destruct (optimize c h) as [c' h1] eqn:Ec.
          destruct (opt_go ar (S i) ps h1) as [[ps'' kn] h2] eqn:E2. injection E as <- <- <-.
          destruct (IH _ _ _ _ _ E2 Hkc') as (A1 & (A2 & A3 & A4 & A5) & A6 & A7 & A8).
          assert (Kc : kinds_ok c = true) by (apply (Hkc O c eq_refl); lia).
          cbn in Hp. pose proof (Hp h Kc) as Hc. unfold opt_acct in Hc. rewrite Ec in Hc.
          cbn [fst snd] in Hc. destruct Hc as (B1 & B2 & B3 & B4 & B5 & B6).
          cbn [ids_go forall_go]. fold (ids_go ar (S i) ps''). fold (forall_go slots_filled ar (S i) ps'').
          replace (i <? ar)%nat with true by (symmetry; apply Nat.ltb_lt; exact Ei).
          split; [rewrite A1; exact B1|split; [eapply acct_cons; eassumption|]].
          split; [intros Hf; apply andb_true_iff in Hf as [Hf1 Hf2]; rewrite (B6 Hf1), (A6 Hf2); reflexivity|].
          split; [intros [|j] Hj; [lia|cbn; apply A7; lia]|].
          intros [|j] c0 Hj; [eexists; reflexivity|exact (A8 j c0 Hj)].
        * destruct (opt_go ar (S i) ps h) as [[ps'' kn] h2] eqn:E2. injection E as <- <- <-.
          destruct (IH _ _ _ _ _ E2 Hkc') as (A1 & (A2 & A3 & A4 & A5) & A6 & A7 & A8).
          cbn [ids_go forall_go]. fold (ids_go ar (S i) ps''). fold (forall_go slots_filled ar (S i) ps'').
          replace (i <? ar)%nat with true by (symmetry; apply Nat.ltb_lt; exact Ei).
          split; [exact A1|split; [apply acct_skip; assumption|]].
          split; [intros Hf; apply andb_true_iff in Hf as [_ Hf]; rewrite (A6 Hf); reflexivity|].
          split; [intros [|j] Hj; [lia|cbn; apply A7; lia]|].
          intros [|j] c0 Hj; [discriminate|exact (A8 j c0 Hj)].
      + destruct (opt_go ar (S i) ps h) as [[ps'' kn] h2] eqn:E2. injection E as <- <- <-.
        destruct (IH _ _ _ _ _ E2 Hkc') as (A1 & (A2 & A3 & A4 & A5) & A6 & A7 & A8).
        cbn [ids_go forall_go]. fold (ids_go ar (S i) ps''). fold (forall_go slots_filled ar (S i) ps'').
        replace (i <? ar)%nat with false by (symmetry; exact Ei).
        split; [exact A1|split; [apply acct_skip; assumption|]].
        split; [intros Hf; apply andb_true_iff in Hf as [_ Hf]; rewrite (A6 Hf); reflexivity|].
        split; [intros [|j] Hj; [reflexivity|cbn; apply A7; lia]|].
        intros [|j] c0 Hj; [cbn in Hj |- *; rewrite Hj; eexists; reflexivity|exact (A8 j c0 Hj)]. }
  unfold opt_acct. rewrite optimize_Expr. fold ar.
  destruct ((t =? TE_CONSTANT) || (t =? TE_VARIABLE)).
  { cbn [fst snd]. split; [reflexivity|]. destruct (acct_same (live h) (ids (Expr id t u ps)))
      as (S1 & S2 & S3 & S4). auto. }
  destruct (IS_PURE t).
  2:{ cbn [fst snd]. split; [reflexivity|]. destruct (acct_same (live h) (ids (Expr id t u ps)))
      as (S1 & S2 & S3 & S4). auto. }
  destruct (opt_go ar 0 ps h) as [[ps' known] h'] eqn:Eo.
  destruct (G _ _ _ _ _ Eo) as (A1 & (A2 & A3 & A4 & A5) & A6 & A7 & A8).
  { intros j c Hj Hl. apply (Hkc j c Hj). exact Hl. }
  assert (Hfill : forall_nodes slots_filled (Expr id t u ps) = true ->
                  forall_nodes slots_filled (Expr id t u ps') = true).
  { rewrite !forall_nodes_Expr. fold ar. intros Hf. apply andb_true_iff in Hf as [Hf1 Hf2].
    rewrite (A6 Hf2), andb_true_r.
    apply slots_filled_true. pose proof (proj1 (slots_filled_true id t u ps) Hf1) as Hf3. fold ar in Hf1 |- *.
    intros j Hj. destruct (Hf3 j Hj) as [c Hc]. exact (A8 j c Hc). }
  rewrite !ids_Expr. rewrite <- Ear.
  destruct known; cbn [fst snd].
  - unfold te_free_parameters. cbn [node_type parameters]. rewrite free_params_from_go, <- Ear.
    destruct (free_go_spec ar 0 ps' h') as [F1 F2].
    rewrite ids_const, F1, F2.
    destruct (acct_fold _ _ _ _ id A2 A3 A4 A5) as (S1 & S2 & S3 & S4).
    split; [exact A1|split; [exact S1|split; [exact S2|split; [exact S3|split; [exact S4|]]]]].
    intros _. apply slots_filled_const.
  - rewrite ids_Expr, <- Ear.
    destruct (acct_node _ _ _ _ id A2 A3 A4 A5) as (S1 & S2 & S3 & S4).
    split; [exact A1|split; [exact S1|split; [exact S2|split; [exact S3|split; [exact S4|]]]]].
    exact Hfill.
Qed.

End Opt.

(* ------------------------------------------------------------------ *)
(** ** No repeated address: the parser builds trees in which every node
    has its own address, and [optimize] then keeps every node it does not
    free live. *)
Section Uniq.
Context {D : Type} `{Host D}.

Lemma uniq_Expr id t (u : uval D) ps :
  uniq (Expr id t u ps) = (id ∉ ids_go (freed_children t) 0 ps /\ uniq_go (freed_children t) 0 ps).
Proof. reflexivity. Qed.

Lemma uniq_go_iff k i (ps : list (param D)) :
  uniq_go k i ps <->
  (forall j c, ps !! j = Some (PExpr c) -> (i + j < k)%nat -> uniq c) /\
  (forall j1 c1 j2 c2, ps !! j1 = Some (PExpr c1) -> ps !! j2 = Some (PExpr c2) ->
     (i + j2 < k)%nat -> (j1 < j2)%nat -> ids c1 ## ids c2).
Proof.
  revert i; induction ps as [|q ps IH]; intros i; cbn [uniq_go].
  - split; [|intros _; exact I]. intros _. split.
    + intros j c Hj. rewrite lookup_nil in Hj. discriminate.
    + intros j1 c1 j2 c2 Hj. rewrite lookup_nil in Hj. discriminate.
  - fold (uniq_go k (S i) ps). rewrite IH. split.
    + intros [Hq [Hu Hd]]. split.
      * intros [|j] c Hj Hl.
        -- cbn in Hj. injection Hj as ->.
           replace (i <? k)%nat with true in Hq by (symmetry; apply Nat.ltb_lt; lia). apply Hq.
        -- cbn in Hj. apply (Hu j c Hj). lia.
      * intros [|j1] c1 [|j2] c2 Hj1 Hj2 Hl Hlt; [lia| |lia|].
        -- cbn in Hj1, Hj2. injection Hj1 as ->.
           replace (i <? k)%nat with true in Hq by (symmetry; apply Nat.ltb_lt; lia).
           destruct Hq as [_ Hq]. intros x Hx1 Hx2. apply (Hq x Hx1).
           apply elem_of_ids_go. exists j2, c2. split; [exact Hj2|split; [lia|exact Hx2]].
        -- cbn in Hj1, Hj2. apply (Hd j1 c1 j2 c2 Hj1 Hj2); lia.
    + intros [Hu Hd]. split; [|split].
      * destruct (i <? k)%nat eqn:Ei; [|exact I]. apply Nat.ltb_lt in Ei.
        destruct q as [|c|a]; try exact I. split.
        -- apply (Hu 0%nat c eq_refl). lia.
        -- intros x Hx1 Hx2. apply elem_of_ids_go in Hx2 as (j & c2 & Hj & Hl & Hx2).
           exact (Hd 0%nat c (S j) c2 eq_refl Hj ltac:(lia) ltac:(lia) x Hx1 Hx2).
      * intros j c Hj Hl. apply (Hu (S j) c Hj). lia.
      * intros j1 c1 j2 c2 Hj1 Hj2 Hl Hlt. apply (Hd (S j1) c1 (S j2) c2 Hj1 Hj2); lia.
Qed.

Lemma uniq_leaf k t (u : uval D) ps : no_child ps -> uniq (Expr k t u ps).
Proof.
  intros Hn. rewrite uniq_Expr, uniq_go_iff. split; [|split].
  - intros Hx. apply elem_of_ids_go in Hx as (j & c & Hj & _). exact (Hn j c Hj).
  - intros j c Hj. exfalso. exact (Hn j c Hj).
  - intros j1 c1 j2 c2 Hj. exfalso. exact (Hn j1 c1 Hj).
Qed.

Lemma uniq_insert k t (u : uval D) ps i p :
  ps !! i = Some PNull -> (i < freed_children t)%nat -> uniq (Expr k t u ps) -> uniq p ->
  ids p ## ids (Expr k t u ps) -> uniq (Expr k t u (<[i := PExpr p]> ps)).
Proof.
  intros Hi Hf Hu Hp Hd. rewrite uniq_Expr, uniq_go_iff in Hu |- *.
  destruct Hu as (Hk & Hc & Hpw).
  assert (Hsub : forall j c x, ps !! j = Some (PExpr c) -> (j < freed_children t)%nat ->
                 x ∈ ids c -> x ∈ ids (Expr k t u ps)).
  { intros j c x Hj Hl Hx. apply elem_of_ids. right. exists j, c. auto. }
  assert (Hins : forall j c, <[i := PExpr p]> ps !! j = Some (PExpr c) ->
                 (j = i /\ c = p) \/ (j <> i /\ ps !! j = Some (PExpr c))).
  { intros j c Hj. apply list_lookup_insert_Some in Hj as [(<- & Hc' & _)|[Hne Hj]];
      [left; split; [reflexivity|congruence]|right; auto]. }
  split; [|split].
  - intros Hx. apply elem_of_ids_go in Hx as (j & c & Hj & Hl & Hx).
    destruct (Hins j c Hj) as [[-> ->]|[_ Hj']].
    + apply (Hd k Hx). apply elem_of_ids. left. reflexivity.
    + apply Hk. apply elem_of_ids_go. exists j, c. auto.
  - intros j c Hj Hl. destruct (Hins j c Hj) as [[-> ->]|[_ Hj']]; [exact Hp|exact (Hc j c Hj' Hl)].
  - intros j1 c1 j2 c2 Hj1 Hj2 Hl Hlt.
    destruct (Hins j1 c1 Hj1) as [[-> ->]|[Hn1 Hj1']];
      destruct (Hins j2 c2 Hj2) as [[-> ->]|[Hn2 Hj2']].
    + lia.
    + intros x Hx1 Hx2. exact (Hd x Hx1 (Hsub j2 c2 x Hj2' ltac:(lia) Hx2)).
    + intros x Hx1 Hx2. exact (Hd x Hx2 (Hsub j1 c1 x Hj1' ltac:(lia) Hx1)).
    + exact (Hpw j1 c1 j2 c2 Hj1' Hj2' ltac:(lia) Hlt).
Qed.

Lemma uniq_binary k (u : uval D) a b :
  uniq a -> uniq b -> ids a ## ids b -> k ∉ ids a -> k ∉ ids b ->
  uniq (Expr k BINARY u [PExpr a; PExpr b]).
Proof.
  intros Ha Hb Hd Hka Hkb. rewrite uniq_Expr.
  replace (freed_children BINARY) with 2%nat by reflexivity.
  cbn [uniq_go ids_go Nat.ltb Nat.leb]. set_solver.
Qed.

Lemma uniq_unary k (u : uval D) b :
  uniq b -> k ∉ ids b -> uniq (Expr k UNARY u [PExpr b]).
Proof.
  intros Hb Hkb. rewrite uniq_Expr.
  replace (freed_children UNARY) with 1%nat by reflexivity.
  cbn [uniq_go ids_go Nat.ltb Nat.leb]. set_solver.
Qed.

Variable vars : list te_variable.

Lemma fold_step_uniq h (ret : te_expr D) t e s1 h1 r s' h' :
  wf_heap h -> ids ret ⊆ live h -> uniq ret -> post vars ∅ h e s1 h1 -> Ures e ->
  fold_step ret t e s1 h1 = Some (r, s', h') -> Ures r.
Proof.
  intros Hw Hs Hu (Hw1 & Hn1 & Ht1 & He) Hue Hf.
  destruct e as [p|];
    cbv beta iota delta [fold_step bindM free_m returnM new_expr] in Hf.
  - destruct He as (Hl1 & Hfr1 & _). cbn [Ures] in Hue.
    rewrite new_expr_h_binary in Hf. destruct (malloc_fails (hnext h1));
      cbv beta iota in Hf; injection Hf as <- <- <-; [exact I|].
    cbn [Ures set_u]. apply uniq_binary; [exact Hu|exact Hue| | |].
    + intros x Hx1 Hx2. destruct (Hfr1 x Hx2) as [Hx|Hx]; [set_solver|].
      pose proof (Hw x (Hs x Hx1)). lia.
    + intros Hx. pose proof (Hw _ (Hs _ Hx)). lia.
    + intros Hx. assert (Hl : hnext h1 ∈ live h1) by (rewrite Hl1; set_solver).
      apply Hw1 in Hl. lia.
  - injection Hf as <- <- <-. exact I.
Qed.

Lemma head_uniq (sub : @M D (option (te_expr D))) (loop : te_expr D -> @M D (option (te_expr D)))
    s h r s' h' :
  Pfun vars sub -> Ufun vars sub -> Ploop vars loop -> Uloop vars loop -> wf_heap h -> tok_ok vars s ->
  bindM sub (fun r0 => match r0 with None => returnM None | Some ret => loop ret end) s h
  = Some (r, s', h') ->
  Ures r.
Proof.
  intros Psub Usub _ Ul Hw Ht Hr. unfold bindM in Hr.
  destruct (sub s h) as [[[r1 s1] h1]|] eqn:E1; [|discriminate].
  pose proof (Psub _ _ _ _ _ Hw Ht E1) as Hp. pose proof (Usub _ _ _ _ _ Hw Ht E1) as Hu.
  destruct r1 as [ret|].
  - destruct Hp as (Hw1 & _ & Ht1 & Hl1 & _ & _ & Hok & Htr).
    eapply Ul; [exact Hw1|exact Ht1| |exact Hok|exact Htr|exact Hu|exact Hr].
    rewrite Hl1. set_solver.
  - unfold returnM in Hr. injection Hr as <- <- <-. exact I.
Qed.

Lemma loop_uniq (cond : @state D -> bool) (tf : @state D -> uval D)
    (sub : @M D (option (te_expr D))) (loop : te_expr D -> @M D (option (te_expr D)))
    ret s h r s' h' :
  Pfun vars sub -> Ufun vars sub -> Ploop vars loop -> Uloop vars loop ->
  (forall s, cond s = true -> type s <> TOK_ERROR) ->
  wf_heap h -> tok_ok vars s -> ids ret ⊆ live h -> node_ok vars ret = true ->
  (type s = TOK_ERROR \/ tree_good vars ret = true) -> uniq ret ->
  bindM get_state (fun s =>
    if cond s then
      bindM next_token_m (fun _ =>
      bindM sub (fun e =>
      bindM (fold_step ret (tf s) e) (fun r =>
      match r with None => returnM None | Some ret' => loop ret' end)))
    else returnM (Some ret)) s h = Some (r, s', h') ->
  Ures r.
Proof.
  intros Psub Usub _ Ul Hc Hw Ht Hs Hok Htr Hu Hr.
  unfold bindM at 1, get_state in Hr. destruct (cond s) eqn:Ec.
  - assert (Htr' : tree_good vars ret = true)
      by (destruct Htr as [Htr|Htr]; [exfalso; exact (Hc s Ec Htr)|exact Htr]).
    unfold bindM at 1, next_token_m in Hr. unfold bindM at 1 in Hr.
    destruct (sub (next_token s) h) as [[[e s2] h1]|] eqn:E1; [|discriminate].
    pose proof (Psub _ _ _ _ _ Hw (next_token_ok vars s Ht) E1) as Hp.
    pose proof (Usub _ _ _ _ _ Hw (next_token_ok vars s Ht) E1) as Hue.
    unfold bindM in Hr.
    destruct (fold_step ret (tf s) e s2 h1) as [[[r1 s3] h2]|] eqn:E2; [|discriminate].
    pose proof (fold_step_post vars _ _ _ _ _ _ _ _ _ Hw Hs Hok Htr' Hp E2) as Hq.
    pose proof (fold_step_uniq _ _ _ _ _ _ _ _ _ Hw Hs Hu Hp Hue E2) as Hu2.
    destruct r1 as [ret'|].
    + pose proof (post_sub_live vars _ _ _ _ _ Hq) as Hs'.
      destruct Hq as (Hw2 & _ & Ht2 & _ & _ & _ & Hok2 & Htr2).
      eapply Ul; [exact Hw2|exact Ht2|exact Hs'|exact Hok2|exact Htr2|exact Hu2|exact Hr].
    + unfold returnM in Hr. injection Hr as <- <- <-. exact I.
  - unfold returnM in Hr. injection Hr as <- <- <-. exact Hu.
Qed.

Lemma power_uniq f : Pfun vars (base f) -> Ufun vars (base f) -> Ufun vars (power (S f)).
Proof.
  intros Pb Ub s h r s' h' Hw Ht Hr. rewrite power_S in Hr. unfold bindM at 1 in Hr.
  destruct (power_signs f 1 s h) as [[[sign s1] h1]|] eqn:E1; [|discriminate].
  destruct (power_signs_ok vars _ _ _ _ _ _ _ Ht E1) as [Ht1 ->].
  destruct (sign =? 1).
  - exact (Ub _ _ _ _ _ Hw Ht1 Hr).
  - unfold bindM at 1 in Hr. destruct (base f s1 h) as [[[b s2] h2]|] eqn:E2; [|discriminate].
    pose proof (Pb _ _ _ _ _ Hw Ht1 E2) as Hp. pose proof (Ub _ _ _ _ _ Hw Ht1 E2) as Hub.
    destruct b as [b|].
    2:{ unfold returnM in Hr. injection Hr as <- <- <-. exact I. }
    destruct Hp as (Hw2 & _ & _ & Hl2 & _).
    unfold bindM at 1, new_expr in Hr. rewrite new_expr_h_unary in Hr.
    destruct (malloc_fails (hnext h2)) eqn:Em; cbv beta iota in Hr.
    + unfold bindM, free_m, returnM in Hr. injection Hr as <- <- <-. exact I.
    + unfold returnM in Hr. injection Hr as <- <- <-. cbn [Ures set_u].
      apply uniq_unary; [exact Hub|]. intros Hx.
      assert (Hl : hnext h2 ∈ live h2) by (rewrite Hl2; set_solver).
      apply Hw2 in Hl. lia.
Qed.

Lemma base_args_uniq f : Pfun vars (expr f) -> Ufun vars (expr f) ->
  Pargs vars (base_args f) -> Uargs vars (base_args f) -> Uargs vars (base_args (S f)).
Proof.
  intros Pe Ue Pa Ua arity i ret s h r s' h' Hw Ht Hs Hpre Hu Hr.
  rewrite base_args_S in Hr. destruct ret as [k t u ps].
  pose proof Hpre as (Hfc & Har & Hlen & Hi & Hgood & Hnull).
  destruct (i <? arity)%nat eqn:Ei.
  2:{ unfold returnM in Hr. injection Hr as <- <- <-. exact Hu. }
  apply Nat.ltb_lt in Ei.
  assert (Hpi : ps !! i = Some PNull).
  { specialize (Hnull i ltac:(lia)). rewrite nth_lookup in Hnull.
    destruct (ps !! i) eqn:Eps; [cbn in Hnull; congruence|].
    apply lookup_ge_None in Eps. lia. }
  unfold bindM at 1, next_token_m in Hr. unfold bindM at 1 in Hr.
  destruct (expr f (next_token s) h) as [[[p s2] h1]|] eqn:E1; [|discriminate].
  pose proof (Pe _ _ _ _ _ Hw (next_token_ok vars s Ht) E1) as Hp.
  pose proof (Ue _ _ _ _ _ Hw (next_token_ok vars s Ht) E1) as Hup.
  destruct p as [p|].
  2:{ unfold bindM, free_m, returnM in Hr.
      set (hf := te_free (Expr k t u ps) h1) in Hr. injection Hr as <- <- <-. exact I. }
  destruct Hp as (Hw1 & Hn1 & Ht1 & Hl1 & Hfr1 & Hnf1 & Hok1 & Htr1). cbn [Ures] in Hup.
  cbv zeta in Hr. unfold bindM, get_state in Hr. cbn [set_param] in Hr.
  set (ps1 := <[i := PExpr p]> ps) in Hr.
  assert (Hu1 : uniq (Expr k t u ps1)).
  { apply uniq_insert; [exact Hpi|lia|exact Hu|exact Hup|].
    intros x Hx1 Hx2. destruct (Hfr1 x Hx1) as [Hx|Hx]; [set_solver|].
    pose proof (Hw x (Hs x Hx2)). lia. }
  destruct (negb (type s2 =? TOK_SEP)) eqn:Esep.
  - unfold returnM in Hr. injection Hr as <- <- <-. exact Hu1.
  - apply negb_false_iff, Z.eqb_eq in Esep.
    assert (Hids : ids (Expr k t u ps1) = ids (Expr k t u ps) ∪ ids p)
      by (apply ids_insert; [exact Hpi|lia]).
    assert (Hlen1 : length ps1 = length ps) by apply length_insert.
    assert (Hat : nth i ps1 PNull = PExpr p).
    { rewrite nth_lookup. unfold ps1. rewrite list_lookup_insert_eq by lia. reflexivity. }
    assert (Hne : forall j, j <> i -> nth j ps1 PNull = nth j ps PNull).
    { intros j Hj. rewrite !nth_lookup. unfold ps1. rewrite list_lookup_insert_ne by lia.
      reflexivity. }
    eapply Ua; [exact Hw1|exact Ht1| | |exact Hu1|exact Hr].
    + rewrite Hl1, Hids. set_solver.
    + split; [exact Hfc|split; [exact Har|split; [lia|split; [lia|split]]]].
      * intros j Hj. destruct (decide (j = i)) as [->|Hji].
        -- rewrite Hat. split; [exact Hok1|].
           destruct Htr1 as [Htr1|Htr1]; [rewrite Esep in Htr1; discriminate|exact Htr1].
        -- rewrite (Hne j Hji). apply Hgood. lia.
      * intros j Hj. rewrite (Hne j ltac:(lia)). apply Hnull. lia.
Qed.

Lemma base_uniq f : Pfun vars (parse_list f) -> Ufun vars (parse_list f) ->
  Pfun vars (power f) -> Ufun vars (power f) ->
  Pargs vars (base_args f) -> Uargs vars (base_args f) -> Ufun vars (base (S f)).
Proof.
  intros Pl Ul Pp Up Pa Ua s h r s' h' Hw Ht Hr.
  rewrite base_S in Hr.
  cbv beta iota zeta delta [bindM get_state next_token_m returnM set_type_m new_expr free_m] in Hr.
  destruct (TYPE_MASK (type s) =? TOK_NUMBER) eqn:E1.
  { rewrite new_expr_h_none in Hr.
    destruct (malloc_fails (hnext h)) eqn:Em; cbv beta iota in Hr; injection Hr as <- <- <-;
      [exact I|].
    cbn [Ures set_u]. apply uniq_leaf. first [apply no_child_repeat | apply no_child_nil]. }
  destruct (TYPE_MASK (type s) =? TOK_VARIABLE) eqn:E2.
  { rewrite new_expr_h_none in Hr.
    destruct (malloc_fails (hnext h)) eqn:Em; cbv beta iota in Hr; injection Hr as <- <- <-;
      [exact I|].
    cbn [Ures set_u]. apply uniq_leaf. first [apply no_child_repeat | apply no_child_nil]. }
  destruct ((TYPE_MASK (type s) =? TE_FUNCTION0) || (TYPE_MASK (type s) =? TE_CLOSURE0)) eqn:E3.
  { rewrite new_expr_h_none in Hr.
    destruct (malloc_fails (hnext h)) eqn:Em; cbv beta iota in Hr.
    - injection Hr as <- <- <-. exact I.
    - assert (Har0 : Z.to_nat (ARITY (type s)) = 0%nat).
      { destruct (mask_facts (type s)) as [EA _]. rewrite EA.
        apply orb_true_iff in E3 as [E3|E3]; apply Z.eqb_eq in E3; rewrite E3; reflexivity. }
      destruct (prep_shape (type s) (su s) (context s) (hnext h)) as (ps & Eps & Hcs).
      rewrite Har0 in Eps. unfold prep in Eps. rewrite Eps in Hr.
      pose proof Hcs as (_ & _ & Hnc & _).
      destruct (type (next_token s) =? TOK_OPEN);
        [destruct (negb (type (next_token (next_token s)) =? TOK_CLOSE))|];
        cbv beta in Hr; injection Hr as <- <- <-; cbn [Ures]; apply uniq_leaf; exact Hnc. }
  destruct ((TYPE_MASK (type s) =? TE_FUNCTION1) || (TYPE_MASK (type s) =? TE_CLOSURE1)) eqn:E4.
  { rewrite new_expr_h_none in Hr.
    destruct (malloc_fails (hnext h)) eqn:Em; cbv beta iota in Hr.
    - injection Hr as <- <- <-. exact I.
    - assert (Hcall : callable_type (type s) = true).
      { destruct (mask_facts (type s)) as (_ & _ & _ & _ & EC). rewrite EC.
        apply orb_true_iff in E4 as [E4|E4]; apply Z.eqb_eq in E4; rewrite E4; reflexivity. }
      assert (Har1 : Z.to_nat (ARITY (type s)) = 1%nat).
      { destruct (mask_facts (type s)) as [EA _]. rewrite EA.
        apply orb_true_iff in E4 as [E4|E4]; apply Z.eqb_eq in E4; rewrite E4; reflexivity. }
      destruct (prep_shape (type s) (su s) (context s) (hnext h)) as (ps & Eps & Hcs).
      rewrite Har1 in Eps. unfold prep in Eps. rewrite Eps in Hr.
      destruct (power f (next_token s) (mk_heap (S (hnext h)) ({[hnext h]} ∪ live h)))
        as [[[p s2] h2]|] eqn:Ep; [|discriminate].
      pose proof (Pp _ _ _ _ _ (wf_alloc h Hw) (next_token_ok vars s Ht) Ep) as Hq.
      pose proof (Up _ _ _ _ _ (wf_alloc h Hw) (next_token_ok vars s Ht) Ep) as Hup.
      destruct (callable_facts _ Hcall) as [_ Hfc].
      pose proof Hcs as (Hlen & Hnull & Hnc & _).
      destruct p as [p|]; cbv beta in Hr.
      + injection Hr as <- <- <-. cbn [set_param Ures]. cbn [Ures] in Hup.
        destruct Hq as (_ & _ & _ & _ & Hfr2 & _). cbn [hnext] in Hfr2.
        assert (Hp0 : ps !! 0%nat = Some PNull) by (apply Hnull; lia).
        apply uniq_insert; [exact Hp0|lia|apply uniq_leaf, Hnc|exact Hup|].
        intros x Hx1 Hx2. rewrite ids_leaf in Hx2 by exact Hnc.
        apply elem_of_singleton in Hx2. subst x.
        destruct (Hfr2 _ Hx1) as [Hx|Hx]; [set_solver|lia].
      + set (hf := te_free (Expr (hnext h) (type s) (su s) ps) h2) in Hr.
        injection Hr as <- <- <-. exact I. }
  destruct (((TE_FUNCTION2 <=? TYPE_MASK (type s)) && (TYPE_MASK (type s) <=? TE_FUNCTION7))
            || ((TE_CLOSURE2 <=? TYPE_MASK (type s)) && (TYPE_MASK (type s) <=? TE_CLOSURE7))) eqn:E5.
  { destruct (multi_mask _ E5) as [Hcall H2].
    rewrite new_expr_h_none in Hr.
    destruct (malloc_fails (hnext h)) eqn:Em; cbv beta iota in Hr.
    - injection Hr as <- <- <-. exact I.
    - destruct (prep_shape (type s) (su s) (context s) (hnext h)) as (ps & Eps & Hcs).
      unfold prep in Eps. rewrite Eps in Hr.
      pose proof Hcs as (Hlen & Hnull & Hnc & _).
      destruct (negb (type (next_token s) =? TOK_OPEN)) eqn:Eo; cbv beta in Hr.
      { injection Hr as <- <- <-. cbn [Ures]. apply uniq_leaf. exact Hnc. }
      destruct (base_args f (Z.to_nat (ARITY (type s))) 0 (Expr (hnext h) (type s) (su s) ps)
                  (next_token s) (mk_heap (S (hnext h)) ({[hnext h]} ∪ live h)))
        as [[[a s2] h2]|] eqn:Ea; [|discriminate].
      assert (Hpre : args_pre vars (Z.to_nat (ARITY (type s))) 0 (Expr (hnext h) (type s) (su s) ps)).
      { destruct (callable_facts _ Hcall) as [_ Hfc].
        split; [symmetry; exact Hfc|split; [reflexivity|split; [exact Hlen|split; [lia|split]]]].
        - intros j Hj; lia.
        - intros j Hj. rewrite nth_lookup, Hnull by lia. reflexivity. }
      assert (Hsub : ids (Expr (hnext h) (type s) (su s) ps)
                     ⊆ live (mk_heap (S (hnext h)) ({[hnext h]} ∪ live h)))
        by (rewrite ids_leaf by exact Hnc; cbn [live]; set_solver).
      pose proof (Ua _ _ _ _ _ _ _ _ (wf_alloc h Hw) (next_token_ok vars s Ht) Hsub Hpre
                    (uniq_leaf _ _ _ _ Hnc) Ea) as Hq.
      destruct a as [[ret' i']|]; cbv beta in Hr.
      + destruct (negb (type s2 =? TOK_CLOSE) || negb (i' =? Z.to_nat (ARITY (type s)) - 1)%nat);
          cbv beta in Hr; injection Hr as <- <- <-; exact Hq.
      + injection Hr as <- <- <-. exact I. }
  destruct (TYPE_MASK (type s) =? TOK_OPEN) eqn:E6.
  { destruct (parse_list f (next_token s) h) as [[[a s1] h1]|] eqn:El; [|discriminate].
    pose proof (Ul _ _ _ _ _ Hw (next_token_ok vars s Ht) El) as Hq.
    destruct a as [ret|]; cbv beta in Hr.
    - destruct (negb (type s1 =? TOK_CLOSE)); cbv beta in Hr; injection Hr as <- <- <-; exact Hq.
    - injection Hr as <- <- <-. exact I. }
  rewrite new_expr_h_none in Hr.
  destruct (malloc_fails (hnext h)) eqn:Em; cbv beta iota in Hr; injection Hr as <- <- <-;
    [exact I|].
  cbn [Ures set_u]. apply uniq_leaf. first [apply no_child_repeat | apply no_child_nil].
Qed.

Ltac ucond_tac := intros ?s0 ?E ?E'; cbv beta in E; rewrite E' in E; vm_compute in E; discriminate E.

Lemma parse_uniq f :
  Ufun vars (parse_list f) /\ Uloop vars (list_loop f) /\ Ufun vars (expr f) /\
  Uloop vars (expr_loop f) /\ Ufun vars (term f) /\ Uloop vars (term_loop f) /\
  Ufun vars (factor f) /\ Uloop vars (factor_loop f) /\ Ufun vars (power f) /\
  Ufun vars (base f) /\ Uargs vars (base_args f).
Proof.
  induction f as [|f IH].
  - repeat split; unfold Ufun, Uloop, Uargs; intros;
      match goal with Hr : _ = Some _ |- _ => cbn in Hr; discriminate Hr end.
  - destruct IH as (Ul & Ull & Ue & Uel & Ut & Utl & Uf & Ufl & Up & Ub & Ua).
    destruct (parse_inv vars f) as (Pl & Pll & Pe & Pel & Pt & Ptl & Pf & Pfl & Pp & Pb & Pa).
    split; [intros s h r s' h' Hw Hs Hr; rewrite parse_list_S in Hr;
            exact (head_uniq _ _ s h r s' h' Pe Ue Pll Ull Hw Hs Hr)|].
    split; [intros ret s h r s' h' Hw Hs Hsub Hok Htr Hu Hr; rewrite list_loop_S in Hr;
            exact (loop_uniq (fun s0 => type s0 =? TOK_SEP) (fun _ => UFunction (Code "comma"))
                     _ _ ret s h r s' h' Pe Ue Pll Ull ltac:(ucond_tac) Hw Hs Hsub Hok Htr Hu Hr)|].
    split; [intros s h r s' h' Hw Hs Hr; rewrite expr_S in Hr;
            exact (head_uniq _ _ s h r s' h' Pt Ut Pel Uel Hw Hs Hr)|].
    split; [intros ret s h r s' h' Hw Hs Hsub Hok Htr Hu Hr; rewrite expr_loop_S in Hr;
            exact (loop_uniq (fun s0 => (type s0 =? TOK_INFIX)
                       && (function_is s0 (Code "add") || function_is s0 (Code "sub")))
                     (fun s0 => su s0)
                     _ _ ret s h r s' h' Pt Ut Pel Uel ltac:(ucond_tac) Hw Hs Hsub Hok Htr Hu Hr)|].
    split; [intros s h r s' h' Hw Hs Hr; rewrite term_S in Hr;
            exact (head_uniq _ _ s h r s' h' Pf Uf Ptl Utl Hw Hs Hr)|].
    split; [intros ret s h r s' h' Hw Hs Hsub Hok Htr Hu Hr; rewrite term_loop_S in Hr;
            exact (loop_uniq (fun s0 => (type s0 =? TOK_INFIX)
                       && (function_is s0 (Code "mul") || function_is s0 (Code "divide")
                           || function_is s0 (Code "fmod")))
                     (fun s0 => su s0)
                     _ _ ret s h r s' h' Pf Uf Ptl Utl ltac:(ucond_tac) Hw Hs Hsub Hok Htr Hu Hr)|].
    split; [intros s h r s' h' Hw Hs Hr; rewrite factor_S in Hr;
            exact (head_uniq _ _ s h r s' h' Pp Up Pfl Ufl Hw Hs Hr)|].
    split; [intros ret s h r s' h' Hw Hs Hsub Hok Htr Hu Hr; rewrite factor_loop_S in Hr;
            exact (loop_uniq (fun s0 => (type s0 =? TOK_INFIX) && function_is s0 (Code "pow"))
                     (fun s0 => su s0)
                     _ _ ret s h r s' h' Pp Up Pfl Ufl ltac:(ucond_tac) Hw Hs Hsub Hok Htr Hu Hr)|].
    split; [exact (power_uniq f Pb Ub)|].
    split; [exact (base_uniq f Pl Ul Pp Up Pa Ua)|].
    exact (base_args_uniq f Pe Ue Pa Ua).
Qed.

End Uniq.

Section Opt_live.
Context {D : Type} `{Host D}.

Lemma live_same (L X : gset nat) : X ⊆ L -> L = (L ∖ X) ∪ X.
Proof.
  intros Hs. apply leibniz_equiv, set_equiv. intros x.
  destruct (decide (x ∈ X)); set_solver.
Qed.

Lemma live_nil (L : gset nat) : L = (L ∖ ∅) ∪ ∅.
Proof. apply leibniz_equiv, set_equiv. intros x. set_solver. Qed.

Lemma live_cons (L L1 L2 C C' Rt Rt' : gset nat) :
  L1 = (L ∖ C) ∪ C' -> L2 = (L1 ∖ Rt) ∪ Rt' -> C' ⊆ C -> C ## Rt ->
  L2 = (L ∖ (C ∪ Rt)) ∪ (C' ∪ Rt').
Proof.
  intros -> -> Hs Hd. apply leibniz_equiv, set_equiv. intros x.
  destruct (decide (x ∈ C)); destruct (decide (x ∈ Rt)); set_solver.
Qed.

Lemma live_sub (L C C' Rt : gset nat) : C ∪ Rt ⊆ L -> C ## Rt -> Rt ⊆ (L ∖ C) ∪ C'.
Proof. intros Hs Hd. set_solver. Qed.

Lemma live_skip (L L2 Rt Rt' : gset nat) :
  L2 = (L ∖ Rt) ∪ Rt' -> L2 = (L ∖ (∅ ∪ Rt)) ∪ (∅ ∪ Rt').
Proof. intros ->. apply leibniz_equiv, set_equiv. intros x. set_solver. Qed.

Lemma live_fold (L L1 R R' : gset nat) id :
  L1 = (L ∖ R) ∪ R' -> R' ⊆ R -> id ∈ L -> id ∉ R ->
  L1 ∖ R' = (L ∖ ({[id]} ∪ R)) ∪ {[id]}.
Proof.
  intros -> Hs Hi Hn. apply leibniz_equiv, set_equiv. intros x.
  destruct (decide (x ∈ R')); destruct (decide (x ∈ R)); destruct (decide (x = id)); set_solver.
Qed.

Lemma live_node (L L1 R R' : gset nat) id :
  L1 = (L ∖ R) ∪ R' -> id ∈ L -> id ∉ R ->
  L1 = (L ∖ ({[id]} ∪ R)) ∪ ({[id]} ∪ R').
Proof.
  intros -> Hi Hn. apply leibniz_equiv, set_equiv. intros x.
  destruct (decide (x = id)); destruct (decide (x ∈ R)); set_solver.
Qed.

Lemma optimize_live : forall (n : te_expr D) h,
  kinds_ok n = true -> uniq n -> ids n ⊆ live h ->
  live (snd (optimize n h)) = (live h ∖ ids n) ∪ ids (fst (optimize n h)).
Proof.
  intros n. induction n as [id t u ps Hps] using te_expr_ind'. intros h Hk Hu Hs.
  unfold kinds_ok in Hk. rewrite forall_nodes_true in Hk. destruct Hk as [Hkt Hkc].
  cbn [node_type] in Hkt. pose proof (kind_ok_arity t Hkt) as Ear.
  set (ar := Z.to_nat (ARITY t)) in *.
  assert (G : forall i h ps' known h', opt_go ar i ps h = (ps', known, h') ->
    (forall j c, ps !! j = Some (PExpr c) -> (i + j < ar)%nat -> kinds_ok c = true) ->
    uniq_go ar i ps -> ids_go ar i ps ⊆ live h ->
    live h' = (live h ∖ ids_go ar i ps) ∪ ids_go ar i ps' /\ ids_go ar i ps' ⊆ ids_go ar i ps).
  { clear h Hkc Hu Hs. induction Hps as [|p ps Hp Hps IH]; intros i h ps' known h' E Hkc Hu Hs;
      cbn [opt_go] in E.
    - injection E as <- <- <-. cbn [ids_go]. split; [apply live_nil|set_solver].
    - fold (opt_go ar (S i) ps) in E.
      assert (Hkc' : forall j c, ps !! j = Some (PExpr c) -> (S i + j < ar)%nat ->
                     kinds_ok c = true)
        by (intros j c Hj Hl; apply (Hkc (S j) c Hj); lia).
      cbn [ids_go uniq_go] in Hs, Hu |- *. fold (ids_go ar (S i) ps) in Hs, Hu |- *.
      fold (uniq_go ar (S i) ps) in Hu. destruct Hu as [Hu1 Hu2].
      destruct (i <? ar)%nat eqn:Ei.
      + destruct p as [|c|a].
        * destruct (opt_go ar (S i) ps h) as [[ps'' kn] h2] eqn:E2. injection E as <- <- <-.
          cbn [ids_go]. fold (ids_go ar (S i) ps''). rewrite Ei.
          destruct (IH _ _ _ _ _ E2 Hkc' Hu2 ltac:(set_solver)) as [A1 A2].
          split; [apply live_skip, A1|set_solver].
        * destruct (optimize c h) as [c' h1] eqn:Ec.
          destruct (opt_go ar (S i) ps h1) as [[ps'' kn] h2] eqn:E2. injection E as <- <- <-.
          cbn [ids_go]. fold (ids_go ar (S i) ps''). rewrite Ei.
          apply Nat.ltb_lt in Ei.
          destruct Hu1 as [Huc Hd].
          assert (Kc : kinds_ok c = true) by (apply (Hkc O c eq_refl); lia).
          cbn in Hp. pose proof (Hp h Kc Huc ltac:(set_solver)) as B. rewrite Ec in B.
          cbn [fst snd] in B.
          pose proof (optimize_acct c h Kc) as Ac. unfold opt_acct in Ac. rewrite Ec in Ac.
          cbn [fst snd] in Ac. destruct Ac as (_ & _ & _ & Ac & _).
          destruct (IH _ _ _ _ _ E2 Hkc' Hu2) as [A1 A2].
          { rewrite B. apply live_sub; assumption. }
          split; [exact (live_cons _ _ _ _ _ _ _ B A1 Ac Hd)|set_solver].
        * destruct (opt_go ar (S i) ps h) as [[ps'' kn] h2] eqn:E2. injection E as <- <- <-.
          cbn [ids_go]. fold (ids_go ar (S i) ps''). rewrite Ei.
          destruct (IH _ _ _ _ _ E2 Hkc' Hu2 ltac:(set_solver)) as [A1 A2].
          split; [apply live_skip, A1|set_solver].
      + destruct (opt_go ar (S i) ps h) as [[ps'' kn] h2] eqn:E2. injection E as <- <- <-.
        cbn [ids_go]. fold (ids_go ar (S i) ps''). rewrite Ei.
        destruct (IH _ _ _ _ _ E2 Hkc' Hu2 ltac:(set_solver)) as [A1 A2].
        split; [apply live_skip, A1|set_solver]. }
  rewrite optimize_Expr. fold ar.
  destruct ((t =? TE_CONSTANT) || (t =? TE_VARIABLE)).
  { cbn [fst snd]. apply live_same. exact Hs. }
  destruct (IS_PURE t).
  2:{ cbn [fst snd]. apply live_same. exact Hs. }
  rewrite uniq_Expr, <- Ear in Hu. destruct Hu as [Hid Hu].
  rewrite ids_Expr, <- Ear in Hs |- *.
  destruct (opt_go ar 0 ps h) as [[ps' known] h'] eqn:Eo.
  destruct (G _ _ _ _ _ Eo (fun j c Hj Hl => Hkc j c Hj Hl) Hu ltac:(set_solver)) as [A1 A2].
  assert (Hin : id ∈ live h) by set_solver.
  destruct known; cbn [fst snd].
  - unfold te_free_parameters. cbn [node_type parameters]. rewrite free_params_from_go, <- Ear.
    destruct (free_go_spec ar 0 ps' h') as [F1 _].
    rewrite ids_const, F1. exact (live_fold _ _ _ _ id A1 A2 Hin Hid).
  - rewrite ids_Expr, <- Ear. exact (live_node _ _ _ _ id A1 Hin Hid).
Qed.

End Opt_live.


Section Compile_extras.
Context {D : Type} `{Host D}.

Lemma parse_root_shape fuel expression vars h r s1 h1 :
  parse_root (D:=D) fuel expression vars h = Some (r, s1, h1) ->
  (next s1 <= String.length expression)%nat /\ Sres r.
Proof.
  intros Hr. destruct (proj1 (parse_shape fuel) _ _ _ _ _ Hr) as [C R].
  pose proof (cursor_le_trans _ _ _ (cursor_le_next_token (init_state expression vars)) C)
    as (_ & _ & _ & Hb).
  split; [apply Hb; cbn; lia|exact R].
Qed.

Lemma compile_sets (Lh L1 L2 R R' : gset nat) :
  L1 = Lh ∪ R -> R ## Lh -> L2 ⊆ L1 -> L1 ∖ R ⊆ L2 -> R' ⊆ R -> R ∖ R' ## L2 ->
  R' ## Lh /\ Lh ⊆ L2 /\ L2 ⊆ Lh ∪ R' /\ L2 ∖ R' = Lh.
Proof.
  intros E Hd A2 A3 A4 A5. subst L1.
  assert (B3 : L2 ⊆ Lh ∪ R').
  { intros x Hx. destruct (decide (x ∈ R')) as [Hi|Hi]; [set_solver|].
    destruct (decide (x ∈ R)) as [Hj|Hj]; [|set_solver].
    exfalso. apply (A5 x); [set_solver|exact Hx]. }
  split; [set_solver|split; [set_solver|split; [exact B3|]]].
  apply leibniz_equiv, set_equiv. intros x. split.
  - intros Hx. apply elem_of_difference in Hx as [Hx Hn]. apply B3 in Hx. set_solver.
  - intros Hx. apply elem_of_difference. split; [set_solver|]. intros Hr. apply (Hd x); set_solver.
Qed.

Lemma compile_success fuel expression vars h root' err h' :
  wf_heap h -> te_compile (D:=D) fuel expression vars h = Some (Some root', err, h') ->
  exists root s1 h1, parse_root fuel expression vars h = Some (Some root, s1, h1) /\
    type s1 = TOK_END /\ optimize root h1 = (root', h') /\ err = 0 /\
    live h1 = live h ∪ ids root /\ ids root ## live h /\ kinds_ok root = true /\
    tree_good vars root = true.
Proof.
  intros Hw Hc. rewrite te_compile_root in Hc.
  destruct (parse_root fuel expression vars h) as [[[[root|] s1] h1]|] eqn:Ep; try discriminate.
  destruct (negb (type s1 =? TOK_END)) eqn:Ee; [discriminate|].
  apply negb_false_iff, Z.eqb_eq in Ee.
  destruct (optimize root h1) as [r2 h2] eqn:Eo. injection Hc as <- <- <-.
  exists root, s1, h1. split; [reflexivity|split; [exact Ee|split; [exact Eo|split; [reflexivity|]]]].
  destruct (parse_root_post _ _ _ _ _ _ _ Hw Ep) as (_ & _ & _ & Hl & Hfr & _ & _ & Htr).
  destruct (parse_root_shape _ _ _ _ _ _ _ Ep) as [_ Hk]. cbn [Sres] in Hk.
  split; [rewrite Hl; apply leibniz_equiv, set_equiv; intros x; set_solver|].
  split; [|split; [exact Hk|destruct Htr as [Htr|Htr]; [rewrite Ee in Htr; discriminate|exact Htr]]].
  intros x Hx Hlx. destruct (Hfr x Hx) as [Hx'|Hx']; [set_solver|]. apply Hw in Hlx. lia.
Qed.

Lemma compile_fail_live fuel expression vars h err h' :
  wf_heap h -> te_compile (D:=D) fuel expression vars h = Some (None, err, h') -> live h' = live h.
Proof.
  intros Hw Hc. rewrite te_compile_root in Hc.
  destruct (parse_root fuel expression vars h) as [[[[root|] s1] h1]|] eqn:Ep; try discriminate.
  - destruct (negb (type s1 =? TOK_END)) eqn:Ee;
      [|destruct (optimize root h1); discriminate].
    injection Hc as _ <-.
    pose proof (parse_root_post _ _ _ _ _ _ _ Hw Ep) as (_ & _ & _ & Hl & Hfr & _).
    destruct (te_free_spec root h1) as [Lr _]. rewrite Lr, Hl.
    apply leibniz_equiv, set_equiv. intros x.
    assert (Hd : x ∈ ids root -> x ∉ live h).
    { intros Hx Hlx. destruct (Hfr x Hx) as [Hx'|Hx']; [set_solver|].
      apply Hw in Hlx. lia. }
    set_cases; set_solver.
  - injection Hc as _ <-.
    destruct (parse_root_post _ _ _ _ _ _ _ Hw Ep) as (_ & _ & _ & Hl & _).
    rewrite Hl. apply leibniz_equiv, set_equiv. intros x. set_solver.
Qed.

Lemma compile_ok_sets fuel expression vars h root' err h' :
  wf_heap h -> te_compile (D:=D) fuel expression vars h = Some (Some root', err, h') ->
  err = 0 /\ ids root' ## live h /\ live h ⊆ live h' /\ live h' ⊆ live h ∪ ids root' /\
  live h' ∖ ids root' = live h.
Proof.
  intros Hw Hc.
  destruct (compile_success _ _ _ _ _ _ _ Hw Hc)
    as (root & s1 & h1 & Ep & Ee & Eo & -> & Hl & Hd & Hk & _).
  pose proof (optimize_acct root h1 Hk) as A. unfold opt_acct in A. rewrite Eo in A.
  cbn [fst snd] in A. destruct A as (_ & A2 & A3 & A4 & A5 & _).
  split; [reflexivity|]. exact (compile_sets _ _ _ _ _ Hl Hd A2 A3 A4 A5).
Qed.

End Compile_extras.

Section Compile_uniq.
Context {D : Type} `{Host D}.

Lemma parse_root_uniq fuel expression vars h root s1 h1 :
  wf_heap h -> parse_root (D:=D) fuel expression vars h = Some (Some root, s1, h1) -> uniq root.
Proof.
  intros Hw Hr. exact (proj1 (parse_uniq vars fuel) _ _ _ _ _ Hw
                         (next_token_ok vars _ (tok_ok_init vars expression)) Hr).
Qed.

Lemma compile_live fuel expression vars h root' err h' :
  wf_heap h -> te_compile (D:=D) fuel expression vars h = Some (Some root', err, h') ->
  live h' = live h ∪ ids root'.
Proof.
  intros Hw Hc.
  destruct (compile_success _ _ _ _ _ _ _ Hw Hc)
    as (root & s1 & h1 & Ep & Ee & Eo & -> & Hl & Hd & Hk & _).
  pose proof (optimize_live root h1 Hk (parse_root_uniq _ _ _ _ _ _ _ Hw Ep)
                ltac:(rewrite Hl; set_solver)) as E.
  rewrite Eo in E. cbn [fst snd] in E. rewrite E, Hl.
  apply leibniz_equiv, set_equiv. intros x. set_solver.
Qed.

End Compile_uniq.

Section Compile_theorems.
Context {D : Type} `{Host D}.


(** On success [te_compile] returns error 0 and a tree made of nodes that
    were not live before the call; the nodes live afterwards are exactly
    those live before together with the nodes of the tree, so [te_free]
    on the tree gives back exactly the live nodes of before the call. *)
Theorem compile_no_leak fuel expression vars h root' err h' :
  wf_heap h -> te_compile (D:=D) fuel expression vars h = Some (Some root', err, h') ->
  err = 0 /\ ids root' ## live h /\ live h' = live h ∪ ids root' /\
  live (te_free root' h') = live h.
Proof.
  intros Hw Hc.
  destruct (compile_ok_sets _ _ _ _ _ _ _ Hw Hc) as (E & A & _ & _ & F).
  split; [exact E|split; [exact A|split; [exact (compile_live _ _ _ _ _ _ _ Hw Hc)|]]].
  destruct (te_free_spec root' h') as [Lr _]. rewrite Lr. exact F.
Qed.

(** Every node of a tree [te_compile] returns has a node in each of its
    argument slots [0 .. ARITY - 1], so [te_eval] never reads an empty
    slot of it. *)
Theorem compile_slots_filled fuel expression vars h root' err h' :
  wf_heap h -> te_compile (D:=D) fuel expression vars h = Some (Some root', err, h') ->
  forall_nodes slots_filled root' = true.
Proof.
  intros Hw Hc.
  destruct (compile_success _ _ _ _ _ _ _ Hw Hc)
    as (root & s1 & h1 & Ep & Ee & Eo & _ & _ & _ & Hk & Htr).
  pose proof (optimize_acct root h1 Hk) as A. unfold opt_acct in A. rewrite Eo in A.
  cbn [fst snd] in A. destruct A as (_ & _ & _ & _ & _ & A6). apply A6.
  revert Htr. unfold tree_good. apply forall_nodes_mono. intros m Hm.
  apply andb_true_iff in Hm as [Hm _]. exact Hm.
Qed.

(** [te_interp] frees everything it allocates: the live nodes after the
    call are those before it, whatever the outcome. *)
Theorem interp_frees_all fuel expression h v err h' :
  wf_heap h -> te_interp (D:=D) fuel expression h = Some (v, err, h') -> live h' = live h.
Proof.
  intros Hw Hi. unfold te_interp in Hi.
  destruct (te_compile fuel expression [] h) as [[[[n|] e] h1]|] eqn:Ec; try discriminate.
  - injection Hi as _ _ <-.
    destruct (compile_ok_sets _ _ _ _ _ _ _ Hw Ec) as (_ & _ & _ & _ & F).
    destruct (te_free_spec n h1) as [Lr _]. rewrite Lr. exact F.
  - injection Hi as _ _ <-. exact (compile_fail_live _ _ _ _ _ _ Hw Ec).
Qed.

(** [te_interp], by the outcome of [list] on the first token: when
    [list] returns NULL (a [malloc] call returned NULL) the result is NaN
    with error -1; when the parse stopped before [TOK_END] the result is
    NaN with a nonzero error; when the whole input parsed, the result is
    the value [te_eval] gives on the parsed tree, with error 0.  ([None]
    is the fuel running out, which no C run does.) *)
Theorem interp_value fuel expression h :
  match parse_root fuel expression [] h with
  | None => te_interp (D:=D) fuel expression h = None
  | Some (None, _, h1) => te_interp (D:=D) fuel expression h = Some (NAN, -1, h1)
  | Some (Some root, s1, h1) =>
      if type s1 =? TOK_END then
        exists h', te_interp fuel expression h = Some (te_eval root, 0, h')
      else
        exists err h', te_interp (D:=D) fuel expression h = Some (NAN, err, h') /\ err <> 0
  end.
Proof.
  unfold te_interp. rewrite te_compile_root.
  destruct (parse_root fuel expression [] h) as [[[[root|] s1] h1]|] eqn:Ep;
    [|reflexivity|reflexivity].
  destruct (type s1 =? TOK_END) eqn:Ee; cbn [negb].
  - destruct (optimize root h1) as [r2 h2] eqn:Eo.
    destruct (optimize_sound root h1) as [Hv _]. rewrite Eo in Hv. cbn [fst] in Hv.
    rewrite Hv. eexists. reflexivity.
  - eexists _, _. split; [reflexivity|].
    destruct (Z.eqb_spec (Z.of_nat (next s1)) 0); lia.
Qed.

(** [optimize] never changes the value of a tree. *)
Theorem optimize_value (n : te_expr D) h : te_eval (fst (optimize n h)) = te_eval n.
Proof. exact (proj1 (optimize_sound n h)). Qed.

(** On a tree whose nodes are all constants, variables, functions or
    closures, [optimize] allocates nothing, frees only nodes of the tree
    it is given and every one of them it drops from the tree, and keeps
    every argument slot filled. *)
Theorem optimize_heap (n : te_expr D) h :
  kinds_ok n = true ->
  hnext (snd (optimize n h)) = hnext h /\ live (snd (optimize n h)) ⊆ live h /\
  live h ∖ ids n ⊆ live (snd (optimize n h)) /\
  ids (fst (optimize n h)) ⊆ ids n /\
  ids n ∖ ids (fst (optimize n h)) ## live (snd (optimize n h)) /\
  (forall_nodes slots_filled n = true -> forall_nodes slots_filled (fst (optimize n h)) = true).
Proof. intros Hk. exact (optimize_acct n h Hk). Qed.

End Compile_theorems.


Lemma next_token_cursor_witness :
  (next (init_state (D:=Z) "1+2" []) <= String.length (start (init_state (D:=Z) "1+2" [])))%nat /\
  (next (init_state (D:=Z) "1+2" []) <= next (next_token (init_state (D:=Z) "1+2" []))
   <= String.length (start (init_state (D:=Z) "1+2" [])))%nat.
Proof.
  split; [cbn; lia|].
  exact (proj2 (proj2 (next_token_cursor (init_state "1+2" []) ltac:(cbn; lia)))).
Defined.

Lemma next_token_end_stable_witness :
  type (next_token (init_state (D:=Z) "  " [])) = TOK_END /\
  next_token (next_token (init_state (D:=Z) "  " [])) = next_token (init_state "  " []).
Proof.
  split; [reflexivity|].
  exact (proj2 (next_token_end_stable (init_state "  " []) eq_refl)).
Defined.

Lemma next_token_unknown_char_witness :
  lexer_char (cur (init_state (D:=Z) "#1" [])) = false /\
  next_token (init_state (D:=Z) "#1" []) =
    set_type (set_next (init_state "#1" []) 1) TOK_ERROR.
Proof.
  split; [reflexivity|].
  exact (next_token_unknown_char (init_state "#1" []) eq_refl).
Defined.

Lemma next_token_skips_space_witness :
  is_space (cur (init_state (D:=Z) " 1" [])) = true /\
  next_token (init_state (D:=Z) " 1" []) = next_token (set_next (init_state " 1" []) 1).
Proof.
  split; [reflexivity|].
  exact (next_token_skips_space (init_state " 1" []) eq_refl).
Defined.


Lemma next_token_number_witness :
  is_digit (cur (init_state (D:=Z) "12" [])) = true /\
  type (next_token (init_state (D:=Z) "12" [])) = TOK_NUMBER.
Proof.
  split; [reflexivity|exact (proj1 (next_token_number (init_state "12" []) eq_refl))].
Defined.

Lemma next_token_dot_alone_witness :
  cur (init_state (D:=Z) "." []) = "."%char /\
  next_token (init_state (D:=Z) "." []) =
    set_type (set_su (init_state "." []) (UValue (strtod_value ""))) TOK_NUMBER.
Proof.
  split; [reflexivity|].
  exact (next_token_dot_alone (init_state "." []) eq_refl eq_refl).
Defined.

(** The empty heap is well formed. *)
Lemma wf_h0 : wf_heap h0.
Proof. intros x Hx. cbn in Hx. set_solver. Qed.


Lemma compile_no_leak_witness :
  wf_heap h0 /\ exists root' h', te_compile 10 "1+2" [] h0 = Some (Some root', 0, h') /\
  live h' = live h0 ∪ ids root' /\ live (te_free root' h') = live h0.
Proof.
  split; [exact wf_h0|].
  destruct (te_compile 10 "1+2" [] h0) as [[[[r|] err] h']|] eqn:E;
    try (vm_compute in E; discriminate E).
  assert (Herr : err = 0) by (vm_compute in E; congruence). subst err.
  exists r, h'. split; [reflexivity|].
  exact (proj2 (proj2 (compile_no_leak 10 "1+2" [] h0 r 0 h' wf_h0 E))).
Defined.

Lemma compile_slots_filled_witness :
  wf_heap h0 /\ exists root' h', te_compile 10 "x+1" [mk_var "x" (Data 7) TE_VARIABLE NullPtr] h0
    = Some (Some root', 0, h') /\ forall_nodes slots_filled root' = true.
Proof.
  split; [exact wf_h0|].
  destruct (te_compile 10 "x+1" [mk_var "x" (Data 7) TE_VARIABLE NullPtr] h0)
    as [[[[r|] err] h']|] eqn:E; try (vm_compute in E; discriminate E).
  assert (Herr : err = 0) by (vm_compute in E; congruence). subst err.
  exists r, h'. split; [reflexivity|].
  exact (compile_slots_filled 10 "x+1" _ h0 r 0 h' wf_h0 E).
Defined.

Lemma interp_frees_all_witness :
  wf_heap h0 /\ exists h', te_interp 10 "1+)" h0 = Some (-999, 3, h') /\ live h' = live h0.
Proof.
  split; [exact wf_h0|].
  destruct (te_interp 10 "1+)" h0) as [[[v err] h']|] eqn:E;
    [|vm_compute in E; discriminate E].
  assert (Hv : v = -999 /\ err = 3) by (vm_compute in E; split; congruence).
  destruct Hv as [-> ->].
  exists h'. split; [reflexivity|]. exact (interp_frees_all 10 "1+)" h0 (-999) 3 h' wf_h0 E).
Defined.

Lemma optimize_heap_witness :
  kinds_ok opt_sample = true /\
  live (snd (optimize opt_sample (mk_heap 3 {[0%nat; 1%nat; 2%nat]}))) ⊆ {[0%nat; 1%nat; 2%nat]}.
Proof.
  split; [reflexivity|].
  exact (proj1 (proj2 (optimize_heap opt_sample (mk_heap 3 {[0%nat; 1%nat; 2%nat]}) eq_refl))).
Defined.

Section Combinatorics_values.
Import Combinatorics.

Lemma binom_gt n k : (n < k)%nat -> binom n k = 0%nat.
Proof.
  revert k; induction n as [|n IH]; intros k Hk; destruct k as [|k]; try lia; [reflexivity|].
  cbn [binom]. rewrite !IH by lia. reflexivity.
Qed.

Lemma binom_fact N k : (k <= N)%nat -> (binom N k * fact k * fact (N - k) = fact N)%nat.
Proof.
  revert k; induction N as [|N IH]; intros k Hk.
  - destruct k; [reflexivity|lia].
  - destruct k as [|k].
    + cbn [binom]. rewrite Nat.sub_0_r. change (fact 0) with 1%nat. lia.
    + cbn [binom]. replace (S N - S k)%nat with (N - k)%nat by lia.
      pose proof (IH k ltac:(lia)) as H1.
      change (fact (S k)) with (S k * fact k)%nat. change (fact (S N)) with (S N * fact N)%nat.
      destruct (Nat.eq_dec k N) as [->|Hne].
      * rewrite (binom_gt N (S N)) by lia. rewrite Nat.sub_diag in *. change (fact 0) with 1%nat in *. nia.
      * pose proof (IH (S k) ltac:(lia)) as H2.
        remember (N - S k)%nat as d eqn:Ed.
        assert (E1 : (N - k)%nat = S d) by lia. rewrite E1 in *.
        change (fact (S d)) with (S d * fact d)%nat in *.
        change (fact (S k)) with (S k * fact k)%nat in H2.
        replace (S N) with (S k + S d)%nat by lia.
        transitivity (binom N k * fact k * (S d * fact d) * S k
          + binom N (S k) * (S k * fact k) * fact d * S d)%nat; [ring|].
        rewrite H1, H2. ring.
Qed.

Lemma binom_step m j :
  (binom (m + S j) (S j) * S j = binom (m + j) j * (m + S j))%nat.
Proof.
  pose proof (binom_fact (m + S j) (S j) ltac:(lia)) as A.
  pose proof (binom_fact (m + j) j ltac:(lia)) as B.
  replace (m + S j - S j)%nat with m in A by lia. replace (m + j - j)%nat with m in B by lia.
  replace (m + S j)%nat with (S (m + j)) in * by lia.
  change (fact (S (m + j))) with (S (m + j) * fact (m + j))%nat in A.
  change (fact (S j)) with (S j * fact j)%nat in A.
  pose proof (lt_O_fact j). pose proof (lt_O_fact m).
  apply (Nat.mul_cancel_r _ _ (fact j * fact m)); [nia|]. nia.
Qed.

Lemma binom_sym n k : (k <= n)%nat -> binom n (n - k) = binom n k.
Proof.
  intros Hk. pose proof (binom_fact n k Hk) as A. pose proof (binom_fact n (n - k) ltac:(lia)) as B.
  replace (n - (n - k))%nat with k in B by lia.
  pose proof (lt_O_fact k). pose proof (lt_O_fact (n - k)).
  apply (Nat.mul_cancel_r _ _ (fact k * fact (n - k))); [nia|]. nia.
Qed.

Lemma ncr_loop_binom k (m j : nat) un ur :
  un = Z.of_nat m + ur -> un <= UINT_MAX -> Z.of_nat j + Z.of_nat k = ur ->
  ncr_loop k un ur (Z.of_nat (S j)) (Z.of_nat (binom (m + j) j)) <> PInf ->
  ncr_loop k un ur (Z.of_nat (S j)) (Z.of_nat (binom (m + j) j)) =
    Fin (inject_Z (ulong_to_double (Z.of_nat (binom (m + j + k) (j + k))))).
Proof.
  revert j; induction k as [|k IH]; intros j Hu HU Hk Hn.
  - cbn [ncr_loop]. rewrite !Nat.add_0_r. reflexivity.
  - cbn [ncr_loop] in *.
    assert (Hx : ulong (un - ur + Z.of_nat (S j)) = Z.of_nat (m + S j)).
    { unfold ulong. rewrite Z.mod_small; [lia|]. pose proof UINT_MAX_lt. lia. }
    rewrite Hx in *.
    destruct (Z.of_nat (binom (m + j) j) >? ULONG_MAX / Z.of_nat (m + S j)); [congruence|].
    assert (Hd : Z.of_nat (binom (m + j) j) * Z.of_nat (m + S j) / Z.of_nat (S j)
                 = Z.of_nat (binom (m + S j) (S j))).
    { rewrite <- Nat2Z.inj_mul, <- binom_step, Nat2Z.inj_mul. apply Z.div_mul. lia. }
    rewrite Hd in *. replace (Z.of_nat (S j) + 1) with (Z.of_nat (S (S j))) in * by lia.
    replace (m + S j)%nat with (m + S j)%nat in * by reflexivity.
    rewrite IH by (exact Hn || lia).
    replace (m + S j + k)%nat with (m + j + S k)%nat by lia.
    replace (S j + k)%nat with (j + S k)%nat by lia. reflexivity.
Qed.

Lemma ncr_loop_binom0 k (m : nat) un ur :
  un = Z.of_nat m + ur -> un <= UINT_MAX -> Z.of_nat k = ur ->
  ncr_loop k un ur 1 1 <> PInf ->
  ncr_loop k un ur 1 1 = Fin (inject_Z (ulong_to_double (Z.of_nat (binom (m + k) k)))).
Proof.
  intros Hu HU Hk Hn. pose proof (ncr_loop_binom k m 0 un ur Hu HU ltac:(lia)) as L.
  rewrite !Nat.add_0_r, Nat.add_0_l in L.
  replace (binom m 0) with 1%nat in L by (destruct m; reflexivity).
  exact (L Hn).
Qed.

Lemma ncr_binom_value n r :
  (0 <= r <= n)%Q -> (n <= inject_Z UINT_MAX)%Q -> ncr (Fin n) (Fin r) <> PInf ->
  ncr (Fin n) (Fin r) =
    Fin (inject_Z (ulong_to_double (Z.of_nat (binom (Z.to_nat (Qfloor n)) (Z.to_nat (Qfloor r)))))).
Proof.
  intros [H0 Hrn] HU.
  assert (Hn0 : (0 <= n)%Q) by (eapply Qle_trans; eassumption).
  assert (HrU : (r <= inject_Z UINT_MAX)%Q) by (eapply Qle_trans; eassumption).
  unfold ncr, dgt, dzero, duint_max. cbn [dlt].
  rewrite (proj2 (Qlt_bool_false _ _) Hn0), (proj2 (Qlt_bool_false _ _) H0),
    (proj2 (Qlt_bool_false _ _) Hrn), (proj2 (Qlt_bool_false _ _) HU),
    (proj2 (Qlt_bool_false _ _) HrU).
  cbn [orb to_uint]. rewrite (proj2 (Qle_bool_iff _ _) Hn0), (proj2 (Qle_bool_iff _ _) H0).
  pose proof (Qfloor_resp_le _ _ H0) as F0. pose proof (Qfloor_resp_le _ _ Hrn) as F1.
  pose proof (Qfloor_resp_le _ _ HU) as F2. rewrite Qfloor_Z in F2.
  change (Qfloor 0) with 0 in F0.
  pose proof UINT_MAX_lt. cbv zeta.
  destruct (Qfloor r >? Qfloor n / 2).
  - replace (ulong (Qfloor n - Qfloor r)) with (Qfloor n - Qfloor r)
      by (symmetry; unfold ulong; apply Z.mod_small; lia).
    intros Hn. rewrite (ncr_loop_binom0 _ (Z.to_nat (Qfloor r))) by (exact Hn || lia).
    replace (Z.to_nat (Qfloor r) + Z.to_nat (Qfloor n - Qfloor r))%nat
      with (Z.to_nat (Qfloor n)) by lia.
    replace (Z.to_nat (Qfloor n - Qfloor r))
      with (Z.to_nat (Qfloor n) - Z.to_nat (Qfloor r))%nat by lia.
    rewrite binom_sym by lia. reflexivity.
  - intros Hn. rewrite (ncr_loop_binom0 _ (Z.to_nat (Qfloor n - Qfloor r))) by (exact Hn || lia).
    replace (Z.to_nat (Qfloor n - Qfloor r) + Z.to_nat (Qfloor r))%nat
      with (Z.to_nat (Qfloor n)) by lia.
    reflexivity.
Qed.

(** [ncr n r], for [0 <= r <= n <= UINT_MAX], is +inf or the binomial
    coefficient of the truncated arguments converted to [double] (exact
    up to 2^53, rounded to 53 significant bits above). *)
Theorem ncr_binomial n r :
  (0 <= r <= n)%Q -> (n <= inject_Z UINT_MAX)%Q -> ncr (Fin n) (Fin r) <> PInf ->
  ncr (Fin n) (Fin r) =
    Fin (inject_Z (ulong_to_double (Z.of_nat (binom (Z.to_nat (Qfloor n)) (Z.to_nat (Qfloor r)))))).
Proof. exact (ncr_binom_value n r). Qed.



End Combinatorics_values.

Section Combinatorics_witnesses.
Import Combinatorics.

Lemma ncr_binomial_witness :
  (0 <= 2 <= 5)%Q /\ (5 <= inject_Z UINT_MAX)%Q /\ ncr (Fin 5) (Fin 2) <> PInf /\
  ncr (Fin 5) (Fin 2) = Fin (inject_Z (ulong_to_double (Z.of_nat (binom 5 2)))).
Proof.
  assert (H1 : (0 <= 2 <= 5)%Q) by (split; apply Qle_bool_imp_le; reflexivity).
  assert (H2 : (5 <= inject_Z UINT_MAX)%Q) by (apply Qle_bool_imp_le; reflexivity).
  assert (H3 : ncr (Fin 5) (Fin 2) <> PInf) by (vm_compute; discriminate).
  split; [exact H1|split; [exact H2|split; [exact H3|]]].
  exact (ncr_binomial 5 2 H1 H2 H3).
Defined.



End Combinatorics_witnesses.
